(** * Whirlwind: commitment accumulator, circuits and ledger

    A shallow embedding of the off-chain Merkle tree ([MerkleTree.ts], bundled
    in [CircuitTomlGenerator.ts]), of the TOML generator built on it, of the
    Merkle walk of the deposit and withdraw circuits, and of the two versions
    of the [Whirlwind] contract found in the repository, together with the
    properties the specification states about them. *)

From Stdlib Require Import ZArith Lia Ascii String.
From stdpp Require Import gmap strings list pretty.

Open Scope nat_scope.

(** * Part I: the programs *)

(** ** Exceptions and the state-and-exception monad

    A JavaScript method either returns or throws; in both cases the object it
    was called on keeps whatever mutations were made before the throw.  A
    method on an object of type [St] is a function [St -> result A * St]. *)

Inductive exn : Type :=
  | Error (msg : string)      (* [throw Error(msg)] / [throw new Error(msg)] *)
  | TypeError.                (* property access or call on [undefined] *)

Inductive result (A : Type) : Type :=
  | Ok (a : A)
  | Throw (e : exn).
Arguments Ok {A} a.
Arguments Throw {A} e.

Definition rbind {A B} (x : result A) (f : A -> result B) : result B :=
  match x with
  | Ok a => f a
  | Throw e => Throw e
  end.

Definition M (St A : Type) : Type := St -> result A * St.

Definition ret {St A} (a : A) : M St A := fun s => (Ok a, s).
Definition throw {St A} (e : exn) : M St A := fun s => (Throw e, s).
Definition bind {St A B} (m : M St A) (f : A -> M St B) : M St B :=
  fun s => match m s with
           | (Ok a, s') => f a s'
           | (Throw e, s') => (Throw e, s')
           end.
Definition get {St} : M St St := fun s => (Ok s, s).
Definition modify {St} (f : St -> St) : M St unit := fun s => (Ok tt, f s).
Definition lift {St A} (x : result A) : M St A := fun s => (x, s).

Global Instance result_ret : MRet result := fun _ a => Ok a.
Global Instance result_bind : MBind result := fun _ _ f x => rbind x f.
Global Instance M_ret {St} : MRet (M St) := fun _ a => ret a.
Global Instance M_bind {St} : MBind (M St) := fun _ _ f m => bind m f.

(** [a || b] on values that are either an object or [undefined]: objects are
    always truthy, so the right operand is taken exactly when the left one is
    [undefined] ([None]). *)
Definition js_or {A} (a b : option A) : option A :=
  match a with
  | Some v => Some v
  | None => b
  end.

(** ** Storage keys: [`${level}-${index}`] *)

Definition indexToKey (level index : nat) : string :=
  pretty level +:+ "-" +:+ pretty index.

(** ** Field elements

    [Fr] (bb.js) and [Field] (Noir) are elements of the same prime field; a
    value is represented by its canonical integer.  The Pedersen hash is an
    external primitive: every definition that hashes takes it as a parameter. *)

Definition Fr : Type := N.

(** [Fr.toString()]: [0x] followed by 64 lower-case hexadecimal digits. *)
Definition hex_digit (d : N) : ascii :=
  match d with
  | 0 => "0" | 1 => "1" | 2 => "2" | 3 => "3" | 4 => "4" | 5 => "5"
  | 6 => "6" | 7 => "7" | 8 => "8" | 9 => "9" | 10 => "a" | 11 => "b"
  | 12 => "c" | 13 => "d" | 14 => "e" | _ => "f"
  end%char%N.

Fixpoint hex_padded (digits : nat) (x : N) (acc : string) : string :=
  match digits with
  | 0 => acc
  | S d => hex_padded d (x / 16)%N (String (hex_digit (x mod 16)%N) acc)
  end.

Definition Fr_toString (x : Fr) : string := "0x" +:+ hex_padded 64 x "".

(** ** MerkleTree.ts *)

Module MerkleProof.
(** The object literal returned by [proof]. An entry is [None] where the
    JavaScript value is [undefined]. *)
Record t : Type := mk {
  root : option Fr;
  pathElements : list (option Fr);
  pathIndices : list nat;
  leaf : option Fr
}.
End MerkleProof.

Module MerkleTree.

Record t : Type := mk {
  levels : nat;
  storage : gmap string Fr;
  zeros : list Fr;
  totalLeaves : nat;
  bb : option (list Fr -> Fr)   (* [None] until [initialize] assigns it *)
}.

Definition set_storage (m : gmap string Fr) (this : t) : t :=
  mk (levels this) m (zeros this) (totalLeaves this) (bb this).
Definition set_zeros (z : list Fr) (this : t) : t :=
  mk (levels this) (storage this) z (totalLeaves this) (bb this).
Definition set_totalLeaves (n : nat) (this : t) : t :=
  mk (levels this) (storage this) (zeros this) n (bb this).
Definition set_bb (h : option (list Fr -> Fr)) (this : t) : t :=
  mk (levels this) (storage this) (zeros this) (totalLeaves this) h.

Definition zeroValue : Fr :=
  0x18d85f3de6dcd78b6ffbf5d8374433a5528d8e3bf2100df0b7bb43a4c59ebd63%N.

(** [constructor(levels)] *)
Definition new (levels : nat) : t := mk levels ∅ [] 0 None.

(** [pedersenHash(left, right)]: [this.bb.pedersenHash([left, right], 0)].
    The call throws when [this.bb] is unset, and the hasher throws when it
    is handed [undefined] instead of a field element. *)
Definition pedersenHash (this : t) (left' right' : option Fr) : result Fr :=
  match bb this, left', right' with
  | Some h, Some l, Some r => Ok (h [l; r])
  | _, _, _ => Throw TypeError
  end.

(** [root()] *)
Definition root (this : t) : option Fr :=
  js_or (storage this !! indexToKey (levels this) 0)
        (zeros this !! levels this).

(** [traverse(indexOfLeaf, handler)].  The handler of the source mutates
    variables of the enclosing method; here it threads them as a value of
    type [L].  [traverse_loop n i] runs the iterations [i, ..., i + n - 1]
    of the [for] loop. *)
Fixpoint traverse_loop {L : Type} (n i currentIndex : nat)
    (handler : nat -> nat -> nat -> L -> result L) (l : L) : result L :=
  match n with
  | 0 => Ok l
  | S n' =>
      let siblingIndex :=
        if decide (currentIndex mod 2 = 0) then currentIndex + 1
        else currentIndex - 1 in
      l' ← handler i currentIndex siblingIndex l;
      traverse_loop n' (S i) (currentIndex / 2) handler l'
  end.

Definition traverse {L : Type} (this : t) (indexOfLeaf : nat)
    (handler : nat -> nat -> nat -> L -> result L) (l : L) : result L :=
  traverse_loop (levels this) 0 indexOfLeaf handler l.

(** [this.storage.get(indexToKey(level, index)) || this.zeros[level]]: the
    stored value of a node, or the zero of its level. *)
Definition node (this : t) (level index : nat) : option Fr :=
  js_or (storage this !! indexToKey level index) (zeros this !! level).

(** [proof(indexOfLeaf)]; the handler's variables are
    [(pathElements, pathIndices)]. *)
Definition proof_handleIndex (this : t) (level currentIndex siblingIndex : nat)
    (l : list (option Fr) * list nat) : result (list (option Fr) * list nat) :=
  let '(pathElements, pathIndices) := l in
  let siblingValue := node this level siblingIndex in
  Ok (pathElements ++ [siblingValue], pathIndices ++ [currentIndex mod 2]).

Definition proof (this : t) (indexOfLeaf : nat) : result MerkleProof.t :=
  let leaf := js_or (storage this !! indexToKey 0 indexOfLeaf) (zeros this !! 0) in
  '(pathElements, pathIndices) ←
      traverse this indexOfLeaf (proof_handleIndex this) ([], []);
  Ok (MerkleProof.mk (root this) pathElements pathIndices leaf).

(** [update(index, newLeaf, isInsert)]; the handler's variables are
    [(keyValueToStore, currentElement)].  [siblingAt level siblingIndex] is
    where the handler reads the sibling from: in [update] it is the storage
    with the zeros as default. *)
Definition update_handleIndex (this : t) (siblingAt : nat -> nat -> option Fr)
    (level currentIndex siblingIndex : nat)
    (l : list (string * Fr) * Fr) : result (list (string * Fr) * Fr) :=
  let '(keyValueToStore, currentElement) := l in
  let siblingElement := siblingAt level siblingIndex in
  let '(left', right') :=
    if decide (currentIndex mod 2 = 0)
    then (Some currentElement, siblingElement)
    else (siblingElement, Some currentElement) in
  let keyValueToStore :=
    keyValueToStore ++ [(indexToKey level currentIndex, currentElement)] in
  currentElement ← pedersenHash this left' right';
  Ok (keyValueToStore, currentElement).

(** [keyValueToStore.forEach(o => this.storage.set(o.key, o.value))] *)
Definition commit (keyValueToStore : list (string * Fr))
    (m : gmap string Fr) : gmap string Fr :=
  foldl (fun m o => <[o.1 := o.2]> m) m keyValueToStore.

Definition update (index : nat) (newLeaf : Fr) (isInsert : bool) : M t unit :=
  fun this =>
  if negb isInsert && bool_decide (totalLeaves this <= index) then
    (Throw (Error "Use insert method for new elements."), this)
  else if isInsert && bool_decide (index < totalLeaves this) then
    (Throw (Error "Use update method for existing elements."), this)
  else
    match traverse this index (update_handleIndex this (node this)) ([], newLeaf) with
    | Throw e => (Throw e, this)
    | Ok (keyValueToStore, currentElement) =>
        let keyValueToStore :=
          keyValueToStore ++ [(indexToKey (levels this) 0, currentElement)] in
        (Ok tt, set_storage (commit keyValueToStore (storage this)) this)
    end.

(** [insert(leaf)] *)
Definition insert (leaf : Fr) : M t unit :=
  this ← get;
  let index := totalLeaves this in
  update index leaf true;;
  modify (fun this => set_totalLeaves (totalLeaves this + 1) this).

(** [for (const leaf of leaves) this.insert(leaf)]: the loop that ends
    [initialize], and any run of successive [insert] calls. *)
Fixpoint insertAll (leaves : list Fr) : M t unit :=
  match leaves with
  | [] => mret tt
  | leaf :: rest => insert leaf;; insertAll rest
  end.

(** [initialize(defaultLeaves)]: [pedersen] is the hasher of the
    [BarretenbergSync] singleton. *)
Fixpoint build_zeros (n : nat) (currentZero : Fr) : M t unit :=
  match n with
  | 0 => mret tt
  | S n' =>
      this ← get;
      currentZero ← lift (pedersenHash this (Some currentZero) (Some currentZero));
      modify (fun this => set_zeros (zeros this ++ [currentZero]) this);;
      build_zeros n' currentZero
  end.

Definition initialize (pedersen : list Fr -> Fr) (defaultLeaves : list Fr)
    : M t unit :=
  modify (set_bb (Some pedersen));;
  let currentZero := zeroValue in
  modify (fun this => set_zeros (zeros this ++ [currentZero]) this);;
  this ← get;
  build_zeros (levels this) currentZero;;
  insertAll defaultLeaves.

End MerkleTree.

(** ** CircuitTomlGenerator.ts *)

Module DepositRecord.
Record t : Type := mk {
  id : Fr;
  r : Fr;
  commitment : Fr;
  index : Fr;
  oldRoot : option Fr;
  newRoot : option Fr;
  hashPath : list (option Fr);
  pathIndices : list nat
}.
End DepositRecord.

Module NoirCircuitTomlGenerator.

Record t : Type := mk {
  tree : MerkleTree.t;
  deposits : list DepositRecord.t
}.

(** [constructor()] *)
Definition new : t := mk (MerkleTree.new 8) [].

(** [init()] *)
Definition init (pedersen : list Fr -> Fr) : M t unit :=
  fun this =>
  let '(res, tree') := MerkleTree.initialize pedersen [] (tree this) in
  (res, mk tree' (deposits this)).

(** [numToFr(num)]: the number is printed as 64 hexadecimal digits and
    parsed back by [Fr.fromString]; for a count of leaves this is the field
    element of that value. *)
Definition numToFr (num : nat) : Fr := N.of_nat num.

(** [x.toString()] on a value that may be [undefined]. *)
Definition toString (x : option Fr) : result string :=
  match x with
  | Some v => Ok (Fr_toString v)
  | None => Throw TypeError
  end.

Fixpoint mapToString (l : list (option Fr)) : result (list string) :=
  match l with
  | [] => Ok []
  | x :: rest =>
      s ← toString x;
      ss ← mapToString rest;
      Ok (s :: ss)
  end.

Definition quote : string := String (ascii_of_nat 34) EmptyString.
Definition newline : string := String (ascii_of_nat 10) EmptyString.
Definition quoted (s : string) : string := quote +:+ s +:+ quote.

(** [key = "value"] and [key = ["v1", "v2", ...]] *)
Definition toml_line (key value : string) : string :=
  key +:+ " = " +:+ quoted value.
Definition toml_array (key : string) (values : list string) : string :=
  key +:+ " = [" +:+ String.concat ", " (map quoted values) +:+ "]".

(** [deposit(id, r)] *)
Definition deposit (id r : Fr) : M t unit :=
  fun this =>
  let indexNumber := MerkleTree.totalLeaves (tree this) in
  let indexFr := numToFr indexNumber in
  let oldRoot := MerkleTree.root (tree this) in
  match MerkleTree.proof (tree this) indexNumber with
  | Throw e => (Throw e, this)
  | Ok proof =>
      let hashPath := MerkleProof.pathElements proof in
      match MerkleTree.bb (tree this) with
      | None => (Throw TypeError, this)
      | Some pedersen =>
          let commitment := pedersen [id; r] in
          match MerkleTree.insert commitment (tree this) with
          | (Throw e, tree') => (Throw e, mk tree' (deposits this))
          | (Ok _, tree') =>
              let newRoot := MerkleTree.root tree' in
              let record :=
                DepositRecord.mk id r commitment indexFr oldRoot newRoot
                  hashPath (MerkleProof.pathIndices proof) in
              (Ok tt, mk tree' (deposits this ++ [record]))
          end
      end
  end.

(** The arguments of [gentoml(circuitType, param1, param2)]. *)
Inductive gentoml_args : Type :=
  | Deposit (id r : Fr)               (* [gentoml('deposit', id, r)] *)
  | Withdraw (index : nat)            (* [gentoml('withdraw', index)] *)
  | Other (circuitType : string).     (* any other [circuitType] *)

Definition gentoml (args : gentoml_args) : M t string :=
  fun this =>
  match args with
  | Deposit id r =>
      let indexNumber := MerkleTree.totalLeaves (tree this) in
      let indexFr := numToFr indexNumber in
      let oldRoot := MerkleTree.root (tree this) in
      match MerkleTree.proof (tree this) indexNumber with
      | Throw e => (Throw e, this)
      | Ok proof =>
          let hashPath := MerkleProof.pathElements proof in
          match MerkleTree.bb (tree this) with
          | None => (Throw TypeError, this)
          | Some pedersen =>
              let commitment := pedersen [id; r] in
              match MerkleTree.insert commitment (tree this) with
              | (Throw e, tree') => (Throw e, mk tree' (deposits this))
              | (Ok _, tree') =>
                  let newRoot := MerkleTree.root tree' in
                  let record :=
                    DepositRecord.mk id r commitment indexFr oldRoot newRoot
                      hashPath (MerkleProof.pathIndices proof) in
                  let this' := mk tree' (deposits this ++ [record]) in
                  let toml :=
                    path ← mapToString hashPath;
                    oldRootS ← toString oldRoot;
                    newRootS ← toString newRoot;
                    Ok (String.concat newline
                          [ toml_line "id" (Fr_toString id);
                            toml_line "r" (Fr_toString r);
                            toml_array "oldPath" path;
                            toml_line "oldRoot" oldRootS;
                            toml_line "newRoot" newRootS;
                            toml_line "commitment" (Fr_toString commitment);
                            toml_line "index" (Fr_toString indexFr) ]) in
                  (toml, this')
              end
          end
      end
  | Withdraw indexNumber =>
      let indexFr := numToFr indexNumber in
      match List.find
              (fun rec => bool_decide (Fr_toString (DepositRecord.index rec)
                                       = Fr_toString indexFr))
              (deposits this) with
      | None =>
          (Throw (Error ("No deposit record found for index "
                         +:+ pretty indexNumber)), this)
      | Some record =>
          let toml :=
            path ← mapToString (DepositRecord.hashPath record);
            rootS ← toString (DepositRecord.newRoot record);
            Ok (String.concat newline
                  [ toml_line "r" (Fr_toString (DepositRecord.r record));
                    toml_line "index" (Fr_toString (DepositRecord.index record));
                    toml_array "path" path;
                    toml_line "root" rootS;
                    toml_line "id" (Fr_toString (DepositRecord.id record)) ]) in
          (toml, this)
      end
  | Other _ => (Throw (Error "Invalid circuit type"), this)
  end.

(** The operations a caller can perform on a generator. *)
Inductive op : Type :=
  | OpInit (pedersen : list Fr -> Fr)
  | OpDeposit (id r : Fr)
  | OpGentoml (args : gentoml_args).

Definition step (o : op) (this : t) : t :=
  match o with
  | OpInit pedersen => (init pedersen this).2
  | OpDeposit id r => (deposit id r this).2
  | OpGentoml args => (gentoml args this).2
  end.

Definition run (ops : list op) (this : t) : t :=
  foldl (fun g o => step o g) this ops.

End NoirCircuitTomlGenerator.

(** ** The Noir circuits *)

Module Noir.

(** [x.to_le_bits::<n>()]: the [n] low bits of [x], least significant
    first; the decomposition is constrained to represent [x], so it fails
    when [x] does not fit in [n] bits. *)
Definition to_le_bits (n : nat) (x : Fr) : option (list bool) :=
  if decide (x < 2 ^ N.of_nat n)%N
  then Some (map (fun i => N.testbit x (N.of_nat i)) (seq 0 n))
  else None.

(** The Merkle walk that both circuits spell out:
    [for i in 0..depth { if bits[i] == 1 { cur = pedersen_hash([path[i], cur]) }
                         else { cur = pedersen_hash([cur, path[i]]) } }].
    [walk_loop n i] runs the iterations [i, ..., i + n - 1]; the arrays
    have [depth] entries, so every index read is in range. *)
Fixpoint walk_loop (pedersen_hash : list Fr -> Fr) (n i : nat)
    (bits : list bool) (path : list Fr) (cur : Fr) : Fr :=
  match n with
  | 0 => cur
  | S n' =>
      let cur :=
        if nth i bits false then pedersen_hash [nth i path 0%N; cur]
        else pedersen_hash [cur; nth i path 0%N] in
      walk_loop pedersen_hash n' (S i) bits path cur
  end.

Definition walk (pedersen_hash : list Fr -> Fr) (depth : nat)
    (bits : list bool) (path : list Fr) (cur : Fr) : Fr :=
  walk_loop pedersen_hash depth 0 bits path cur.

End Noir.

(** deposit.nr; [main] is [true] when every assertion holds. *)
Module DepositCircuit.

Definition empty_leaf : Fr :=
  0x18d85f3de6dcd78b6ffbf5d8374433a5528d8e3bf2100df0b7bb43a4c59ebd63%N.

Definition main (pedersen_hash : list Fr -> Fr)
    (id r : Fr) (oldPath : list Fr)
    (oldRoot newRoot commitment index : Fr) : bool :=
  bool_decide (pedersen_hash [id; r] = commitment) &&
  match Noir.to_le_bits 8 index with
  | None => false
  | Some bits =>
      let current := Noir.walk pedersen_hash 8 bits oldPath empty_leaf in
      bool_decide (current = oldRoot) &&
      let updated := Noir.walk pedersen_hash 8 bits oldPath commitment in
      bool_decide (updated = newRoot)
  end.

End DepositCircuit.

(** withdraw.nr *)
Module WithdrawCircuit.

Definition main (pedersen_hash : list Fr -> Fr)
    (r index : Fr) (path : list Fr) (root id : Fr) : bool :=
  let commitment := pedersen_hash [id; r] in
  match Noir.to_le_bits 8 index with
  | None => false
  | Some bits =>
      let cur := Noir.walk pedersen_hash 8 bits path commitment in
      bool_decide (cur = root)
  end.

End WithdrawCircuit.

(** ** The Whirlwind contract *)

(** What the two versions of the contract share: the storage layout, the
    events, and the execution of a call.  A call runs on a [machine]: the
    contract's state and the trace of the operations performed so far.  It
    ends in [Success], with the new machine, or in [Revert], which discards
    every state change; the trace of a reverted call is kept only to say what
    had been attempted. *)
Module Sol.
Local Open Scope Z_scope.

Definition address : Type := Z.
Definition bytes32 : Type := Z.
Definition uint256 : Type := Z.
Definition bytes : Type := list Z.

Definition MAX_UINT256 : Z := 2 ^ 256 - 1.
(** [0.1 ether], in wei *)
Definition ether_0_1 : Z := 10 ^ 17.

Record msg : Type := mkMsg {
  sender : address;
  value : Z
}.

Inductive event : Type :=
  | Deposit (newRoot commitment : bytes32) (index : uint256)
  | Withdraw (recipient : address) (nullifier : bytes32).

Record state : Type := mkState {
  depositVerifier : address;
  withdrawVerifier : address;
  depositIndex : uint256;
  maxDeposits : uint256;
  usedNullifiers : gmap Z bool;
  currentRoot : bytes32;
  owner : address;
  balance : Z                      (* [address(this).balance] *)
}.

(** [usedNullifiers[k]]: an absent entry of a mapping reads as [false]. *)
Definition used (s : state) (k : bytes32) : bool :=
  default false (usedNullifiers s !! k).

Inductive effect : Type :=
  | SStoreUsedNullifiers (k : bytes32) (v : bool)
  | SStoreCurrentRoot (v : bytes32)
  | SStoreDepositIndex (v : uint256)
  | Emit (e : event)
  | CallVerify (verifier : address) (proof : bytes) (publicInputs : list Z)
  | Transfer (recipient : address) (amount : Z).

Inductive revert_reason : Type :=
  | Reason (message : string)      (* a failed [require(cond, message)] *)
  | Panic (code : Z)               (* checked arithmetic *)
  | Bubbled                        (* an external call reverted *)
  | NotPayable.                    (* ether sent to a function that is not
                                      [payable]: a revert without data *)

Record machine : Type := mkMachine {
  st : state;
  trace : list effect
}.

Inductive outcome (A : Type) : Type :=
  | Success (a : A) (m : machine)
  | Revert (why : revert_reason) (attempted : list effect).
Arguments Success {A} a m.
Arguments Revert {A} why attempted.

Definition tx (A : Type) : Type := machine -> outcome A.

Global Instance tx_ret : MRet tx := fun _ a m => Success a m.
Global Instance tx_bind : MBind tx := fun _ _ f c m =>
  match c m with
  | Success a m' => f a m'
  | Revert why tr => Revert why tr
  end.

Definition sload : tx state := fun m => Success (st m) m.
Definition revert {A} (why : revert_reason) : tx A :=
  fun m => Revert why (trace m).
Definition require (cond : bool) (message : string) : tx unit :=
  if cond then mret tt else revert (Reason message).
Definition record (e : effect) : tx unit :=
  fun m => Success tt (mkMachine (st m) (trace m ++ [e])).
Definition store (f : state -> state) : tx unit :=
  fun m => Success tt (mkMachine (f (st m)) (trace m)).

Definition set_usedNullifiers (k : bytes32) (v : bool) (s : state) : state :=
  mkState (depositVerifier s) (withdrawVerifier s) (depositIndex s)
    (maxDeposits s) (<[k := v]> (usedNullifiers s)) (currentRoot s)
    (owner s) (balance s).
Definition set_currentRoot (v : bytes32) (s : state) : state :=
  mkState (depositVerifier s) (withdrawVerifier s) (depositIndex s)
    (maxDeposits s) (usedNullifiers s) v (owner s) (balance s).
Definition set_depositIndex (v : uint256) (s : state) : state :=
  mkState (depositVerifier s) (withdrawVerifier s) v
    (maxDeposits s) (usedNullifiers s) (currentRoot s) (owner s) (balance s).
Definition set_balance (v : Z) (s : state) : state :=
  mkState (depositVerifier s) (withdrawVerifier s) (depositIndex s)
    (maxDeposits s) (usedNullifiers s) (currentRoot s) (owner s) v.

(** [usedNullifiers[k] = v;], [currentRoot = v;], [emit e;] *)
Definition sstore_usedNullifiers (k : bytes32) (v : bool) : tx unit :=
  record (SStoreUsedNullifiers k v);; store (set_usedNullifiers k v).
Definition sstore_currentRoot (v : bytes32) : tx unit :=
  record (SStoreCurrentRoot v);; store (set_currentRoot v).
Definition emit (e : event) : tx unit := record (Emit e).

(** [depositIndex++;] with the checked addition of Solidity 0.8 *)
Definition increment_depositIndex : tx unit :=
  s ← sload;
  if decide (depositIndex s + 1 > MAX_UINT256)%Z then revert (Panic 17)
  else record (SStoreDepositIndex (depositIndex s + 1));;
       store (set_depositIndex (depositIndex s + 1)).

(** A payable function is entered with [msg.value] already credited.  A
    function that is not payable starts with the check the compiler puts
    there: a call that carries ether reverts before the body runs. *)
Definition payable (m : msg) : tx unit :=
  store (fun s => set_balance (balance s + value m) s).
Definition nonpayable (m : msg) : tx unit :=
  if decide (value m = 0)%Z then mret tt else revert NotPayable.

(** [IVerifier(verifier).verify(proof, publicInputs)]: [verify] is the
    code deployed at the verifiers' addresses; it answers [None] when the
    call itself reverts, which the caller propagates. *)
Definition call_verify (verify : address -> bytes -> list Z -> option bool)
    (verifier : address) (proof : bytes) (publicInputs : list Z) : tx bool :=
  record (CallVerify verifier proof publicInputs);;
  match verify verifier proof publicInputs with
  | Some b => mret b
  | None => revert Bubbled
  end.

(** [payable(recipient).transfer(amount)]: reverts when the balance is too
    small or when the recipient refuses the payment.  The recipient's code
    runs in the middle of the call: [receive recipient amount s] is its
    verdict, given the contract state [s] it can observe at that moment. *)
Definition transfer (receive : address -> Z -> state -> bool)
    (recipient : address) (amount : Z) : tx unit :=
  record (Transfer recipient amount);;
  s ← sload;
  if decide (balance s < amount)%Z then revert Bubbled
  else if receive recipient amount s
       then store (set_balance (balance s - amount))
       else revert Bubbled.

(** Running a call from state [s]; the state after it. *)
Definition call {A} (c : tx A) (s : state) : outcome A := c (mkMachine s []).
Definition state_after {A} (s : state) (o : outcome A) : state :=
  match o with
  | Success _ m => st m
  | Revert _ _ => s
  end.

(** [constructor(_depositVerifier, _withdrawVerifier, _merkleTreeDepth,
    _initialRoot)]: not payable, and [2 ** _merkleTreeDepth] is checked.
    [None] is a deployment that reverts. *)
Definition constructor (m : msg) (_depositVerifier _withdrawVerifier : address)
    (_merkleTreeDepth : uint256) (_initialRoot : bytes32) : option state :=
  if decide (value m <> 0)%Z then None
  else if decide (256 <= _merkleTreeDepth)%Z then None
  else Some (mkState _depositVerifier _withdrawVerifier 0
               (2 ^ _merkleTreeDepth) ∅ _initialRoot (sender m) 0).

(** [abi.encodePacked] of 32-byte words: each word as 32 big-endian bytes. *)
Definition word_bytes (w : Z) : bytes :=
  map (fun i => (w / 256 ^ Z.of_nat (31 - i)%nat) mod 256) (seq 0 32).
Definition encodePacked (words : list Z) : bytes :=
  concat (map word_bytes words).

End Sol.

(** The contract as printed in the assignment's README (two-argument
    [withdraw], [bytes32[]] public inputs). *)
Module Whirlwind.
Import Sol.
Local Open Scope Z_scope.

Section Calls.
Variable verify : address -> bytes -> list bytes32 -> option bool.
Variable receive : address -> Z -> state -> bool.

Definition deposit (m : msg) (proof : bytes) (newRoot commitment : bytes32)
    : tx unit :=
  payable m;;
  s ← sload;
  require (bool_decide (depositIndex s < maxDeposits s)%Z)
    "Deposit limit reached";;
  let publicInputs :=
    [currentRoot s; newRoot; commitment; depositIndex s] in
  require (bool_decide (value m = ether_0_1))
    "Must deposit exactly 0.1 ETH";;
  ok ← call_verify verify (depositVerifier s) proof publicInputs;
  require ok "Invalid deposit proof";;
  sstore_currentRoot newRoot;;
  emit (Deposit newRoot commitment (depositIndex s));;
  increment_depositIndex.

Definition withdraw (m : msg) (proof : bytes) (nullifier : bytes32)
    : tx unit :=
  nonpayable m;;
  s ← sload;
  require (negb (used s nullifier)) "Nullifier already used";;
  let publicInputs := [currentRoot s; nullifier] in
  ok ← call_verify verify (withdrawVerifier s) proof publicInputs;
  require ok "Invalid withdraw proof";;
  sstore_usedNullifiers nullifier true;;
  emit (Withdraw (sender m) nullifier);;
  transfer receive (sender m) ether_0_1.
End Calls.

End Whirlwind.

(** hw5/contracts/whirlwind.sol (three-argument [withdraw], public inputs
    packed into [bytes]). *)
Module WhirlwindHw5.
Import Sol.
Local Open Scope Z_scope.

Section Calls.
Variable verify : address -> bytes -> bytes -> option bool.
Variable receive : address -> Z -> state -> bool.

Definition deposit (m : msg) (proof : bytes) (newRoot commitment : bytes32)
    : tx unit :=
  payable m;;
  s ← sload;
  require (bool_decide (depositIndex s < maxDeposits s)%Z)
    "Deposit limit reached";;
  let publicInputs :=
    encodePacked [commitment; depositIndex s; newRoot] in
  require (bool_decide (value m = ether_0_1))
    "Must deposit exactly 0.1 ETH";;
  ok ← call_verify verify (depositVerifier s) proof publicInputs;
  require ok "Invalid deposit proof";;
  sstore_currentRoot newRoot;;
  emit (Deposit newRoot commitment (depositIndex s));;
  increment_depositIndex.

Definition withdraw (m : msg) (proof : bytes) (root nullifier : bytes32)
    : tx unit :=
  nonpayable m;;
  s ← sload;
  require (negb (used s nullifier)) "Nullifier already used";;
  let publicInputs := encodePacked [root; nullifier] in
  ok ← call_verify verify (withdrawVerifier s) proof publicInputs;
  require ok "Invalid withdraw proof";;
  sstore_usedNullifiers nullifier true;;
  emit (Withdraw (sender m) nullifier);;
  transfer receive (sender m) ether_0_1.
End Calls.

End WhirlwindHw5.

(** ** Sequences of calls to the ledger *)

Module Ledger.
Import Sol.

Inductive call_desc : Type :=
  | CallDeposit (m : msg) (proof : bytes) (newRoot commitment : bytes32)
  | CallWithdraw (m : msg) (proof : bytes) (nullifier : bytes32).

Section World.
Variable verify : address -> bytes -> list bytes32 -> option bool.
Variable receive : address -> Z -> state -> bool.

Definition exec (c : call_desc) (s : state) : outcome unit :=
  match c with
  | CallDeposit m proof newRoot commitment =>
      call (Whirlwind.deposit verify m proof newRoot commitment) s
  | CallWithdraw m proof nullifier =>
      call (Whirlwind.withdraw verify receive m proof nullifier) s
  end.

Definition step (s : state) (c : call_desc) : state :=
  state_after s (exec c s).

Definition run (calls : list call_desc) (s : state) : state :=
  foldl step s calls.
End World.

End Ledger.

(** ** Specification-level definitions *)

Module Spec.

(** Re-deriving the root by hand from a proof: at each level the current
    value is hashed with the sibling, on the left when the path index is
    [0] and on the right otherwise.  [None] stands for [undefined]. *)
Fixpoint recompute_root (pedersen : list Fr -> Fr) (cur : option Fr)
    (pathElements : list (option Fr)) (pathIndices : list nat) : option Fr :=
  match pathElements, pathIndices with
  | e :: pathElements', b :: pathIndices' =>
      let next :=
        match cur, e with
        | Some c, Some s =>
            Some (if decide (b = 0) then pedersen [c; s] else pedersen [s; c])
        | _, _ => None
        end in
      recompute_root pedersen next pathElements' pathIndices'
  | _, _ => cur
  end.

(** The canonical zero-leaf constant hashed with itself, pairwise, [D]
    times. *)
Definition zero_root (pedersen : list Fr -> Fr) (D : nat) : Fr :=
  Nat.iter D (fun z => pedersen [z; z]) MerkleTree.zeroValue.

Definition sibling (c : nat) : nat :=
  if decide (c mod 2 = 0) then c + 1 else c - 1.

(** The value that [update index leaf] computes for the node of level [l]
    on the path of [index], reading siblings through [siblingAt]. *)
Fixpoint path_value (pedersen : list Fr -> Fr)
    (siblingAt : nat -> nat -> option Fr) (index : nat) (leaf : Fr)
    (l : nat) : Fr :=
  match l with
  | 0 => leaf
  | S l' =>
      let v := path_value pedersen siblingAt index leaf l' in
      let c := index / 2 ^ l' in
      let s := default 0%N (siblingAt l' (sibling c)) in
      if decide (c mod 2 = 0) then pedersen [v; s] else pedersen [s; v]
  end.

(** The hasher is set and every level has its zero: the state that
    [initialize] establishes and that no method destroys. *)
Definition ready (this : MerkleTree.t) : Prop :=
  is_Some (MerkleTree.bb this) /\
  forall l, l <= MerkleTree.levels this -> is_Some (MerkleTree.zeros this !! l).

(** A tree as [initialize] and [insert] build it. *)
Record wf (pedersen : list Fr -> Fr) (this : MerkleTree.t) : Prop := mk_wf {
  wf_bb : MerkleTree.bb this = Some pedersen;
  wf_zeros : forall l, l <= MerkleTree.levels this ->
    MerkleTree.zeros this !! l = Some (zero_root pedersen l);
  wf_count : MerkleTree.totalLeaves this <= 2 ^ MerkleTree.levels this;
  wf_leaves : forall j,
    is_Some (MerkleTree.storage this !! indexToKey 0 j) <->
    j < MerkleTree.totalLeaves this;
  wf_up : forall l j, l < MerkleTree.levels this ->
    is_Some (MerkleTree.storage this !! indexToKey l j) ->
    is_Some (MerkleTree.storage this !! indexToKey (S l) (j / 2));
  wf_hash : forall l p v, l < MerkleTree.levels this ->
    MerkleTree.storage this !! indexToKey (S l) p = Some v ->
    exists a b,
      MerkleTree.node this l (2 * p) = Some a /\
      MerkleTree.node this l (2 * p + 1) = Some b /\
      v = pedersen [a; b]
}.

(** The tree that [initialize] leaves behind before it inserts anything. *)
Definition initial (pedersen : list Fr -> Fr) (D : nat) : MerkleTree.t :=
  MerkleTree.mk D ∅ (map (zero_root pedersen) (seq 0 (S D))) 0
    (Some pedersen).

(** A hash to run the programs on: not a Pedersen hash, only a function of
    the right type. *)
Definition demo_hash (inputs : list Fr) : Fr :=
  foldl (fun acc x => (acc * 1000003 + x + 1) mod 18446744073709551557)%N
        7%N inputs.

(** Two trees to evaluate the code on: the empty tree of depth 1, and the
    tree of depth 1 holding its two leaves. *)
Definition empty_tree : MerkleTree.t :=
  (MerkleTree.initialize demo_hash [] (MerkleTree.new 1)).2.
Definition full_tree : MerkleTree.t :=
  (MerkleTree.initialize demo_hash [1; 2]%N (MerkleTree.new 1)).2.

(** A ledger to evaluate the contract on: no deposit yet, room for 256,
    current root 100, a balance of two units; verifiers that accept
    everything, or exactly one list of public inputs; a recipient that
    accepts every payment. *)
Definition demo_state : Sol.state :=
  (Sol.mkState 11 12 0 256 ∅ 100 10 (2 * Sol.ether_0_1))%Z.
Definition accept_all : Sol.address -> Sol.bytes -> list Z -> option bool :=
  fun _ _ _ => Some true.
Definition accept_only (expected : list Z)
    : Sol.address -> Sol.bytes -> list Z -> option bool :=
  fun _ _ publicInputs => Some (bool_decide (publicInputs = expected)).
Definition receive_all : Sol.address -> Z -> Sol.state -> bool :=
  fun _ _ _ => true.
Definition caller : Sol.msg := (Sol.mkMsg 77 0)%Z.
Definition depositor : Sol.msg := (Sol.mkMsg 77 Sol.ether_0_1)%Z.

(** [demo_state] after [caller] has withdrawn with nullifier 5. *)
Definition demo_withdrawn : Sol.machine :=
  (Sol.mkMachine
     (Sol.set_balance Sol.ether_0_1 (Sol.set_usedNullifiers 5 true demo_state))
     [Sol.CallVerify 12 [] [100; 5]; Sol.SStoreUsedNullifiers 5 true;
      Sol.Emit (Sol.Withdraw 77 5); Sol.Transfer 77 Sol.ether_0_1])%Z.

End Spec.

(** ** What a run of calls leaves behind *)

Module LedgerLog.
Import Sol.

Definition succeeded {A} (o : outcome A) : bool :=
  match o with
  | Success _ _ => true
  | Revert _ _ => false
  end.

(** The events of a call: those of its trace if it succeeded, none if it
    reverted. *)
Definition events_of {A} (o : outcome A) : list event :=
  match o with
  | Success _ m =>
      omap (fun e => match e with Emit ev => Some ev | _ => None end) (trace m)
  | Revert _ _ => []
  end.

Definition is_deposit (c : Ledger.call_desc) : bool :=
  match c with
  | Ledger.CallDeposit _ _ _ _ => true
  | Ledger.CallWithdraw _ _ _ => false
  end.

Section World.
Variable verify : address -> bytes -> list bytes32 -> option bool.
Variable receive : address -> Z -> state -> bool.

(** Each call of a run with its outcome, the calls being executed one after
    the other from state [s]. *)
Fixpoint outcomes (calls : list Ledger.call_desc) (s : state)
    : list (Ledger.call_desc * outcome unit) :=
  match calls with
  | [] => []
  | c :: rest =>
      (c, Ledger.exec verify receive c s)
      :: outcomes rest (Ledger.step verify receive s c)
  end.

Definition emitted (calls : list Ledger.call_desc) (s : state) : list event :=
  concat (map (fun co => events_of co.2) (outcomes calls s)).

Definition deposits_accepted (calls : list Ledger.call_desc) (s : state) : nat :=
  length (List.filter (fun co => is_deposit co.1 && succeeded co.2) (outcomes calls s)).

Definition withdrawals_accepted (calls : list Ledger.call_desc) (s : state) : nat :=
  length (List.filter (fun co => negb (is_deposit co.1) && succeeded co.2)
            (outcomes calls s)).
End World.

Definition deposit_index (ev : event) : option uint256 :=
  match ev with
  | Deposit _ _ index => Some index
  | Withdraw _ _ => None
  end.

Definition deposit_root (ev : event) : option bytes32 :=
  match ev with
  | Deposit newRoot _ _ => Some newRoot
  | Withdraw _ _ => None
  end.

Definition withdraw_nullifier (ev : event) : option bytes32 :=
  match ev with
  | Deposit _ _ _ => None
  | Withdraw _ nullifier => Some nullifier
  end.

End LedgerLog.

(** ** Reference definitions for the tree and the circuits *)

Module Reference.

(** The number whose little-endian bits are [bits]. *)
Fixpoint from_le_bits (bits : list bool) : N :=
  match bits with
  | [] => 0
  | b :: rest => N.b2n b + 2 * from_le_bits rest
  end%N.

(** The textbook Merkle tree over a list of leaves padded with the zero
    leaf: the value of the node [index] of level [level]. *)
Fixpoint subtree (pedersen : list Fr -> Fr) (leaves : list Fr)
    (level index : nat) : Fr :=
  match level with
  | 0 => default MerkleTree.zeroValue (leaves !! index)
  | S l => pedersen [subtree pedersen leaves l (2 * index);
                     subtree pedersen leaves l (2 * index + 1)]
  end.

(** The tree [this] holds exactly the leaves [leaves], in order. *)
Definition holds (pedersen : list Fr -> Fr) (this : MerkleTree.t)
    (leaves : list Fr) : Prop :=
  Spec.wf pedersen this /\
  forall j, MerkleTree.storage this !! indexToKey 0 j = leaves !! j.

End Reference.

(** ** The generator's list of records

    What [deposit] keeps true of [this.deposits]: one record per leaf, the
    [k]-th carrying the index [k], a root and a full path; and the roots
    chained from [r0], the root before the first deposit, to the tree's
    current root. *)

Module Records.

Definition printable (record : DepositRecord.t) : Prop :=
  is_Some (DepositRecord.newRoot record) /\
  exists path, DepositRecord.hashPath record = map Some path.

Definition filed (r0 : option Fr) (this : NoirCircuitTomlGenerator.t) : Prop :=
  let deposits := NoirCircuitTomlGenerator.deposits this in
  let tree := NoirCircuitTomlGenerator.tree this in
  length deposits = MerkleTree.totalLeaves tree /\
  (forall k record, deposits !! k = Some record ->
     DepositRecord.index record = NoirCircuitTomlGenerator.numToFr k /\
     printable record) /\
  r0 :: map DepositRecord.newRoot deposits
  = map DepositRecord.oldRoot deposits ++ [MerkleTree.root tree].

(** The TOML of [gentoml('withdraw', index)] for a record. *)
Definition withdraw_toml (r index : Fr) (path : list Fr) (root id : Fr)
    : string :=
  String.concat NoirCircuitTomlGenerator.newline
    [ NoirCircuitTomlGenerator.toml_line "r" (Fr_toString r);
      NoirCircuitTomlGenerator.toml_line "index" (Fr_toString index);
      NoirCircuitTomlGenerator.toml_array "path" (map Fr_toString path);
      NoirCircuitTomlGenerator.toml_line "root" (Fr_toString root);
      NoirCircuitTomlGenerator.toml_line "id" (Fr_toString id) ].

End Records.

(** ** demo.ts

    [runExample()]: a new generator, [init], one [gentoml('deposit', id, r)]
    and the [gentoml('withdraw', 0)] for it.  [id] and [r] are drawn by
    [Fr.random()]; here they are arguments.  The two strings are what the
    script logs. *)

Module Demo.

(** The TOML of [gentoml('deposit', id, r)]. *)
Definition deposit_toml (id r : Fr) (oldPath : list Fr)
    (oldRoot newRoot commitment index : Fr) : string :=
  String.concat NoirCircuitTomlGenerator.newline
    [ NoirCircuitTomlGenerator.toml_line "id" (Fr_toString id);
      NoirCircuitTomlGenerator.toml_line "r" (Fr_toString r);
      NoirCircuitTomlGenerator.toml_array "oldPath" (map Fr_toString oldPath);
      NoirCircuitTomlGenerator.toml_line "oldRoot" (Fr_toString oldRoot);
      NoirCircuitTomlGenerator.toml_line "newRoot" (Fr_toString newRoot);
      NoirCircuitTomlGenerator.toml_line "commitment" (Fr_toString commitment);
      NoirCircuitTomlGenerator.toml_line "index" (Fr_toString index) ].

Definition runExample (pedersen : list Fr -> Fr) (id r : Fr)
    : result (string * string) :=
  let tomlGenerator := NoirCircuitTomlGenerator.new in
  fst ((NoirCircuitTomlGenerator.init pedersen;;
        depositToml ←
          NoirCircuitTomlGenerator.gentoml
            (NoirCircuitTomlGenerator.Deposit id r);
        withdrawToml ←
          NoirCircuitTomlGenerator.gentoml
            (NoirCircuitTomlGenerator.Withdraw 0);
        mret (depositToml, withdrawToml)) tomlGenerator).

End Demo.

(** ** One hasher

    The programs share one [BarretenbergSync] singleton: every [init] of a
    run hands the tree the same hasher. *)

Module Hasher.

Definition same (pedersen : list Fr -> Fr) (o : NoirCircuitTomlGenerator.op)
    : Prop :=
  match o with
  | NoirCircuitTomlGenerator.OpInit h => h = pedersen
  | _ => True
  end.

End Hasher.

(** What makes the [k]-th record a witness of the two circuits, given the
    commitments of all deposits so far: its commitment hashes its [id] and
    [r], its index is [k], its roots are the Merkle roots of the first [k]
    and the first [k + 1] commitments, and with its path it satisfies
    deposit.nr and withdraw.nr. *)

Module Witness.

Definition valid (pedersen : list Fr -> Fr) (commitments : list Fr) (k : nat)
    (record : DepositRecord.t) : Prop :=
  let oldRoot := Reference.subtree pedersen (take k commitments) 8 0 in
  let newRoot := Reference.subtree pedersen (take (S k) commitments) 8 0 in
  DepositRecord.commitment record
    = pedersen [DepositRecord.id record; DepositRecord.r record] /\
  DepositRecord.index record = NoirCircuitTomlGenerator.numToFr k /\
  DepositRecord.oldRoot record = Some oldRoot /\
  DepositRecord.newRoot record = Some newRoot /\
  exists path,
    DepositRecord.hashPath record = map Some path /\
    DepositCircuit.main pedersen (DepositRecord.id record)
      (DepositRecord.r record) path oldRoot newRoot
      (DepositRecord.commitment record) (DepositRecord.index record) = true /\
    WithdrawCircuit.main pedersen (DepositRecord.r record)
      (DepositRecord.index record) path newRoot (DepositRecord.id record)
    = true.

(** The generator's tree holds the records' commitments, and every record
    is a valid witness. *)
Definition tracked (pedersen : list Fr -> Fr)
    (this : NoirCircuitTomlGenerator.t) : Prop :=
  let commitments :=
    map DepositRecord.commitment (NoirCircuitTomlGenerator.deposits this) in
  Reference.holds pedersen (NoirCircuitTomlGenerator.tree this) commitments /\
  MerkleTree.levels (NoirCircuitTomlGenerator.tree this) = 8 /\
  forall k record,
    NoirCircuitTomlGenerator.deposits this !! k = Some record ->
    valid pedersen commitments k record.

End Witness.

(** ** scripts/separate-and-test.js

    [main()]: one [deposit] and then one [withdraw] sent to the deployed
    contract, the arguments being read from the files that the provers
    wrote.  A line of a [public_inputs] file is taken as the 32-byte value
    it spells; what the script logs is left out.  A transaction that
    reverts makes [tx.wait()] reject, which ends the script like a thrown
    error. *)

Module SeparateAndTest.
Import Sol.
Local Open Scope Z_scope.

Inductive failure : Type :=
  | Thrown (message : string)        (* [throw new Error(message)] *)
  | Reverted (why : revert_reason).  (* the transaction reverted *)

Record files : Type := mkFiles {
  depositProof : bytes;
  depositPublics : list bytes32;     (* the lines of [deposit_proof/public_inputs] *)
  withdrawProof : bytes;
  withdrawPublics : list bytes32     (* the lines of [withdraw_proof/public_inputs] *)
}.

Section World.
Variable verify : address -> bytes -> list bytes32 -> option bool.
Variable receive : address -> Z -> state -> bool.
Variable signer : address.

(** The result is the failure the script ended with, if any, and the state
    the contract is left in. *)
Definition main (WHIRLWIND_ADDRESS : option address) (f : files) (s : state)
    : option failure * state :=
  match WHIRLWIND_ADDRESS with
  | None => (Some (Thrown "WHIRLWIND_ADDRESS not set in .env"), s)
  | Some _ =>
      match depositPublics f with
      | [oldRoot; newRoot; commitment; index] =>
          match call (Whirlwind.deposit verify (mkMsg signer ether_0_1)
                        (depositProof f) newRoot commitment) s with
          | Revert why _ => (Some (Reverted why), s)
          | Success _ m1 =>
              match withdrawPublics f with
              | [root; nullifier] =>
                  match call (Whirlwind.withdraw verify receive (mkMsg signer 0)
                                (withdrawProof f) nullifier) (st m1) with
                  | Revert why _ => (Some (Reverted why), st m1)
                  | Success _ m2 => (None, st m2)
                  end
              | _ =>
                  (Some (Thrown
                     "Withdraw public_inputs file must have exactly 2 lines"),
                   st m1)
              end
          end
      | _ =>
          (Some (Thrown "Deposit public_inputs file must have exactly 4 lines"),
           s)
      end
  end.
End World.

End SeparateAndTest.

(** * Part II: the properties *)

Fixpoint no_dash (s : string) : Prop :=
  match s with
  | EmptyString => True
  | String c s' => c <> "-"%char /\ no_dash s'
  end.

Lemma pretty_N_go_no_dash x s : no_dash s -> no_dash (pretty_N_go x s).
Proof.
  revert s. induction (N.lt_wf_0 x) as [x _ IH]; intros s Hs.
  destruct (decide (x = 0)%N) as [->|Hx].
  - by rewrite pretty_N_go_0.
  - rewrite pretty_N_go_step by lia. apply IH.
    + apply N.div_lt; lia.
    + split; [|done]. unfold pretty_N_char. by repeat case_match.
Qed.

Lemma pretty_nat_no_dash (n : nat) : no_dash (pretty n).
Proof.
  unfold pretty, pretty_nat, pretty, pretty_N. case_decide.
  - simpl. split; [discriminate|done].
  - by apply pretty_N_go_no_dash.
Qed.

Lemma dash_split a a' b b' :
  no_dash a -> no_dash a' ->
  a +:+ String "-" b = a' +:+ String "-" b' -> a = a' /\ b = b'.
Proof.
  revert a'. induction a as [|c a IH]; intros [|c' a'] Ha Ha' Heq; simpl in *.
  - by inversion Heq.
  - inversion Heq; subst. by destruct Ha' as [[] _].
  - inversion Heq; subst. by destruct Ha as [[] _].
  - inversion Heq; subst. destruct Ha as [_ Ha], Ha' as [_ Ha'].
    destruct (IH a' Ha Ha') as [-> ->]; done.
Qed.

Lemma indexToKey_inj l i l' i' :
  indexToKey l i = indexToKey l' i' -> l = l' /\ i = i'.
Proof.
  unfold indexToKey. intros Heq.
  apply dash_split in Heq as [Hl Hi]; auto using pretty_nat_no_dash.
  split; by apply (inj pretty).
Qed.

Lemma indexToKey_ne l i l' i' :
  (l, i) <> (l', i') -> indexToKey l i <> indexToKey l' i'.
Proof. intros Hne Heq. apply indexToKey_inj in Heq as [-> ->]. done. Qed.

(** ** MerkleTree: the walk of [update] and of [proof] *)

Section TreeFacts.
Variable pedersen : list Fr -> Fr.

Lemma div_pow2_succ (k i : nat) : k / 2 ^ i / 2 = k / 2 ^ S i.
Proof.
  rewrite Nat.Div0.div_div. f_equal. rewrite Nat.pow_succ_r'. lia.
Qed.

Lemma div_pow2_small (k D : nat) : k < 2 ^ D -> k / 2 ^ D = 0.
Proof. intros. by apply Nat.div_small. Qed.

Lemma sibling_ne (c : nat) : Spec.sibling c <> c.
Proof.
  unfold Spec.sibling. case_decide; [lia|].
  assert (c mod 2 = 1) by (pose proof (Nat.mod_upper_bound c 2); lia).
  assert (c <> 0) by (intros ->; done). lia.
Qed.


(** The two children of a node are a node and its sibling. *)
Lemma children (c : nat) :
  (c mod 2 = 0 /\ 2 * (c / 2) = c /\ 2 * (c / 2) + 1 = Spec.sibling c) \/
  (c mod 2 = 1 /\ 2 * (c / 2) = Spec.sibling c /\ 2 * (c / 2) + 1 = c).
Proof.
  unfold Spec.sibling.
  pose proof (Nat.div_mod_eq c 2). pose proof (Nat.mod_upper_bound c 2).
  case_decide; [left|right]; lia.
Qed.


Lemma update_handleIndex_ok (this : MerkleTree.t)
    (siblingAt : nat -> nat -> option Fr) level c sib kv cur s :
  MerkleTree.bb this = Some pedersen ->
  siblingAt level sib = Some s ->
  MerkleTree.update_handleIndex this siblingAt level c sib (kv, cur)
  = Ok (kv ++ [(indexToKey level c, cur)],
        if decide (c mod 2 = 0) then pedersen [cur; s] else pedersen [s; cur]).
Proof.
  intros Hbb Hs. unfold MerkleTree.update_handleIndex, MerkleTree.pedersenHash.
  rewrite Hs, Hbb. by destruct (decide (c mod 2 = 0)).
Qed.

Lemma traverse_update (this : MerkleTree.t)
    (siblingAt : nat -> nat -> option Fr) (k : nat) (leaf : Fr) (n : nat) :
  MerkleTree.bb this = Some pedersen ->
  forall i kv,
  (forall l, i <= l < i + n -> is_Some (siblingAt l (Spec.sibling (k / 2 ^ l)))) ->
  MerkleTree.traverse_loop n i (k / 2 ^ i)
    (MerkleTree.update_handleIndex this siblingAt)
    (kv, Spec.path_value pedersen siblingAt k leaf i)
  = Ok (kv ++ map (fun l => (indexToKey l (k / 2 ^ l),
                             Spec.path_value pedersen siblingAt k leaf l))
                  (seq i n),
        Spec.path_value pedersen siblingAt k leaf (i + n)).
Proof.
  intros Hbb. induction n as [|n IH]; intros i kv Hsib.
  - simpl. by rewrite app_nil_r, Nat.add_0_r.
  - destruct (Hsib i ltac:(lia)) as [s Hs].
    cbn [MerkleTree.traverse_loop]. fold (Spec.sibling (k / 2 ^ i)).
    rewrite (update_handleIndex_ok _ _ _ _ _ _ _ s) by done.
    assert (Hstep : Spec.path_value pedersen siblingAt k leaf (S i) =
                    if decide (k / 2 ^ i mod 2 = 0)
                    then pedersen [Spec.path_value pedersen siblingAt k leaf i; s]
                    else pedersen [s; Spec.path_value pedersen siblingAt k leaf i]).
    { simpl. by rewrite Hs. }
    cbn [mbind result_bind rbind].
    rewrite div_pow2_succ, <- Hstep, IH by (intros; apply Hsib; lia).
    rewrite <- app_assoc. by replace (i + S n) with (S i + n) by lia.
Qed.

End TreeFacts.

Section TreeUpdate.
Variable pedersen : list Fr -> Fr.

Lemma commit_snoc kvs k v (m : gmap string Fr) :
  MerkleTree.commit (kvs ++ [(k, v)]) m = <[k := v]> (MerkleTree.commit kvs m).
Proof. unfold MerkleTree.commit. by rewrite foldl_app. Qed.

(** Committing the nodes of a path: one key per level. *)
Lemma commit_path_lookup (f : nat -> nat) (g : nat -> Fr) (m : gmap string Fr)
    (n l j : nat) :
  MerkleTree.commit (map (fun l => (indexToKey l (f l), g l)) (seq 0 n)) m
    !! indexToKey l j
  = if decide (l < n /\ j = f l) then Some (g l) else m !! indexToKey l j.
Proof.
  induction n as [|n IH].
  - destruct (decide (l < 0 /\ j = f l)); [lia|done].
  - rewrite seq_S, map_app. simpl. rewrite commit_snoc.
    destruct (decide ((n, f n) = (l, j))) as [[= -> ->]|Hne].
    + clear IH. rewrite lookup_insert_eq. case_decide; [done|lia].
    + rewrite lookup_insert_ne by by apply indexToKey_ne.
      rewrite IH. clear IH. repeat case_decide; try done; try lia.
      destruct (decide (l = n)) as [->|]; [|lia].
      exfalso. apply Hne. f_equal. lia.
Qed.

Lemma traverse_proof (this : MerkleTree.t) (k n : nat) :
  forall i pe pi,
  MerkleTree.traverse_loop n i (k / 2 ^ i) (MerkleTree.proof_handleIndex this)
    (pe, pi)
  = Ok (pe ++ map (fun l => MerkleTree.node this l (Spec.sibling (k / 2 ^ l)))
                  (seq i n),
        pi ++ map (fun l => (k / 2 ^ l) mod 2) (seq i n)).
Proof.
  induction n as [|n IH]; intros i pe pi.
  - simpl. by rewrite !app_nil_r.
  - cbn [MerkleTree.traverse_loop]. fold (Spec.sibling (k / 2 ^ i)).
    change (MerkleTree.proof_handleIndex this i (k / 2 ^ i)
              (Spec.sibling (k / 2 ^ i)) (pe, pi))
      with (Ok (pe ++ [MerkleTree.node this i (Spec.sibling (k / 2 ^ i))],
                pi ++ [(k / 2 ^ i) mod 2])).
    cbn [mbind result_bind rbind].
    rewrite div_pow2_succ, IH. by rewrite <- !app_assoc.
Qed.

(** [proof] never throws, and what it returns. *)
Lemma proof_eq (this : MerkleTree.t) (k : nat) :
  MerkleTree.proof this k =
  Ok (MerkleProof.mk (MerkleTree.root this)
        (map (fun l => MerkleTree.node this l (Spec.sibling (k / 2 ^ l)))
             (seq 0 (MerkleTree.levels this)))
        (map (fun l => (k / 2 ^ l) mod 2) (seq 0 (MerkleTree.levels this)))
        (MerkleTree.node this 0 k)).
Proof.
  unfold MerkleTree.proof, MerkleTree.traverse.
  pose proof (traverse_proof this k (MerkleTree.levels this) 0 [] []) as H.
  rewrite Nat.pow_0_r, Nat.div_1_r in H. rewrite H. done.
Qed.

Lemma node_is_Some (this : MerkleTree.t) (l j : nat) :
  is_Some (MerkleTree.zeros this !! l) -> is_Some (MerkleTree.node this l j).
Proof.
  intros [z Hz]. unfold MerkleTree.node, js_or. rewrite Hz.
  destruct (MerkleTree.storage this !! indexToKey l j); eauto.
Qed.

(** When its guard passes, [update] succeeds on a tree that is [ready], and
    it changes exactly the nodes on the path of [k] and the root key. *)
Lemma update_ok (this : MerkleTree.t) (k : nat) (leaf : Fr) (isInsert : bool) :
  MerkleTree.bb this = Some pedersen ->
  (forall l, l < MerkleTree.levels this ->
             is_Some (MerkleTree.zeros this !! l)) ->
  (if isInsert then MerkleTree.totalLeaves this <= k
   else k < MerkleTree.totalLeaves this) ->
  exists m',
    MerkleTree.update k leaf isInsert this
      = (Ok tt, MerkleTree.set_storage m' this) /\
    forall l j,
      m' !! indexToKey l j =
      let pv := Spec.path_value pedersen (MerkleTree.node this) k leaf in
      if decide (l = MerkleTree.levels this /\ j = 0)
      then Some (pv l)
      else if decide (l < MerkleTree.levels this /\ j = k / 2 ^ l)
           then Some (pv l)
           else MerkleTree.storage this !! indexToKey l j.
Proof.
  intros Hbb Hz Hguard.
  pose proof (traverse_update pedersen this (MerkleTree.node this) k leaf
                (MerkleTree.levels this) Hbb 0 []) as Htr.
  rewrite Nat.pow_0_r, Nat.div_1_r in Htr. simpl in Htr.
  eexists. split.
  - unfold MerkleTree.update, MerkleTree.traverse.
    rewrite Htr by (intros; apply node_is_Some, Hz; lia).
    destruct isInsert; simpl.
    + rewrite bool_decide_eq_false_2 by lia. done.
    + rewrite bool_decide_eq_false_2 by lia. done.
  - intros l j. cbv zeta. rewrite commit_snoc.
    destruct (decide (l = MerkleTree.levels this /\ j = 0)) as [[-> ->]|Hne].
    + by rewrite lookup_insert_eq.
    + rewrite lookup_insert_ne.
      2:{ apply indexToKey_ne. intros [= <- <-]. by apply Hne. }
      rewrite (commit_path_lookup (fun l => k / 2 ^ l)
                 (Spec.path_value pedersen (MerkleTree.node this) k leaf)).
      done.
Qed.

End TreeUpdate.

(** ** MerkleTree: trees built by [initialize] and [insert] *)

Section TreeInvariant.
Variable pedersen : list Fr -> Fr.

Lemma lookup_map_seq {A} (f : nat -> A) (n i l : nat) :
  l < n -> map f (seq i n) !! l = Some (f (i + l)).
Proof.
  revert i l. induction n as [|n IH]; intros i l Hl; [lia|].
  destruct l as [|l]; simpl.
  - by rewrite Nat.add_0_r.
  - rewrite IH by lia. f_equal. f_equal. lia.
Qed.

Lemma zero_root_succ (l : nat) :
  Spec.zero_root pedersen (S l)
  = pedersen [Spec.zero_root pedersen l; Spec.zero_root pedersen l].
Proof. done. Qed.

Lemma wf_ready (this : MerkleTree.t) :
  Spec.wf pedersen this -> Spec.ready this.
Proof.
  intros Hwf. split.
  - rewrite (Spec.wf_bb _ _ Hwf). eauto.
  - intros l Hl. rewrite (Spec.wf_zeros _ _ Hwf) by lia. eauto.
Qed.

(** Every node above the leaves is the hash of its two children, stored or
    defaulted. *)
Lemma wf_consistent (this : MerkleTree.t) :
  Spec.wf pedersen this ->
  forall l p, l < MerkleTree.levels this ->
  exists a b,
    MerkleTree.node this l (2 * p) = Some a /\
    MerkleTree.node this l (2 * p + 1) = Some b /\
    MerkleTree.node this (S l) p = Some (pedersen [a; b]).
Proof.
  intros Hwf l p Hl.
  destruct (MerkleTree.storage this !! indexToKey (S l) p) as [v|] eqn:Hv.
  - destruct (Spec.wf_hash _ _ Hwf l p v Hl Hv) as (a & b & Ha & Hb & ->).
    exists a, b. repeat split; try done.
    unfold MerkleTree.node. by rewrite Hv.
  - assert (Hnone : forall j, j / 2 = p ->
              MerkleTree.storage this !! indexToKey l j = None).
    { intros j Hj. apply eq_None_not_Some. intros Hs.
      apply (Spec.wf_up _ _ Hwf l j Hl) in Hs. rewrite Hj, Hv in Hs.
      by destruct Hs. }
    exists (Spec.zero_root pedersen l), (Spec.zero_root pedersen l).
    unfold MerkleTree.node. rewrite Hv, !Hnone; simpl.
    + rewrite !(Spec.wf_zeros _ _ Hwf) by lia. done.
    + symmetry. apply (Nat.div_unique _ 2 _ 1); lia.
    + symmetry. apply (Nat.div_unique _ 2 _ 0); lia.
Qed.

(** Folding a proof upwards visits the ancestors of the leaf. *)
Lemma recompute_nodes (this : MerkleTree.t) (k : nat) :
  Spec.wf pedersen this ->
  forall n i, i + n <= MerkleTree.levels this ->
  Spec.recompute_root pedersen (MerkleTree.node this i (k / 2 ^ i))
    (map (fun l => MerkleTree.node this l (Spec.sibling (k / 2 ^ l))) (seq i n))
    (map (fun l => (k / 2 ^ l) mod 2) (seq i n))
  = MerkleTree.node this (i + n) (k / 2 ^ (i + n)).
Proof.
  intros Hwf. induction n as [|n IH]; intros i Hin.
  - simpl. by rewrite Nat.add_0_r.
  - cbn [seq map Spec.recompute_root].
    destruct (wf_consistent this Hwf i (k / 2 ^ i / 2) ltac:(lia))
      as (a & b & Ha & Hb & Hp).
    replace (i + S n) with (S i + n) by lia.
    rewrite <- (IH (S i)) by lia. f_equal.
    rewrite <- div_pow2_succ, Hp.
    destruct (children (k / 2 ^ i)) as [(Hpar & H0 & H1)|(Hpar & H0 & H1)];
      rewrite H0 in Ha; rewrite H1 in Hb; rewrite Ha, Hb, Hpar; done.
Qed.

Lemma build_zeros_eq (n : nat) :
  forall (this : MerkleTree.t) (k : nat),
  MerkleTree.bb this = Some pedersen ->
  MerkleTree.zeros this = map (Spec.zero_root pedersen) (seq 0 (S k)) ->
  MerkleTree.build_zeros n (Spec.zero_root pedersen k) this
  = (Ok tt, MerkleTree.set_zeros
              (map (Spec.zero_root pedersen) (seq 0 (S (k + n)))) this).
Proof.
  induction n as [|n IH]; intros this k Hbb Hz.
  - rewrite Nat.add_0_r, <- Hz. by destruct this.
  - cbn [MerkleTree.build_zeros]. unfold mbind, M_bind, bind, get, lift, modify.
    unfold MerkleTree.pedersenHash at 1. rewrite Hbb.
    rewrite <- zero_root_succ.
    rewrite (IH _ (S k)).
    + replace (S k + n) with (k + S n) by lia. by destruct this.
    + done.
    + simpl MerkleTree.zeros. rewrite Hz.
      by rewrite (seq_S (S k)), map_app.
Qed.

Lemma initialize_eq (D : nat) (defaultLeaves : list Fr) :
  MerkleTree.initialize pedersen defaultLeaves (MerkleTree.new D)
  = MerkleTree.insertAll defaultLeaves (Spec.initial pedersen D).
Proof.
  unfold MerkleTree.initialize, mbind, M_bind, bind, modify, get.
  cbn [MerkleTree.new MerkleTree.set_bb MerkleTree.set_zeros MerkleTree.levels
       MerkleTree.storage MerkleTree.zeros MerkleTree.totalLeaves
       MerkleTree.bb app].
  change MerkleTree.zeroValue with (Spec.zero_root pedersen 0).
  rewrite (build_zeros_eq D _ 0) by done. done.
Qed.

Lemma initial_wf (D : nat) : Spec.wf pedersen (Spec.initial pedersen D).
Proof.
  split; unfold Spec.initial;
    cbn [MerkleTree.bb MerkleTree.zeros MerkleTree.levels MerkleTree.storage
         MerkleTree.totalLeaves].
  - done.
  - intros l Hl. by rewrite lookup_map_seq by lia.
  - lia.
  - intros j. rewrite lookup_empty. split; [by intros []|lia].
  - intros l j _. rewrite lookup_empty. by intros [].
  - intros l p v _. by rewrite lookup_empty.
Qed.

End TreeInvariant.

Section TreeInsert.
Variable pedersen : list Fr -> Fr.

Lemma insert_eq (leaf : Fr) (this : MerkleTree.t) :
  MerkleTree.insert leaf this =
  match MerkleTree.update (MerkleTree.totalLeaves this) leaf true this with
  | (Ok _, this') =>
      (Ok tt, MerkleTree.set_totalLeaves (MerkleTree.totalLeaves this' + 1) this')
  | (Throw e, this') => (Throw e, this')
  end.
Proof.
  unfold MerkleTree.insert, mbind, M_bind, bind, get, modify.
  by destruct (MerkleTree.update _ _ _ _) as [[[]|e] this'].
Qed.

Lemma update_in_range (this : MerkleTree.t) (k : nat) (leaf : Fr)
    (isInsert : bool) :
  MerkleTree.bb this = Some pedersen ->
  (forall l, l < MerkleTree.levels this ->
             is_Some (MerkleTree.zeros this !! l)) ->
  (if isInsert then MerkleTree.totalLeaves this <= k
   else k < MerkleTree.totalLeaves this) ->
  k < 2 ^ MerkleTree.levels this ->
  exists m',
    MerkleTree.update k leaf isInsert this
      = (Ok tt, MerkleTree.set_storage m' this) /\
    forall l j,
      m' !! indexToKey l j =
      if decide (l <= MerkleTree.levels this /\ j = k / 2 ^ l)
      then Some (Spec.path_value pedersen (MerkleTree.node this) k leaf l)
      else MerkleTree.storage this !! indexToKey l j.
Proof.
  intros Hbb Hz Hguard Hk.
  destruct (update_ok pedersen this k leaf isInsert Hbb Hz Hguard)
    as (m' & Hupd & Hlook).
  exists m'. split; [done|]. intros l j. rewrite Hlook. cbv zeta.
  pose proof (div_pow2_small k _ Hk) as H0.
  destruct (decide (l <= MerkleTree.levels this /\ j = k / 2 ^ l))
    as [[Hl ->]|Hn].
  - destruct (decide (l = MerkleTree.levels this)) as [->|Hne].
    + rewrite H0. by rewrite decide_True by done.
    + rewrite decide_False by (intros [? _]; done).
      by rewrite decide_True by (split; [lia|done]).
  - rewrite decide_False.
    2:{ intros [-> ->]. apply Hn. split; [lia|by rewrite H0]. }
    rewrite decide_False; [done|].
    intros [? ->]. apply Hn. split; [lia|done].
Qed.

(** Below capacity, [insert] succeeds and keeps the tree well formed. *)
Lemma insert_wf (this : MerkleTree.t) (leaf : Fr) :
  Spec.wf pedersen this ->
  MerkleTree.totalLeaves this < 2 ^ MerkleTree.levels this ->
  exists this',
    MerkleTree.insert leaf this = (Ok tt, this') /\
    Spec.wf pedersen this' /\
    MerkleTree.levels this' = MerkleTree.levels this /\
    MerkleTree.totalLeaves this' = S (MerkleTree.totalLeaves this) /\
    MerkleTree.storage this' !! indexToKey 0 (MerkleTree.totalLeaves this)
      = Some leaf /\
    forall j, j <> MerkleTree.totalLeaves this ->
      MerkleTree.storage this' !! indexToKey 0 j
      = MerkleTree.storage this !! indexToKey 0 j.
Proof.
  intros Hwf Hcap.
  set (k := MerkleTree.totalLeaves this) in *.
  set (D := MerkleTree.levels this) in *.
  assert (Hz : forall l, l < MerkleTree.levels this ->
                         is_Some (MerkleTree.zeros this !! l)).
  { intros l Hl. apply (wf_ready pedersen this Hwf). lia. }
  assert (Hguard : MerkleTree.totalLeaves this <= k) by (unfold k; lia).
  destruct (update_in_range this k leaf true (Spec.wf_bb _ _ Hwf) Hz
              Hguard Hcap) as (m' & Hupd & Hlook).
  fold D in Hlook.
  set (pv := Spec.path_value pedersen (MerkleTree.node this) k leaf) in *.
  eexists. split; [by rewrite insert_eq; fold k; rewrite Hupd|].
  unfold MerkleTree.set_totalLeaves, MerkleTree.set_storage.
  cbn [MerkleTree.set_storage MerkleTree.set_totalLeaves MerkleTree.levels
       MerkleTree.storage MerkleTree.zeros MerkleTree.totalLeaves
       MerkleTree.bb].
  assert (Hnode : forall l j,
    MerkleTree.node (MerkleTree.mk D m' (MerkleTree.zeros this) (k + 1)
                       (MerkleTree.bb this)) l j
    = if decide (l <= D /\ j = k / 2 ^ l) then Some (pv l)
      else MerkleTree.node this l j).
  { intros l j. unfold MerkleTree.node. cbn [MerkleTree.storage MerkleTree.zeros].
    rewrite Hlook. by case_decide. }
  split; [|repeat split].
  - split; cbn [MerkleTree.levels MerkleTree.storage MerkleTree.zeros
                MerkleTree.totalLeaves MerkleTree.bb].
    + apply Hwf.
    + apply Hwf.
    + unfold k, D in *. lia.
    + intros j. rewrite Hlook, Nat.pow_0_r, Nat.div_1_r.
      pose proof (Spec.wf_leaves _ _ Hwf j) as Hj. fold k in Hj.
      case_decide as Hc.
      * destruct Hc as [_ ->]. split; [lia|eauto].
      * rewrite Hj. split; [lia|]. intros ?.
        destruct (decide (j = k)) as [->|]; [|lia].
        exfalso. apply Hc. split; [lia|done].
    + intros l j Hl. rewrite !Hlook.
      destruct (decide (S l <= D /\ j / 2 = k / 2 ^ S l)) as [|Hp]; [eauto|].
      destruct (decide (l <= D /\ j = k / 2 ^ l)) as [[_ ->]|Hc].
      * exfalso. apply Hp. split; [unfold D; lia|by rewrite div_pow2_succ].
      * by apply (Spec.wf_up _ _ Hwf).
    + intros l p v Hl. rewrite Hlook.
      pose proof (children (k / 2 ^ l)) as Hch.
      pose proof (div_pow2_succ k l) as Hdiv.
      destruct (node_is_Some this l (Spec.sibling (k / 2 ^ l)) (Hz l Hl))
        as [s Hs].
      destruct (decide (S l <= D /\ p = k / 2 ^ S l)) as [[_ ->]|Hp].
      * intros [= <-].
        assert (Hpv : pv (S l) =
                      if decide (k / 2 ^ l mod 2 = 0)
                      then pedersen [pv l; s] else pedersen [s; pv l]).
        { unfold pv. simpl. by rewrite Hs. }
        rewrite Hpv, <- Hdiv.
        pose proof (sibling_ne (k / 2 ^ l)) as Hne.
        assert (Hon : MerkleTree.node
                        (MerkleTree.mk D m' (MerkleTree.zeros this) (k + 1)
                           (MerkleTree.bb this)) l (k / 2 ^ l) = Some (pv l)).
        { rewrite Hnode. by rewrite decide_True by (split; [unfold D; lia|done]). }
        assert (Hoff : MerkleTree.node
                        (MerkleTree.mk D m' (MerkleTree.zeros this) (k + 1)
                           (MerkleTree.bb this)) l (Spec.sibling (k / 2 ^ l))
                       = Some s).
        { rewrite Hnode. by rewrite decide_False by (intros [_ ?]; done). }
        destruct Hch as [(Hpar & H0 & H1)|(Hpar & H0 & H1)];
          rewrite H1, H0.
        -- exists (pv l), s. by rewrite decide_True by done.
        -- exists s, (pv l). by rewrite decide_False by lia.
      * intros Hv.
        destruct (Spec.wf_hash _ _ Hwf l p v Hl Hv) as (a & b & Ha & Hb & ->).
        exists a, b.
        assert (Hpne : p <> k / 2 ^ l / 2).
        { intros ->. apply Hp. split; [unfold D; lia|done]. }
        rewrite !Hnode, !decide_False; [done|..];
          intros [_ He]; apply Hpne; rewrite <- He;
          first [ apply (Nat.div_unique _ 2 _ 1); lia
                | apply (Nat.div_unique _ 2 _ 0); lia ].
  - unfold k. lia.
  - rewrite Hlook, Nat.pow_0_r, Nat.div_1_r.
    by rewrite decide_True by (split; [lia|done]).
  - intros j Hj. rewrite Hlook, Nat.pow_0_r, Nat.div_1_r.
    by rewrite decide_False by (intros [_ ?]; done).
Qed.

Lemma insertAll_wf (leaves : list Fr) :
  forall this : MerkleTree.t,
  Spec.wf pedersen this ->
  MerkleTree.totalLeaves this + length leaves <= 2 ^ MerkleTree.levels this ->
  exists this',
    MerkleTree.insertAll leaves this = (Ok tt, this') /\
    Spec.wf pedersen this' /\
    MerkleTree.levels this' = MerkleTree.levels this /\
    MerkleTree.totalLeaves this'
      = MerkleTree.totalLeaves this + length leaves /\
    (forall j x, leaves !! j = Some x ->
       MerkleTree.storage this' !! indexToKey 0 (MerkleTree.totalLeaves this + j)
       = Some x) /\
    (forall j, j < MerkleTree.totalLeaves this ->
       MerkleTree.storage this' !! indexToKey 0 j
       = MerkleTree.storage this !! indexToKey 0 j).
Proof.
  induction leaves as [|leaf rest IH]; intros this Hwf Hcap.
  - exists this. do 3 (split; [done|]). split; [simpl; lia|].
    split; [|done]. intros j x Hx. by rewrite lookup_nil in Hx.
  - simpl in Hcap.
    destruct (insert_wf this leaf Hwf ltac:(lia))
      as (t1 & Hins & Hwf1 & Hlev1 & Htl1 & Hleaf & Hother).
    destruct (IH t1 Hwf1 ltac:(rewrite Hlev1, Htl1; lia))
      as (t2 & Hall & Hwf2 & Hlev2 & Htl2 & Hnew & Hold).
    exists t2. split_and!.
    + cbn [MerkleTree.insertAll]. unfold mbind, M_bind, bind.
      by rewrite Hins.
    + done.
    + congruence.
    + rewrite Htl2, Htl1. simpl. lia.
    + intros [|j] x Hx; simpl in Hx.
      * injection Hx as <-. rewrite Nat.add_0_r, Hold by lia. done.
      * rewrite <- (Hnew j x Hx). f_equal. f_equal. lia.
    + intros j Hj. rewrite Hold by lia. apply Hother. lia.
Qed.

End TreeInsert.

(** ** MerkleTree: the properties of the specification *)

Section TreeTheorems.
Variable pedersen : list Fr -> Fr.

(** C8 (empty-tree determinism).  After [initialize([])] on a new tree of
    depth [D], which succeeds, [root()] is the zero-leaf constant hashed
    with itself pairwise [D] times.  [root] is a function of the tree: it
    changes nothing and cannot throw. *)
Theorem empty_tree_root (D : nat) :
  exists this,
    MerkleTree.initialize pedersen [] (MerkleTree.new D) = (Ok tt, this) /\
    MerkleTree.totalLeaves this = 0 /\
    MerkleTree.root this
    = Some (Nat.iter D (fun z => pedersen [z; z]) MerkleTree.zeroValue).
Proof.
  exists (Spec.initial pedersen D). split; [by rewrite initialize_eq|].
  split; [done|].
  unfold MerkleTree.root, Spec.initial.
  cbn [MerkleTree.storage MerkleTree.zeros MerkleTree.levels].
  rewrite lookup_empty. cbn [js_or].
  by rewrite lookup_map_seq by lia.
Qed.

(** C6 (path/root consistency).  Build a tree of depth [D] by
    [initialize(defaultLeaves)] followed by further [insert] calls, [N]
    insertions in all with [N <= 2^D].  The construction succeeds, the
    leaves sit at the indices [0 .. N-1] in call order, and for every
    [i < N] the proof of [i] carries the [i]-th leaf and folds to the
    tree's root. *)
Theorem path_root_consistency (D : nat) (defaultLeaves leaves : list Fr)
    (i : nat) :
  length defaultLeaves + length leaves <= 2 ^ D ->
  i < length defaultLeaves + length leaves ->
  exists this p,
    (MerkleTree.initialize pedersen defaultLeaves;;
     MerkleTree.insertAll leaves) (MerkleTree.new D) = (Ok tt, this) /\
    MerkleTree.totalLeaves this = length defaultLeaves + length leaves /\
    MerkleTree.proof this i = Ok p /\
    MerkleProof.leaf p = (defaultLeaves ++ leaves) !! i /\
    MerkleProof.root p = MerkleTree.root this /\
    length (MerkleProof.pathElements p) = D /\
    length (MerkleProof.pathIndices p) = D /\
    is_Some (MerkleTree.root this) /\
    Spec.recompute_root pedersen (MerkleProof.leaf p)
      (MerkleProof.pathElements p) (MerkleProof.pathIndices p)
    = MerkleTree.root this.
Proof.
  intros HN Hi.
  pose proof (initial_wf pedersen D) as Hwf0.
  destruct (insertAll_wf pedersen defaultLeaves _ Hwf0 ltac:(simpl; lia))
    as (t1 & Hall1 & Hwf1 & Hlev1 & Htl1 & Hnew1 & _).
  destruct (insertAll_wf pedersen leaves t1 Hwf1
              ltac:(rewrite Hlev1, Htl1; simpl; lia))
    as (t2 & Hall2 & Hwf2 & Hlev2 & Htl2 & Hnew2 & Hold2).
  simpl in Hlev1, Htl1, Hnew1. rewrite Hlev1 in Hlev2. rewrite Htl1 in *.
  assert (Hroot : MerkleTree.root t2
                  = MerkleTree.node t2 D (i / 2 ^ D)).
  { rewrite div_pow2_small by lia. unfold MerkleTree.root, MerkleTree.node.
    by rewrite Hlev2. }
  assert (Hleaf : MerkleTree.node t2 0 i = (defaultLeaves ++ leaves) !! i).
  { unfold MerkleTree.node.
    destruct (decide (i < length defaultLeaves)) as [Hlt|Hge].
    - rewrite Hold2 by lia. rewrite lookup_app_l by lia.
      destruct (lookup_lt_is_Some_2 defaultLeaves i Hlt) as [x Hx].
      by rewrite (Hnew1 i x Hx), Hx.
    - rewrite lookup_app_r by lia.
      destruct (lookup_lt_is_Some_2 leaves (i - length defaultLeaves)
                  ltac:(lia)) as [x Hx].
      pose proof (Hnew2 _ x Hx) as Hst.
      replace (length defaultLeaves + (i - length defaultLeaves))
        with i in Hst by lia.
      by rewrite Hst, Hx. }
  exists t2, (MerkleProof.mk (MerkleTree.root t2)
    (map (fun l => MerkleTree.node t2 l (Spec.sibling (i / 2 ^ l))) (seq 0 D))
    (map (fun l => (i / 2 ^ l) mod 2) (seq 0 D))
    (MerkleTree.node t2 0 i)).
  cbn [MerkleProof.leaf MerkleProof.root MerkleProof.pathElements
       MerkleProof.pathIndices].
  split_and!.
  - unfold mbind, M_bind, bind. by rewrite initialize_eq, Hall1.
  - lia.
  - by rewrite proof_eq, Hlev2.
  - done.
  - done.
  - by rewrite length_map, length_seq.
  - by rewrite length_map, length_seq.
  - unfold MerkleTree.root. rewrite (Spec.wf_zeros _ _ Hwf2) by lia.
    destruct (MerkleTree.storage t2 !! _); simpl; eauto.
  - pose proof (recompute_nodes pedersen t2 i Hwf2 D 0 ltac:(lia)) as Hrec.
    rewrite Nat.pow_0_r, Nat.div_1_r in Hrec. by rewrite Hrec, Hroot.
Qed.

End TreeTheorems.

Lemma path_root_consistency_witness :
  exists this p,
    (MerkleTree.initialize Spec.demo_hash [1; 2]%N;;
     MerkleTree.insertAll [3]%N) (MerkleTree.new 2) = (Ok tt, this) /\
    MerkleTree.totalLeaves this = 2 + 1 /\
    MerkleTree.proof this 1 = Ok p /\
    MerkleProof.leaf p = ([1; 2] ++ [3])%N !! 1 /\
    MerkleProof.root p = MerkleTree.root this /\
    length (MerkleProof.pathElements p) = 2 /\
    length (MerkleProof.pathIndices p) = 2 /\
    is_Some (MerkleTree.root this) /\
    Spec.recompute_root Spec.demo_hash (MerkleProof.leaf p)
      (MerkleProof.pathElements p) (MerkleProof.pathIndices p)
    = MerkleTree.root this.
Proof.
  apply (path_root_consistency Spec.demo_hash 2 [1; 2]%N [3]%N 1); simpl; lia.
Defined.

(** ** The circuits' walk and the tree's walk *)

Section Walks.
Variable pedersen : list Fr -> Fr.

Lemma testbit_of_nat (k i : nat) :
  N.testbit (N.of_nat k) (N.of_nat i) = bool_decide ((k / 2 ^ i) mod 2 = 1).
Proof.
  assert (Hconv : ((N.of_nat k / 2 ^ N.of_nat i) mod 2)%N
                  = N.of_nat ((k / 2 ^ i) mod 2)).
  { change 2%N with (N.of_nat 2).
    by rewrite <- Nnat.Nat2N.inj_pow, <- Nnat.Nat2N.inj_div,
               <- Nnat.Nat2N.inj_mod. }
  destruct (N.testbit _ _) eqn:E.
  - apply N.testbit_true in E. rewrite Hconv in E.
    rewrite bool_decide_eq_true_2; [done|]. lia.
  - apply N.testbit_false in E. rewrite Hconv in E.
    rewrite bool_decide_eq_false_2; [done|]. lia.
Qed.

Lemma to_le_bits_of_nat (D k : nat) :
  k < 2 ^ D ->
  Noir.to_le_bits D (N.of_nat k)
  = Some (map (fun i => bool_decide ((k / 2 ^ i) mod 2 = 1)) (seq 0 D)).
Proof.
  intros Hk. unfold Noir.to_le_bits. rewrite decide_True.
  2:{ change 2%N with (N.of_nat 2). rewrite <- Nnat.Nat2N.inj_pow. lia. }
  f_equal. apply map_ext. intros i. apply testbit_of_nat.
Qed.

Lemma nth_map_seq {A} (f : nat -> A) (d : A) (n i : nat) :
  i < n -> nth i (map f (seq 0 n)) d = f i.
Proof.
  intros Hi. rewrite (nth_indep _ d (f 0)) by (by rewrite length_map, length_seq).
  rewrite (map_nth f (seq 0 n) 0 i), seq_nth by done. done.
Qed.

(** The circuit's loop, bit by bit, computes the values that the tree's
    loop computes, parity by parity. *)
Lemma walk_loop_path_value (D k : nat) (path : list Fr) (leaf : Fr) :
  length path = D ->
  forall n i, i + n <= D ->
  Noir.walk_loop pedersen n i
    (map (fun i => bool_decide ((k / 2 ^ i) mod 2 = 1)) (seq 0 D)) path
    (Spec.path_value pedersen (fun level _ => path !! level) k leaf i)
  = Spec.path_value pedersen (fun level _ => path !! level) k leaf (i + n).
Proof.
  intros Hlen. induction n as [|n IH]; intros i Hin.
  - by rewrite Nat.add_0_r.
  - cbn [Noir.walk_loop]. rewrite nth_map_seq by lia.
    replace (i + S n) with (S i + n) by lia. rewrite <- IH by lia.
    f_equal. cbn [Spec.path_value].
    destruct (lookup_lt_is_Some_2 path i ltac:(lia)) as [s Hs].
    rewrite Hs. cbn [default].
    rewrite (nth_lookup_Some _ _ _ _ Hs).
    pose proof (Nat.mod_upper_bound (k / 2 ^ i) 2).
    destruct (decide ((k / 2 ^ i) mod 2 = 0)) as [Hev|Hodd].
    + by rewrite bool_decide_eq_false_2 by lia.
    + by rewrite bool_decide_eq_true_2 by lia.
Qed.


End Walks.


(** ** MerkleTree: the guards of [update] and the capacity of the tree *)

Section TreeGuards.
Variable pedersen : list Fr -> Fr.

(** [update] stores nodes and nothing else. *)
Lemma update_frame (index : nat) (leaf : Fr) (isInsert : bool)
    (this : MerkleTree.t) :
  let this' := (MerkleTree.update index leaf isInsert this).2 in
  MerkleTree.totalLeaves this' = MerkleTree.totalLeaves this /\
  MerkleTree.levels this' = MerkleTree.levels this /\
  MerkleTree.zeros this' = MerkleTree.zeros this /\
  MerkleTree.bb this' = MerkleTree.bb this.
Proof.
  unfold MerkleTree.update.
  destruct (negb isInsert && _); [done|].
  destruct (isInsert && _); [done|].
  by destruct (MerkleTree.traverse _ _ _ _) as [[kv cur]|e].
Qed.

(** Inside [update], only the hasher can throw. *)
Lemma update_handleIndex_throws (this : MerkleTree.t) siblingAt level c sib l e :
  MerkleTree.update_handleIndex this siblingAt level c sib l = Throw e ->
  e = TypeError.
Proof.
  destruct l as [kv cur].
  unfold MerkleTree.update_handleIndex, MerkleTree.pedersenHash.
  destruct (decide (c mod 2 = 0)), (MerkleTree.bb this),
    (siblingAt level sib); simpl; congruence.
Qed.

Lemma traverse_update_throws (this : MerkleTree.t) siblingAt (n : nat) :
  forall i c l e,
  MerkleTree.traverse_loop n i c
    (MerkleTree.update_handleIndex this siblingAt) l = Throw e ->
  e = TypeError.
Proof.
  induction n as [|n IH]; intros i c l e; [done|].
  cbn [MerkleTree.traverse_loop].
  destruct (MerkleTree.update_handleIndex this siblingAt i c _ l) as [l'|e']
    eqn:E; cbn [mbind result_bind rbind].
  - apply IH.
  - intros [= <-]. by apply update_handleIndex_throws in E.
Qed.

(** A tree that is [ready] accepts every [insert]: there is no check of the
    capacity. *)
Lemma insert_ready (this : MerkleTree.t) (leaf : Fr) :
  Spec.ready this ->
  exists this',
    MerkleTree.insert leaf this = (Ok tt, this') /\
    Spec.ready this' /\
    MerkleTree.levels this' = MerkleTree.levels this /\
    MerkleTree.totalLeaves this' = MerkleTree.totalLeaves this + 1.
Proof.
  intros [[h Hbb] Hz].
  assert (Hz' : forall l, l < MerkleTree.levels this ->
                          is_Some (MerkleTree.zeros this !! l)).
  { intros l Hl. apply Hz. lia. }
  destruct (update_ok h this (MerkleTree.totalLeaves this) leaf true Hbb Hz'
              (Nat.le_refl _)) as (m' & Hupd & _).
  eexists. split; [by rewrite insert_eq, Hupd|].
  split; [|done]. split; [by exists h|done].
Qed.

(** C5, as the code has it.  The guards of [update] compare the index with
    [totalLeaves]: insert mode rejects exactly the indices below it,
    non-insert mode exactly the indices at or beyond it, and a rejected
    call leaves the tree as it was; a call that gets past its guard can only
    fail inside the hasher.  [update] never moves [totalLeaves]; [insert]
    does, so once [insert] has assigned an index, an insert-mode [update]
    at that index is rejected. *)
Theorem update_guards (this : MerkleTree.t) (index : nat) (leaf leaf' : Fr)
    (isInsert : bool) :
  (if (if isInsert then bool_decide (index < MerkleTree.totalLeaves this)
       else bool_decide (MerkleTree.totalLeaves this <= index))
   then MerkleTree.update index leaf isInsert this
        = (Throw (Error (if isInsert
                         then "Use update method for existing elements."
                         else "Use insert method for new elements.")), this)
   else forall e, (MerkleTree.update index leaf isInsert this).1 = Throw e ->
                  e = TypeError) /\
  MerkleTree.totalLeaves (MerkleTree.update index leaf isInsert this).2
    = MerkleTree.totalLeaves this /\
  match MerkleTree.insert leaf this with
  | (Ok _, this') =>
      MerkleTree.update (MerkleTree.totalLeaves this) leaf' true this'
      = (Throw (Error "Use update method for existing elements."), this')
  | (Throw _, _) => True
  end.
Proof.
  split_and!.
  - unfold MerkleTree.update. destruct isInsert; simpl.
    + case_bool_decide; [done|]. intros e.
      destruct (MerkleTree.traverse _ _ _ _) as [[kv cur]|e'] eqn:E; [done|].
      intros [= <-]. by apply traverse_update_throws in E.
    + case_bool_decide; [done|]. intros e.
      destruct (MerkleTree.traverse _ _ _ _) as [[kv cur]|e'] eqn:E; [done|].
      intros [= <-]. by apply traverse_update_throws in E.
  - apply update_frame.
  - rewrite insert_eq.
    pose proof (update_frame (MerkleTree.totalLeaves this) leaf true this)
      as (Htl & _).
    destruct (MerkleTree.update _ leaf true this) as [[[]|e] this'] eqn:E;
      [|done].
    simpl in Htl. unfold MerkleTree.update at 1. simpl.
    rewrite bool_decide_eq_true_2; [done|]. rewrite Htl. lia.
Qed.

End TreeGuards.

(** C5, as stated, fails: two insert-mode calls of [update] for index 0 on an
    empty tree of depth 1 both succeed, although the first one has stored a
    leaf at index 0. *)
Lemma update_twice_in_insert_mode :
  (MerkleTree.update 0 7%N true Spec.empty_tree).1 = Ok tt /\
  MerkleTree.storage (MerkleTree.update 0 7%N true Spec.empty_tree).2
    !! indexToKey 0 0 = Some 7%N /\
  (MerkleTree.update 0 7%N true
     (MerkleTree.update 0 7%N true Spec.empty_tree).2).1 = Ok tt.
Proof. split_and!; vm_compute; reflexivity. Qed.

(** C4: the code at the capacity boundary.  A tree of depth 1 holding its
    [2^1] leaves accepts a third [insert]: the leaf is assigned index 2,
    outside [0, 2^1), and the root is overwritten with the hash of that leaf
    and the zero leaf -- a value that no longer depends on the two leaves
    inserted before. *)
Theorem insert_beyond_capacity :
  MerkleTree.totalLeaves Spec.full_tree = 2 ^ MerkleTree.levels Spec.full_tree /\
  MerkleTree.root Spec.full_tree = Some (Spec.demo_hash [1; 2]%N) /\
  (MerkleTree.insert 3%N Spec.full_tree).1 = Ok tt /\
  MerkleTree.totalLeaves (MerkleTree.insert 3%N Spec.full_tree).2 = 3 /\
  MerkleTree.storage (MerkleTree.insert 3%N Spec.full_tree).2 !! indexToKey 0 2
    = Some 3%N /\
  MerkleTree.root (MerkleTree.insert 3%N Spec.full_tree).2
    = Some (Spec.demo_hash [3%N; MerkleTree.zeroValue]).
Proof. split_and!; vm_compute; reflexivity. Qed.

(** ** The generator *)

Section Generator.

Lemma build_zeros_frame (n : nat) :
  forall (z : Fr) (this : MerkleTree.t),
  let this' := (MerkleTree.build_zeros n z this).2 in
  MerkleTree.totalLeaves this' = MerkleTree.totalLeaves this /\
  MerkleTree.levels this' = MerkleTree.levels this /\
  MerkleTree.bb this' = MerkleTree.bb this /\
  exists zs, MerkleTree.zeros this' = MerkleTree.zeros this ++ zs.
Proof.
  induction n as [|n IH]; intros z this; cbn zeta.
  - split_and!; try done. exists []. by rewrite app_nil_r.
  - cbn [MerkleTree.build_zeros]. unfold mbind, M_bind, bind, get, lift, modify.
    destruct (MerkleTree.pedersenHash this (Some z) (Some z)) as [z'|e].
    + destruct (IH z' (MerkleTree.set_zeros (MerkleTree.zeros this ++ [z']) this))
        as (Htl & Hlev & Hbb & zs & Hzs).
      split_and!; try done. exists (z' :: zs).
      rewrite Hzs. simpl. by rewrite <- app_assoc.
    + split_and!; try done. exists []. by rewrite app_nil_r.
Qed.

Lemma initialize_frame (pedersen : list Fr -> Fr) (this : MerkleTree.t) :
  let this' := (MerkleTree.initialize pedersen [] this).2 in
  MerkleTree.totalLeaves this' = MerkleTree.totalLeaves this /\
  MerkleTree.levels this' = MerkleTree.levels this /\
  MerkleTree.bb this' = Some pedersen /\
  exists zs, MerkleTree.zeros this' = MerkleTree.zeros this ++ zs.
Proof.
  cbn zeta. unfold MerkleTree.initialize, mbind, M_bind, bind, modify, get.
  set (t1 := MerkleTree.set_zeros _ _).
  destruct (build_zeros_frame (MerkleTree.levels t1) MerkleTree.zeroValue t1)
    as (Htl & Hlev & Hbb & zs & Hzs).
  destruct (MerkleTree.build_zeros _ _ t1) as [[[]|e] t2]; simpl in *;
    (split_and!; try done; exists (MerkleTree.zeroValue :: zs);
     rewrite Hzs; simpl; by rewrite <- app_assoc).
Qed.

Lemma insert_count (leaf : Fr) (this : MerkleTree.t) :
  MerkleTree.totalLeaves (MerkleTree.insert leaf this).2
  = match (MerkleTree.insert leaf this).1 with
    | Ok _ => MerkleTree.totalLeaves this + 1
    | Throw _ => MerkleTree.totalLeaves this
    end.
Proof.
  rewrite insert_eq.
  pose proof (update_frame (MerkleTree.totalLeaves this) leaf true this)
    as (Htl & _).
  destruct (MerkleTree.update _ leaf true this) as [[[]|e] this']; simpl in *;
    by rewrite Htl.
Qed.

(** [gentoml('deposit', id, r)] changes the generator exactly as
    [deposit(id, r)] does. *)
Lemma gentoml_deposit_state (id r : Fr) (this : NoirCircuitTomlGenerator.t) :
  (NoirCircuitTomlGenerator.gentoml (NoirCircuitTomlGenerator.Deposit id r) this).2
  = (NoirCircuitTomlGenerator.deposit id r this).2.
Proof.
  unfold NoirCircuitTomlGenerator.gentoml, NoirCircuitTomlGenerator.deposit.
  destruct (MerkleTree.proof _ _) as [p|e]; [|done].
  destruct (MerkleTree.bb _) as [h|]; [|done].
  by destruct (MerkleTree.insert _ _) as [[[]|e] tree'].
Qed.

Lemma deposit_count (id r : Fr) (this : NoirCircuitTomlGenerator.t) :
  let this' := (NoirCircuitTomlGenerator.deposit id r this).2 in
  length (NoirCircuitTomlGenerator.deposits this) =
    MerkleTree.totalLeaves (NoirCircuitTomlGenerator.tree this) ->
  length (NoirCircuitTomlGenerator.deposits this') =
    MerkleTree.totalLeaves (NoirCircuitTomlGenerator.tree this').
Proof.
  cbn zeta. intros Hinv. unfold NoirCircuitTomlGenerator.deposit.
  destruct (MerkleTree.proof _ _) as [p|e]; [|done].
  destruct (MerkleTree.bb _) as [h|]; [|done].
  pose proof (insert_count (h [id; r]) (NoirCircuitTomlGenerator.tree this))
    as Hc.
  destruct (MerkleTree.insert _ _) as [[[]|e] tree']; simpl in *.
  - rewrite length_app. simpl. lia.
  - lia.
Qed.

Lemma step_count (o : NoirCircuitTomlGenerator.op)
    (this : NoirCircuitTomlGenerator.t) :
  length (NoirCircuitTomlGenerator.deposits this) =
    MerkleTree.totalLeaves (NoirCircuitTomlGenerator.tree this) ->
  length (NoirCircuitTomlGenerator.deposits (NoirCircuitTomlGenerator.step o this)) =
    MerkleTree.totalLeaves
      (NoirCircuitTomlGenerator.tree (NoirCircuitTomlGenerator.step o this)).
Proof.
  intros Hinv. destruct o as [pedersen|id r|[id r|index|other]];
    cbn [NoirCircuitTomlGenerator.step].
  - unfold NoirCircuitTomlGenerator.init.
    destruct (initialize_frame pedersen (NoirCircuitTomlGenerator.tree this))
      as (Htl & _).
    destruct (MerkleTree.initialize _ _ _) as [res tree']. simpl in *. lia.
  - by apply deposit_count.
  - rewrite gentoml_deposit_state. by apply deposit_count.
  - unfold NoirCircuitTomlGenerator.gentoml.
    by destruct (find _ _).
  - done.
Qed.

Lemma run_count (ops : list NoirCircuitTomlGenerator.op) :
  forall this : NoirCircuitTomlGenerator.t,
  length (NoirCircuitTomlGenerator.deposits this) =
    MerkleTree.totalLeaves (NoirCircuitTomlGenerator.tree this) ->
  length (NoirCircuitTomlGenerator.deposits (NoirCircuitTomlGenerator.run ops this)) =
    MerkleTree.totalLeaves
      (NoirCircuitTomlGenerator.tree (NoirCircuitTomlGenerator.run ops this)).
Proof.
  induction ops as [|o ops IH]; intros this Hinv; [done|].
  apply IH. by apply step_count.
Qed.

End Generator.

Section GeneratorReady.

Lemma mapToString_ok (l : list (option Fr)) :
  (forall x, In x l -> is_Some x) ->
  exists ss, NoirCircuitTomlGenerator.mapToString l = Ok ss.
Proof.
  induction l as [|x l IH]; intros Hall; [by eexists|].
  destruct (Hall x ltac:(by left)) as [v ->].
  destruct IH as [ss Hss]; [intros y Hy; apply Hall; by right|].
  exists (Fr_toString v :: ss). simpl. by rewrite Hss.
Qed.

Lemma root_is_Some (this : MerkleTree.t) :
  Spec.ready this -> is_Some (MerkleTree.root this).
Proof.
  intros [_ Hz]. destruct (Hz (MerkleTree.levels this) ltac:(lia)) as [z Hzl].
  unfold MerkleTree.root. rewrite Hzl.
  destruct (MerkleTree.storage this !! _); simpl; eauto.
Qed.

(** On a generator whose tree is [ready], [deposit] and [gentoml('deposit')]
    succeed, insert one leaf and append one record. *)
Lemma deposit_ready (id r : Fr) (this : NoirCircuitTomlGenerator.t) :
  Spec.ready (NoirCircuitTomlGenerator.tree this) ->
  exists this' record toml,
    NoirCircuitTomlGenerator.deposit id r this = (Ok tt, this') /\
    NoirCircuitTomlGenerator.gentoml (NoirCircuitTomlGenerator.Deposit id r) this
      = (Ok toml, this') /\
    Spec.ready (NoirCircuitTomlGenerator.tree this') /\
    MerkleTree.totalLeaves (NoirCircuitTomlGenerator.tree this')
      = MerkleTree.totalLeaves (NoirCircuitTomlGenerator.tree this) + 1 /\
    NoirCircuitTomlGenerator.deposits this'
      = NoirCircuitTomlGenerator.deposits this ++ [record] /\
    DepositRecord.id record = id /\
    DepositRecord.r record = r /\
    DepositRecord.index record
      = NoirCircuitTomlGenerator.numToFr
          (MerkleTree.totalLeaves (NoirCircuitTomlGenerator.tree this)).
Proof.
  intros Hready. pose proof Hready as [[h Hbb] Hz].
  set (tree := NoirCircuitTomlGenerator.tree this) in *.
  destruct (insert_ready tree (h [id; r]) Hready)
    as (tree' & Hins & Hready' & Hlev & Htl).
  destruct (root_is_Some tree Hready) as [oldRoot HoldRoot].
  destruct (root_is_Some tree' Hready') as [newRoot HnewRoot].
  destruct (mapToString_ok
              (map (fun l => MerkleTree.node tree l
                               (Spec.sibling (MerkleTree.totalLeaves tree / 2 ^ l)))
                   (seq 0 (MerkleTree.levels tree)))) as [path Hpath].
  { intros x [l [<- Hl]]%in_map_iff. apply in_seq in Hl.
    apply node_is_Some, Hz. lia. }
  eexists _, _, _.
  unfold NoirCircuitTomlGenerator.gentoml, NoirCircuitTomlGenerator.deposit.
  fold tree. rewrite proof_eq, Hbb, Hins, HoldRoot, HnewRoot.
  cbn [MerkleProof.pathElements MerkleProof.pathIndices
       NoirCircuitTomlGenerator.toString].
  rewrite Hpath. cbn [mbind result_bind rbind].
  split_and!; try done.
Qed.

Lemma step_ready (o : NoirCircuitTomlGenerator.op)
    (this : NoirCircuitTomlGenerator.t) :
  Spec.ready (NoirCircuitTomlGenerator.tree this) ->
  Spec.ready (NoirCircuitTomlGenerator.tree (NoirCircuitTomlGenerator.step o this)).
Proof.
  intros Hready. destruct o as [pedersen|id r|[id r|index|other]];
    cbn [NoirCircuitTomlGenerator.step].
  - unfold NoirCircuitTomlGenerator.init.
    destruct (initialize_frame pedersen (NoirCircuitTomlGenerator.tree this))
      as (_ & Hlev & Hbb & zs & Hzs).
    destruct (MerkleTree.initialize _ _ _) as [res tree']. simpl in *.
    split; [by rewrite Hbb|].
    intros l Hl. rewrite Hzs. destruct Hready as [_ Hz].
    destruct (Hz l ltac:(lia)) as [z Hzl].
    exists z. by apply lookup_app_l_Some.
  - destruct (deposit_ready id r this Hready) as (this' & ? & ? & -> & _ & ? & _).
    done.
  - destruct (deposit_ready id r this Hready) as (this' & ? & ? & _ & -> & ? & _).
    done.
  - unfold NoirCircuitTomlGenerator.gentoml. by destruct (find _ _).
  - done.
Qed.

Lemma run_ready (ops : list NoirCircuitTomlGenerator.op) :
  forall this : NoirCircuitTomlGenerator.t,
  Spec.ready (NoirCircuitTomlGenerator.tree this) ->
  Spec.ready (NoirCircuitTomlGenerator.tree (NoirCircuitTomlGenerator.run ops this)).
Proof.
  induction ops as [|o ops IH]; intros this Hready; [done|].
  apply IH. by apply step_ready.
Qed.

Lemma init_ready (pedersen : list Fr -> Fr) :
  Spec.ready
    (NoirCircuitTomlGenerator.tree
       (NoirCircuitTomlGenerator.step (NoirCircuitTomlGenerator.OpInit pedersen)
          NoirCircuitTomlGenerator.new)).
Proof.
  cbn [NoirCircuitTomlGenerator.step]. unfold NoirCircuitTomlGenerator.init.
  cbn [NoirCircuitTomlGenerator.new NoirCircuitTomlGenerator.tree].
  rewrite initialize_eq. cbn [MerkleTree.insertAll].
  apply (wf_ready pedersen), initial_wf.
Qed.

End GeneratorReady.

(** ** The ledger *)

Ltac run_tx :=
  cbv beta iota zeta delta
    [Sol.call mbind Sol.tx_bind mret Sol.tx_ret Sol.sload Sol.require
     Sol.revert Sol.call_verify Sol.sstore_usedNullifiers
     Sol.sstore_currentRoot Sol.emit Sol.record Sol.store Sol.transfer
     Sol.payable Sol.nonpayable Sol.increment_depositIndex Sol.st Sol.trace
     app negb].

Section LedgerFacts.
Import Sol.
Local Open Scope Z_scope.

(** What a call to [withdraw] does, case by case. *)
Lemma withdraw_cases verify receive m proof nullifier s :
  call (Whirlwind.withdraw verify receive m proof nullifier) s =
  if decide (value m = 0) then
    if used s nullifier then Revert (Reason "Nullifier already used") []
    else
      let inputs := [currentRoot s; nullifier] in
      let v := CallVerify (withdrawVerifier s) proof inputs in
      match verify (withdrawVerifier s) proof inputs with
      | None => Revert Bubbled [v]
      | Some false => Revert (Reason "Invalid withdraw proof") [v]
      | Some true =>
          let s1 := set_usedNullifiers nullifier true s in
          let tr := [v; SStoreUsedNullifiers nullifier true;
                     Emit (Withdraw (sender m) nullifier);
                     Transfer (sender m) ether_0_1] in
          if decide (balance s1 < ether_0_1) then Revert Bubbled tr
          else if receive (sender m) ether_0_1 s1
               then Success tt
                      (mkMachine (set_balance (balance s1 - ether_0_1) s1) tr)
               else Revert Bubbled tr
      end
  else Revert NotPayable [].
Proof.
  unfold Whirlwind.withdraw. run_tx.
  destruct (decide (value m = 0)); [|done]. run_tx.
  destruct (used s nullifier); [done|]. run_tx.
  destruct (verify _ _ _) as [[]|]; run_tx; try done.
  destruct (decide _); [done|]. by destruct (receive _ _ _).
Qed.

Lemma withdraw_hw5_cases verify receive m proof root nullifier s :
  call (WhirlwindHw5.withdraw verify receive m proof root nullifier) s =
  if decide (value m = 0) then
    if used s nullifier then Revert (Reason "Nullifier already used") []
    else
      let inputs := encodePacked [root; nullifier] in
      let v := CallVerify (withdrawVerifier s) proof inputs in
      match verify (withdrawVerifier s) proof inputs with
      | None => Revert Bubbled [v]
      | Some false => Revert (Reason "Invalid withdraw proof") [v]
      | Some true =>
          let s1 := set_usedNullifiers nullifier true s in
          let tr := [v; SStoreUsedNullifiers nullifier true;
                     Emit (Withdraw (sender m) nullifier);
                     Transfer (sender m) ether_0_1] in
          if decide (balance s1 < ether_0_1) then Revert Bubbled tr
          else if receive (sender m) ether_0_1 s1
               then Success tt
                      (mkMachine (set_balance (balance s1 - ether_0_1) s1) tr)
               else Revert Bubbled tr
      end
  else Revert NotPayable [].
Proof.
  unfold WhirlwindHw5.withdraw. run_tx.
  destruct (decide (value m = 0)); [|done]. run_tx.
  destruct (used s nullifier); [done|]. run_tx.
  destruct (verify _ _ _) as [[]|]; run_tx; try done.
  destruct (decide _); [done|]. by destruct (receive _ _ _).
Qed.

(** What a call to [deposit] does, case by case. *)
Lemma deposit_cases verify m proof newRoot commitment s :
  call (Whirlwind.deposit verify m proof newRoot commitment) s =
  if bool_decide (depositIndex s < maxDeposits s) then
    if bool_decide (value m = ether_0_1) then
      let inputs := [currentRoot s; newRoot; commitment; depositIndex s] in
      let v := CallVerify (depositVerifier s) proof inputs in
      match verify (depositVerifier s) proof inputs with
      | None => Revert Bubbled [v]
      | Some false => Revert (Reason "Invalid deposit proof") [v]
      | Some true =>
          let s1 := set_currentRoot newRoot
                      (set_balance (balance s + value m) s) in
          let tr := [v; SStoreCurrentRoot newRoot;
                     Emit (Deposit newRoot commitment (depositIndex s))] in
          if decide (depositIndex s + 1 > MAX_UINT256) then Revert (Panic 17) tr
          else Success tt
                 (mkMachine (set_depositIndex (depositIndex s + 1) s1)
                    (tr ++ [SStoreDepositIndex (depositIndex s + 1)]))
      end
    else Revert (Reason "Must deposit exactly 0.1 ETH") []
  else Revert (Reason "Deposit limit reached") [].
Proof.
  unfold Whirlwind.deposit. run_tx.
  cbn [depositIndex maxDeposits depositVerifier currentRoot set_balance].
  case_bool_decide; run_tx; [|done].
  case_bool_decide; run_tx; [|done].
  destruct (verify _ _ _) as [[]|]; run_tx; try done.
  cbn [depositIndex set_currentRoot]. by destruct (decide _).
Qed.

Lemma deposit_hw5_cases verify m proof newRoot commitment s :
  call (WhirlwindHw5.deposit verify m proof newRoot commitment) s =
  if bool_decide (depositIndex s < maxDeposits s) then
    if bool_decide (value m = ether_0_1) then
      let inputs := encodePacked [commitment; depositIndex s; newRoot] in
      let v := CallVerify (depositVerifier s) proof inputs in
      match verify (depositVerifier s) proof inputs with
      | None => Revert Bubbled [v]
      | Some false => Revert (Reason "Invalid deposit proof") [v]
      | Some true =>
          let s1 := set_currentRoot newRoot
                      (set_balance (balance s + value m) s) in
          let tr := [v; SStoreCurrentRoot newRoot;
                     Emit (Deposit newRoot commitment (depositIndex s))] in
          if decide (depositIndex s + 1 > MAX_UINT256) then Revert (Panic 17) tr
          else Success tt
                 (mkMachine (set_depositIndex (depositIndex s + 1) s1)
                    (tr ++ [SStoreDepositIndex (depositIndex s + 1)]))
      end
    else Revert (Reason "Must deposit exactly 0.1 ETH") []
  else Revert (Reason "Deposit limit reached") [].
Proof.
  unfold WhirlwindHw5.deposit. run_tx.
  cbn [depositIndex maxDeposits depositVerifier currentRoot set_balance].
  case_bool_decide; run_tx; [|done].
  case_bool_decide; run_tx; [|done].
  destruct (verify _ _ _) as [[]|]; run_tx; try done.
  cbn [depositIndex set_currentRoot]. by destruct (decide _).
Qed.

Lemma used_set_usedNullifiers (s : state) (n k : bytes32) :
  used (set_usedNullifiers n true s) k = if decide (k = n) then true else used s k.
Proof.
  unfold used, set_usedNullifiers. cbn [usedNullifiers].
  destruct (decide (k = n)) as [->|Hne].
  - by rewrite lookup_insert_eq.
  - by rewrite lookup_insert_ne.
Qed.

(** No call removes a nullifier from the used set. *)
Lemma step_used verify receive (s : state) (c : Ledger.call_desc) (k : bytes32) :
  used s k = true -> used (Ledger.step verify receive s c) k = true.
Proof.
  intros Hk. unfold Ledger.step, Ledger.exec.
  destruct c as [m proof newRoot commitment|m proof nullifier].
  - rewrite deposit_cases.
    repeat (case_bool_decide; [|done]). cbv zeta.
    destruct (verify _ _ _) as [[]|]; try done.
    by destruct (decide _).
  - rewrite withdraw_cases.
    destruct (decide (value _ = 0)); [|done].
    destruct (used s nullifier); [done|]. cbv zeta.
    destruct (verify _ _ _) as [[]|]; try done.
    destruct (decide _); [done|]. destruct (receive _ _ _); [|done].
    cbn [state_after st]. unfold used, set_balance. cbn [usedNullifiers].
    fold (used (set_usedNullifiers nullifier true s) k).
    rewrite used_set_usedNullifiers. by destruct (decide _).
Qed.

Lemma run_used verify receive (calls : list Ledger.call_desc) :
  forall (s : state) (k : bytes32),
  used s k = true -> used (Ledger.run verify receive calls s) k = true.
Proof.
  induction calls as [|c calls IH]; intros s k Hk; [done|].
  apply IH. by apply step_used.
Qed.

End LedgerFacts.

Section LedgerTheorems.
Import Sol.
Local Open Scope Z_scope.

(** X1.  The contract of the README does what the specification says of
    [withdraw]: two arguments, verification against the ledger's own
    [currentRoot] and the nullifier, and on success the nullifier is marked,
    the event emitted and the unit amount paid to the caller.  The function
    is not payable: this is a call that carries no ether, and the same call
    with ether attached reverts without data and without any effect. *)
Lemma withdraw_spec verify receive m proof nullifier s :
  value m = 0 ->
  used s nullifier = false ->
  verify (withdrawVerifier s) proof [currentRoot s; nullifier] = Some true ->
  ether_0_1 <= balance s ->
  receive (sender m) ether_0_1 (set_usedNullifiers nullifier true s) = true ->
  exists mch,
    call (Whirlwind.withdraw verify receive m proof nullifier) s = Success tt mch /\
    used (st mch) nullifier = true /\
    (forall k, k <> nullifier -> used (st mch) k = used s k) /\
    balance (st mch) = balance s - ether_0_1 /\
    currentRoot (st mch) = currentRoot s /\
    depositIndex (st mch) = depositIndex s /\
    trace mch = [CallVerify (withdrawVerifier s) proof [currentRoot s; nullifier];
                 SStoreUsedNullifiers nullifier true;
                 Emit (Withdraw (sender m) nullifier);
                 Transfer (sender m) ether_0_1] /\
    forall sent, sent <> 0 ->
      call (Whirlwind.withdraw verify receive (mkMsg (sender m) sent) proof
              nullifier) s
      = Revert NotPayable [].
Proof.
  intros Hvalue Hused Hver Hbal Hrecv. eexists.
  rewrite withdraw_cases, decide_True, Hused by done.
  cbv zeta. rewrite Hver.
  rewrite decide_False by (cbn [set_usedNullifiers balance]; lia).
  rewrite Hrecv. split; [done|]. cbn [st trace].
  split_and!; try done.
  - change (used (set_usedNullifiers nullifier true s) nullifier = true).
    rewrite used_set_usedNullifiers. by rewrite decide_True.
  - intros k Hk.
    change (used (set_usedNullifiers nullifier true s) k = used s k).
    rewrite used_set_usedNullifiers. by rewrite decide_False.
  - intros sent Hsent. rewrite withdraw_cases.
    by rewrite decide_False.
Qed.

(** X2.  The contract of the README does what the specification says of
    [deposit]. *)
Lemma deposit_spec verify m proof newRoot commitment s :
  depositIndex s < maxDeposits s ->
  maxDeposits s <= MAX_UINT256 ->
  value m = ether_0_1 ->
  let inputs := [currentRoot s; newRoot; commitment; depositIndex s] in
  match verify (depositVerifier s) proof inputs with
  | Some true =>
      exists mch,
        call (Whirlwind.deposit verify m proof newRoot commitment) s
          = Success tt mch /\
        currentRoot (st mch) = newRoot /\
        depositIndex (st mch) = depositIndex s + 1 /\
        usedNullifiers (st mch) = usedNullifiers s /\
        balance (st mch) = balance s + ether_0_1 /\
        trace mch = [CallVerify (depositVerifier s) proof inputs;
                     SStoreCurrentRoot newRoot;
                     Emit (Deposit newRoot commitment (depositIndex s));
                     SStoreDepositIndex (depositIndex s + 1)]
  | Some false =>
      call (Whirlwind.deposit verify m proof newRoot commitment) s
        = Revert (Reason "Invalid deposit proof")
            [CallVerify (depositVerifier s) proof inputs] /\
      state_after s (call (Whirlwind.deposit verify m proof newRoot commitment) s)
        = s
  | None =>
      state_after s (call (Whirlwind.deposit verify m proof newRoot commitment) s)
        = s
  end.
Proof.
  intros Hidx Hmax Hval. cbv zeta. rewrite deposit_cases.
  rewrite !bool_decide_eq_true_2 by done. cbv zeta.
  destruct (verify _ _ _) as [[]|]; [|done..].
  rewrite decide_False by lia. eexists. split; [done|].
  cbn [st trace app set_depositIndex set_currentRoot set_balance currentRoot
       depositIndex usedNullifiers balance].
  rewrite Hval. done.
Qed.

(** C3 (double-spend rejection).  Once [withdraw] has succeeded for a
    nullifier, then after any further calls to the ledger a [withdraw]
    presenting that nullifier reverts, whatever the proof, the caller, the
    verifier's answer or the recipient -- and with an empty trace: nothing,
    in particular no verification, had been attempted.  The revert carries
    the double-spend message; only a call with ether attached is turned away
    even earlier, by the check of a function that is not payable.  No call
    to the ledger ever takes a nullifier out of the used set. *)
Theorem double_spend_rejected verify receive s m proof X mch :
  call (Whirlwind.withdraw verify receive m proof X) s = Success tt mch ->
  used (st mch) X = true /\
  (forall calls verify' receive' m' proof',
     call (Whirlwind.withdraw verify' receive' m' proof' X)
       (Ledger.run verify receive calls (st mch))
     = Revert (if decide (value m' = 0)
               then Reason "Nullifier already used" else NotPayable) []) /\
  (forall s0 calls k,
     used s0 k = true -> used (Ledger.run verify receive calls s0) k = true).
Proof.
  intros Hok.
  assert (HX : used (st mch) X = true).
  { rewrite withdraw_cases in Hok.
    destruct (decide (value m = 0)); [|done].
    destruct (used s X) eqn:HsX; [done|]. cbv zeta in Hok.
    destruct (verify _ _ _) as [[]|]; try done.
    destruct (decide _); [done|]. destruct (receive _ _ _); [|done].
    injection Hok as <-. cbn [st].
    change (used (set_usedNullifiers X true s) X = true).
    rewrite used_set_usedNullifiers. by rewrite decide_True. }
  split_and!.
  - done.
  - intros calls verify' receive' m' proof'. rewrite withdraw_cases.
    rewrite (run_used verify receive calls _ _ HX).
    by destruct (decide (value m' = 0)).
  - intros s0 calls k. apply run_used.
Qed.

(** C10 (the nullifier is recorded before the payout), for both versions of
    the contract.  The trace of a successful [withdraw] is: the verifier
    call, the store to [usedNullifiers], the event, the transfer -- in that
    order.  The recipient's code therefore only ever runs against a state in
    which the nullifier is already used: guarding the recipient with that
    test changes the outcome of no call, and a [withdraw] with the same
    nullifier issued from such a state reverts as a double spend (or, if it
    has ether attached, at the check of a function that is not payable)
    before anything is attempted. *)
Theorem nullifier_recorded_before_payout :
  (forall verify receive m proof n s,
     call (Whirlwind.withdraw verify receive m proof n) s
     = call (Whirlwind.withdraw verify
               (fun a v observed => used observed n && receive a v observed)
               m proof n) s /\
     match call (Whirlwind.withdraw verify receive m proof n) s with
     | Success _ mch =>
         trace mch = [CallVerify (withdrawVerifier s) proof [currentRoot s; n];
                      SStoreUsedNullifiers n true;
                      Emit (Withdraw (sender m) n);
                      Transfer (sender m) ether_0_1]
     | Revert _ _ => True
     end /\
     forall observed verify' receive' m' proof',
       let rejection :=
         Revert (if decide (value m' = 0)
                 then Reason "Nullifier already used" else NotPayable) [] in
       (if used observed n
        then call (Whirlwind.withdraw verify' receive' m' proof' n) observed
        else rejection)
       = rejection) /\
  (forall verify receive m proof root n s,
     call (WhirlwindHw5.withdraw verify receive m proof root n) s
     = call (WhirlwindHw5.withdraw verify
               (fun a v observed => used observed n && receive a v observed)
               m proof root n) s /\
     match call (WhirlwindHw5.withdraw verify receive m proof root n) s with
     | Success _ mch =>
         trace mch = [CallVerify (withdrawVerifier s) proof
                        (encodePacked [root; n]);
                      SStoreUsedNullifiers n true;
                      Emit (Withdraw (sender m) n);
                      Transfer (sender m) ether_0_1]
     | Revert _ _ => True
     end /\
     forall observed verify' receive' m' proof' root',
       let rejection :=
         Revert (if decide (value m' = 0)
                 then Reason "Nullifier already used" else NotPayable) [] in
       (if used observed n
        then call (WhirlwindHw5.withdraw verify' receive' m' proof' root' n)
               observed
        else rejection)
       = rejection).
Proof.
  split.
  - intros verify receive m proof n s. split_and!.
    + rewrite !withdraw_cases. destruct (decide (value _ = 0)); [|done]. destruct (used s n); [done|]. cbv zeta.
      destruct (verify _ _ _) as [[]|]; try done.
      rewrite used_set_usedNullifiers. by destruct (decide (n = n)).
    + rewrite withdraw_cases. destruct (decide (value _ = 0)); [|done]. destruct (used s n); [done|]. cbv zeta.
      destruct (verify _ _ _) as [[]|]; try done.
      destruct (decide _); [done|]. by destruct (receive _ _ _).
    + intros observed verify' receive' m' proof'. cbv zeta.
      destruct (used observed n) eqn:Hobs; [|done].
      rewrite withdraw_cases, Hobs. by destruct (decide (value m' = 0)).
  - intros verify receive m proof root n s. split_and!.
    + rewrite !withdraw_hw5_cases. destruct (decide (value _ = 0)); [|done]. destruct (used s n); [done|]. cbv zeta.
      destruct (verify _ _ _) as [[]|]; try done.
      rewrite used_set_usedNullifiers. by destruct (decide (n = n)).
    + rewrite withdraw_hw5_cases. destruct (decide (value _ = 0)); [|done]. destruct (used s n); [done|]. cbv zeta.
      destruct (verify _ _ _) as [[]|]; try done.
      destruct (decide _); [done|]. by destruct (receive _ _ _).
    + intros observed verify' receive' m' proof' root'. cbv zeta.
      destruct (used observed n) eqn:Hobs; [|done].
      rewrite withdraw_hw5_cases, Hobs. by destruct (decide (value m' = 0)).
Qed.

End LedgerTheorems.

Lemma double_spend_rejected_witness :
  Sol.call (Whirlwind.withdraw Spec.accept_all Spec.receive_all Spec.caller [] 5%Z)
    Spec.demo_state = Sol.Success tt Spec.demo_withdrawn /\
  (Sol.used (Sol.st Spec.demo_withdrawn) 5%Z = true /\
   (forall calls verify' receive' m' proof',
      Sol.call (Whirlwind.withdraw verify' receive' m' proof' 5%Z)
        (Ledger.run Spec.accept_all Spec.receive_all calls
           (Sol.st Spec.demo_withdrawn))
      = Sol.Revert (if decide (Sol.value m' = 0)%Z
                    then Sol.Reason "Nullifier already used"
                    else Sol.NotPayable) []) /\
   (forall s0 calls k,
      Sol.used s0 k = true ->
      Sol.used (Ledger.run Spec.accept_all Spec.receive_all calls s0) k = true)).
Proof.
  assert (H : Sol.call
                (Whirlwind.withdraw Spec.accept_all Spec.receive_all
                   Spec.caller [] 5%Z) Spec.demo_state
              = Sol.Success tt Spec.demo_withdrawn)
    by (vm_compute; reflexivity).
  split; [exact H|].
  exact (double_spend_rejected Spec.accept_all Spec.receive_all Spec.demo_state
           Spec.caller [] 5%Z Spec.demo_withdrawn H).
Defined.

(** ** The version of the contract under hw5/contracts *)

(** C1, on hw5/contracts/whirlwind.sol.  Its [withdraw] takes three
    arguments and hands the verifier the caller's [root]: with the ledger's
    root at 100, a proof that verifies against the made-up root 999 is
    accepted, nullifier 5 is spent and the unit amount is paid out.  The
    contract of the README, given a proof for that same made-up root,
    verifies against [currentRoot = 100] and rejects it. *)
Theorem withdraw_hw5_trusts_caller_root :
  Sol.currentRoot Spec.demo_state = 100%Z /\
  Sol.call
    (WhirlwindHw5.withdraw (Spec.accept_only (Sol.encodePacked [999; 5]%Z))
       Spec.receive_all Spec.caller [] 999%Z 5%Z) Spec.demo_state
  = Sol.Success tt
      (Sol.mkMachine
         (Sol.set_balance Sol.ether_0_1
            (Sol.set_usedNullifiers 5%Z true Spec.demo_state))
         [Sol.CallVerify 12%Z [] (Sol.encodePacked [999; 5]%Z);
          Sol.SStoreUsedNullifiers 5%Z true;
          Sol.Emit (Sol.Withdraw 77%Z 5%Z);
          Sol.Transfer 77%Z Sol.ether_0_1]) /\
  Sol.call
    (Whirlwind.withdraw (Spec.accept_only [999; 5]%Z)
       Spec.receive_all Spec.caller [] 5%Z) Spec.demo_state
  = Sol.Revert (Sol.Reason "Invalid withdraw proof")
      [Sol.CallVerify 12%Z [] [100; 5]%Z].
Proof. split_and!; vm_compute; reflexivity. Qed.

(** C2, on hw5/contracts/whirlwind.sol.  Its [deposit] hands the verifier
    the packed bytes of [commitment, depositIndex, newRoot]: three words in
    that order, and the current root is not among them.  The same proof is
    therefore accepted whatever the ledger's root is -- 100 or 555 -- while
    the contract of the README verifies against
    [currentRoot, newRoot, commitment, depositIndex] and rejects it once the
    root has moved. *)
Theorem deposit_hw5_omits_current_root :
  Sol.call
    (WhirlwindHw5.deposit (Spec.accept_only (Sol.encodePacked [7; 0; 200]%Z))
       Spec.depositor [] 200%Z 7%Z) Spec.demo_state
  = Sol.Success tt
      (Sol.mkMachine
         (Sol.set_depositIndex 1
            (Sol.set_currentRoot 200
               (Sol.set_balance (3 * Sol.ether_0_1) Spec.demo_state)))
         [Sol.CallVerify 11 [] (Sol.encodePacked [7; 0; 200]);
          Sol.SStoreCurrentRoot 200;
          Sol.Emit (Sol.Deposit 200 7 0);
          Sol.SStoreDepositIndex 1])%Z /\
  Sol.call
    (WhirlwindHw5.deposit (Spec.accept_only (Sol.encodePacked [7; 0; 200]%Z))
       Spec.depositor [] 200%Z 7%Z)
    (Sol.set_currentRoot 555%Z Spec.demo_state)
  = Sol.Success tt
      (Sol.mkMachine
         (Sol.set_depositIndex 1
            (Sol.set_currentRoot 200
               (Sol.set_balance (3 * Sol.ether_0_1) Spec.demo_state)))
         [Sol.CallVerify 11 [] (Sol.encodePacked [7; 0; 200]);
          Sol.SStoreCurrentRoot 200;
          Sol.Emit (Sol.Deposit 200 7 0);
          Sol.SStoreDepositIndex 1])%Z /\
  Sol.call
    (Whirlwind.deposit (Spec.accept_only [100; 200; 7; 0]%Z)
       Spec.depositor [] 200%Z 7%Z)
    (Sol.set_currentRoot 555%Z Spec.demo_state)
  = Sol.Revert (Sol.Reason "Invalid deposit proof")
      [Sol.CallVerify 11%Z [] [555; 200; 7; 0]%Z].
Proof. split_and!; vm_compute; reflexivity. Qed.

(** ** The generator's records satisfy the circuits *)

Section RecordsAndCircuits.
Variable pedersen : list Fr -> Fr.

Lemma path_value_ext (siblingAt siblingAt' : nat -> nat -> option Fr)
    (k : nat) (leaf : Fr) (n : nat) :
  (forall l, l < n -> siblingAt l (Spec.sibling (k / 2 ^ l))
                      = siblingAt' l (Spec.sibling (k / 2 ^ l))) ->
  Spec.path_value pedersen siblingAt k leaf n
  = Spec.path_value pedersen siblingAt' k leaf n.
Proof.
  induction n as [|n IH]; intros Hext; [done|].
  cbn [Spec.path_value]. rewrite IH by (intros; apply Hext; lia).
  by rewrite Hext by lia.
Qed.

(** Folding a proof by hand computes what [update] computes. *)
Lemma recompute_root_path_value (siblingAt : nat -> nat -> option Fr)
    (k : nat) (leaf : Fr) (D : nat) :
  (forall l, l < D -> is_Some (siblingAt l (Spec.sibling (k / 2 ^ l)))) ->
  forall n i, i + n <= D ->
  Spec.recompute_root pedersen
    (Some (Spec.path_value pedersen siblingAt k leaf i))
    (map (fun l => siblingAt l (Spec.sibling (k / 2 ^ l))) (seq i n))
    (map (fun l => (k / 2 ^ l) mod 2) (seq i n))
  = Some (Spec.path_value pedersen siblingAt k leaf (i + n)).
Proof.
  intros Hsib. induction n as [|n IH]; intros i Hin.
  - by rewrite Nat.add_0_r.
  - cbn [seq map Spec.recompute_root].
    destruct (Hsib i ltac:(lia)) as [s Hs]. rewrite Hs.
    replace (i + S n) with (S i + n) by lia. rewrite <- IH by lia.
    f_equal. cbn [Spec.path_value]. by rewrite Hs.
Qed.

Lemma insert_root (this : MerkleTree.t) (leaf : Fr) :
  Spec.wf pedersen this ->
  MerkleTree.totalLeaves this < 2 ^ MerkleTree.levels this ->
  MerkleTree.root (MerkleTree.insert leaf this).2
  = Some (Spec.path_value pedersen (MerkleTree.node this)
            (MerkleTree.totalLeaves this) leaf (MerkleTree.levels this)).
Proof.
  intros Hwf Hcap.
  assert (Hz : forall l, l < MerkleTree.levels this ->
                         is_Some (MerkleTree.zeros this !! l)).
  { intros l Hl. apply (wf_ready pedersen this Hwf). lia. }
  destruct (update_in_range pedersen this (MerkleTree.totalLeaves this) leaf true
              (Spec.wf_bb _ _ Hwf) Hz (Nat.le_refl _) Hcap)
    as (m' & Hupd & Hlook).
  rewrite insert_eq, Hupd. unfold MerkleTree.root.
  cbn [snd MerkleTree.set_totalLeaves MerkleTree.set_storage MerkleTree.storage
       MerkleTree.levels MerkleTree.zeros].
  rewrite Hlook, decide_True; [done|].
  split; [lia|]. by rewrite div_pow2_small.
Qed.

(** Below capacity, the record that [deposit] files away is a witness of both
    circuits: its sibling path, roots, commitment and index satisfy every
    assertion of deposit.nr, and -- against the root it recorded -- of
    withdraw.nr. *)
Lemma deposit_record_satisfies_circuits (id r : Fr)
    (this : NoirCircuitTomlGenerator.t) :
  Spec.wf pedersen (NoirCircuitTomlGenerator.tree this) ->
  MerkleTree.levels (NoirCircuitTomlGenerator.tree this) = 8 ->
  MerkleTree.totalLeaves (NoirCircuitTomlGenerator.tree this) < 2 ^ 8 ->
  exists this' record path oldRoot newRoot,
    NoirCircuitTomlGenerator.deposit id r this = (Ok tt, this') /\
    NoirCircuitTomlGenerator.deposits this'
      = NoirCircuitTomlGenerator.deposits this ++ [record] /\
    DepositRecord.id record = id /\
    DepositRecord.r record = r /\
    DepositRecord.hashPath record = map Some path /\
    DepositRecord.oldRoot record = Some oldRoot /\
    DepositRecord.newRoot record = Some newRoot /\
    DepositCircuit.main pedersen id r path oldRoot newRoot
      (DepositRecord.commitment record) (DepositRecord.index record) = true /\
    WithdrawCircuit.main pedersen r (DepositRecord.index record) path
      newRoot id = true.
Proof.
  intros Hwf Hlev Hcap.
  set (tree := NoirCircuitTomlGenerator.tree this) in *.
  set (k := MerkleTree.totalLeaves tree) in *.
  assert (Hz : forall l, l < 8 -> is_Some (MerkleTree.zeros tree !! l)).
  { intros l Hl. apply (wf_ready pedersen tree Hwf). lia. }
  set (sib := fun l => MerkleTree.node tree l (Spec.sibling (k / 2 ^ l))).
  set (path := map (fun l => default 0%N (sib l)) (seq 0 8)).
  assert (Hpath : map sib (seq 0 8) = map Some path).
  { unfold path. rewrite map_map. apply map_ext_in. intros l Hl%in_seq.
    destruct (node_is_Some tree l (Spec.sibling (k / 2 ^ l)) (Hz l ltac:(lia)))
      as [s Hs]. unfold sib. by rewrite Hs. }
  assert (Hlookup : forall l, l < 8 -> path !! l = sib l).
  { intros l Hl. unfold path. rewrite lookup_map_seq by done. simpl.
    destruct (node_is_Some tree l (Spec.sibling (k / 2 ^ l)) (Hz l Hl))
      as [s Hs]. unfold sib. by rewrite Hs. }
  assert (Hlen : length path = 8) by (unfold path; by rewrite length_map, length_seq).
  assert (Hwalk : forall leaf,
            Noir.walk pedersen 8
              (map (fun i => bool_decide ((k / 2 ^ i) mod 2 = 1)) (seq 0 8))
              path leaf
            = Spec.path_value pedersen (MerkleTree.node tree) k leaf 8).
  { intros leaf. unfold Noir.walk.
    pose proof (walk_loop_path_value pedersen 8 k path leaf Hlen 8 0 ltac:(lia))
      as Hw.
    change (0 + 8) with 8 in Hw.
    change (Spec.path_value pedersen _ k leaf 0) with leaf in Hw. rewrite Hw.
    apply path_value_ext. intros l Hl. by rewrite Hlookup. }
  (* the old root is the walk from the zero leaf *)
  assert (Hold : MerkleTree.root tree
                 = Some (Spec.path_value pedersen (MerkleTree.node tree) k
                           MerkleTree.zeroValue 8)).
  { pose proof (recompute_nodes pedersen tree k Hwf 8 0 ltac:(lia)) as Hrec.
    rewrite Nat.pow_0_r, Nat.div_1_r in Hrec. change (0 + 8) with 8 in Hrec.
    rewrite (div_pow2_small k 8) in Hrec by lia.
    assert (Hleaf : MerkleTree.node tree 0 k = Some MerkleTree.zeroValue).
    { unfold MerkleTree.node.
      destruct (MerkleTree.storage tree !! indexToKey 0 k) eqn:Hst.
      - assert (k < k) by (apply (Spec.wf_leaves _ _ Hwf); rewrite Hst; eauto).
        lia.
      - simpl. by rewrite (Spec.wf_zeros _ _ Hwf) by lia. }
    rewrite Hleaf in Hrec.
    pose proof (recompute_root_path_value (MerkleTree.node tree) k
                  MerkleTree.zeroValue 8
                  ltac:(intros l Hl; apply node_is_Some, Hz; lia)
                  8 0 ltac:(lia)) as Hpv.
    change (0 + 8) with 8 in Hpv.
    change (Spec.path_value pedersen _ k MerkleTree.zeroValue 0)
      with MerkleTree.zeroValue in Hpv.
    rewrite Hpv in Hrec.
    unfold MerkleTree.root. rewrite Hlev.
    unfold MerkleTree.node in Hrec. by rewrite <- Hrec. }
  pose proof (insert_root tree (pedersen [id; r]) Hwf
                ltac:(rewrite Hlev; exact Hcap)) as Hnew.
  rewrite Hlev in Hnew. fold k in Hnew.
  destruct (insert_wf pedersen tree (pedersen [id; r]) Hwf
              ltac:(rewrite Hlev; exact Hcap))
    as (tree' & Hins & _).
  rewrite Hins in Hnew. cbn [snd] in Hnew.
  set (record := DepositRecord.mk id r (pedersen [id; r]) (N.of_nat k)
                   (MerkleTree.root tree) (MerkleTree.root tree')
                   (map sib (seq 0 8))
                   (map (fun l => (k / 2 ^ l) mod 2) (seq 0 8))).
  exists (NoirCircuitTomlGenerator.mk tree'
            (NoirCircuitTomlGenerator.deposits this ++ [record])),
    record, path,
    (Spec.path_value pedersen (MerkleTree.node tree) k MerkleTree.zeroValue 8),
    (Spec.path_value pedersen (MerkleTree.node tree) k (pedersen [id; r]) 8).
  unfold NoirCircuitTomlGenerator.deposit. fold tree. fold k.
  rewrite proof_eq, (Spec.wf_bb _ _ Hwf), Hins, Hlev.
  cbn [MerkleProof.pathElements MerkleProof.pathIndices].
  split; [reflexivity|].
  unfold record.
  cbn [NoirCircuitTomlGenerator.deposits DepositRecord.id DepositRecord.r
       DepositRecord.hashPath DepositRecord.oldRoot DepositRecord.newRoot
       DepositRecord.commitment DepositRecord.index].
  split_and!; try done.
  - unfold DepositCircuit.main.
    rewrite (to_le_bits_of_nat 8 k) by done.
    rewrite bool_decide_eq_true_2 by done.
    change DepositCircuit.empty_leaf with MerkleTree.zeroValue.
    rewrite !Hwalk. by rewrite !bool_decide_eq_true_2 by done.
  - unfold WithdrawCircuit.main.
    rewrite (to_le_bits_of_nat 8 k) by done.
    rewrite Hwalk. by rewrite bool_decide_eq_true_2 by done.
Qed.

End RecordsAndCircuits.

(** ** The ledger over a run of calls *)

Section LedgerRuns.
Import Sol.
Local Open Scope Z_scope.
Variable verify : address -> bytes -> list bytes32 -> option bool.
Variable receive : address -> Z -> state -> bool.

(** What an accepted [deposit] does to the state and what it emits; a
    rejected one does nothing. *)
Lemma step_deposit m proof newRoot commitment s :
  let o := Ledger.exec verify receive
             (Ledger.CallDeposit m proof newRoot commitment) s in
  if LedgerLog.succeeded o
  then depositIndex s < maxDeposits s /\
       depositIndex s + 1 <= MAX_UINT256 /\
       value m = ether_0_1 /\
       Ledger.step verify receive s (Ledger.CallDeposit m proof newRoot commitment)
       = set_depositIndex (depositIndex s + 1)
           (set_currentRoot newRoot (set_balance (balance s + ether_0_1) s)) /\
       LedgerLog.events_of o = [Deposit newRoot commitment (depositIndex s)]
  else Ledger.step verify receive s (Ledger.CallDeposit m proof newRoot commitment)
       = s /\
       LedgerLog.events_of o = [].
Proof.
  cbv zeta. unfold Ledger.step. cbn [Ledger.exec]. rewrite deposit_cases.
  case_bool_decide as Hidx; [|done].
  case_bool_decide as Hval; [|done]. cbv zeta.
  destruct (verify _ _ _) as [[]|]; [|done..].
  destruct (decide _) as [Hov|Hov]; [done|].
  cbn [LedgerLog.succeeded state_after st LedgerLog.events_of trace app omap].
  rewrite Hval. split_and!; first [done|lia].
Qed.

Lemma step_withdraw m proof nullifier s :
  let o := Ledger.exec verify receive (Ledger.CallWithdraw m proof nullifier) s in
  if LedgerLog.succeeded o
  then used s nullifier = false /\
       ether_0_1 <= balance s /\
       Ledger.step verify receive s (Ledger.CallWithdraw m proof nullifier)
       = set_balance (balance s - ether_0_1)
           (set_usedNullifiers nullifier true s) /\
       LedgerLog.events_of o = [Withdraw (sender m) nullifier]
  else Ledger.step verify receive s (Ledger.CallWithdraw m proof nullifier) = s /\
       LedgerLog.events_of o = [].
Proof.
  cbv zeta. unfold Ledger.step. cbn [Ledger.exec]. rewrite withdraw_cases.
  destruct (decide (value _ = 0)); [|done].
  destruct (used s nullifier); [done|]. cbv zeta.
  destruct (verify _ _ _) as [[]|]; [|done..].
  destruct (decide _) as [Hb|Hb]; [done|].
  destruct (receive _ _ _); [|done].
  cbn [LedgerLog.succeeded state_after st LedgerLog.events_of trace app omap].
  cbn [set_usedNullifiers balance] in Hb. split_and!; first [done|lia].
Qed.

Lemma outcomes_cons c calls s :
  LedgerLog.outcomes verify receive (c :: calls) s
  = (c, Ledger.exec verify receive c s)
    :: LedgerLog.outcomes verify receive calls (Ledger.step verify receive s c).
Proof. done. Qed.

Lemma emitted_cons c calls s :
  LedgerLog.emitted verify receive (c :: calls) s
  = LedgerLog.events_of (Ledger.exec verify receive c s)
    ++ LedgerLog.emitted verify receive calls (Ledger.step verify receive s c).
Proof. done. Qed.

Lemma deposits_accepted_cons c calls s :
  LedgerLog.deposits_accepted verify receive (c :: calls) s
  = ((if LedgerLog.is_deposit c
         && LedgerLog.succeeded (Ledger.exec verify receive c s)
      then 1 else 0)
     + LedgerLog.deposits_accepted verify receive calls
         (Ledger.step verify receive s c))%nat.
Proof.
  unfold LedgerLog.deposits_accepted. rewrite outcomes_cons.
  cbn [List.filter fst snd]. by destruct (_ && _).
Qed.

Lemma withdrawals_accepted_cons c calls s :
  LedgerLog.withdrawals_accepted verify receive (c :: calls) s
  = ((if negb (LedgerLog.is_deposit c)
         && LedgerLog.succeeded (Ledger.exec verify receive c s)
      then 1 else 0)
     + LedgerLog.withdrawals_accepted verify receive calls
         (Ledger.step verify receive s c))%nat.
Proof.
  unfold LedgerLog.withdrawals_accepted. rewrite outcomes_cons.
  cbn [List.filter fst snd]. by destruct (_ && _).
Qed.

(** X3.  The [Deposit] events of a run carry consecutive indices, from the
    deposit index the run started at up to the one it ends at; the deposit
    index counts the accepted deposits. *)
Theorem deposit_events_consecutive calls :
  forall s,
  omap LedgerLog.deposit_index (LedgerLog.emitted verify receive calls s)
  = map (fun k => depositIndex s + Z.of_nat k)
      (seq 0 (LedgerLog.deposits_accepted verify receive calls s)) /\
  depositIndex (Ledger.run verify receive calls s)
  = depositIndex s
    + Z.of_nat (LedgerLog.deposits_accepted verify receive calls s).
Proof.
  induction calls as [|c calls IH]; intros s.
  - cbn. split; [done|lia].
  - rewrite emitted_cons, deposits_accepted_cons, omap_app.
    change (Ledger.run verify receive (c :: calls) s)
      with (Ledger.run verify receive calls (Ledger.step verify receive s c)).
    destruct (IH (Ledger.step verify receive s c)) as [IHev IHidx].
    rewrite IHev, IHidx. clear IH IHev IHidx.
    destruct c as [m proof newRoot commitment|m proof nullifier];
      cbn [LedgerLog.is_deposit andb negb].
    + pose proof (step_deposit m proof newRoot commitment s) as Hstep.
      cbv zeta in Hstep.
      destruct (LedgerLog.succeeded _).
      * destruct Hstep as (_ & _ & _ & -> & ->).
        cbn [omap LedgerLog.deposit_index app set_depositIndex depositIndex
             Nat.add seq map].
        split; [|lia]. rewrite Z.add_0_r. f_equal.
        rewrite <- seq_shift, map_map. apply map_ext. intros k. lia.
      * destruct Hstep as [-> ->]. cbn [omap app Nat.add]. split; [done|lia].
    + pose proof (step_withdraw m proof nullifier s) as Hstep.
      cbv zeta in Hstep.
      destruct (LedgerLog.succeeded _).
      * destruct Hstep as (_ & _ & -> & ->).
        cbn [omap LedgerLog.deposit_index app set_balance set_usedNullifiers
             depositIndex Nat.add].
        split; [done|lia].
      * destruct Hstep as [-> ->]. cbn [omap app Nat.add]. split; [done|lia].
Qed.

(** X4.  The balance after a run is the balance before it, plus one unit per
    accepted deposit, minus one unit per accepted withdrawal; it never goes
    below zero. *)
Theorem balance_accounting calls :
  forall s,
  0 <= balance s ->
  balance (Ledger.run verify receive calls s)
  = balance s
    + ether_0_1 * Z.of_nat (LedgerLog.deposits_accepted verify receive calls s)
    - ether_0_1 * Z.of_nat (LedgerLog.withdrawals_accepted verify receive calls s)
  /\ 0 <= balance (Ledger.run verify receive calls s).
Proof.
  induction calls as [|c calls IH]; intros s Hs.
  - cbn. split; lia.
  - rewrite deposits_accepted_cons, withdrawals_accepted_cons.
    change (Ledger.run verify receive (c :: calls) s)
      with (Ledger.run verify receive calls (Ledger.step verify receive s c)).
    assert (Hstep : 0 <= balance (Ledger.step verify receive s c) /\
              balance (Ledger.step verify receive s c)
              = balance s
                + ether_0_1 * Z.of_nat
                    (if LedgerLog.is_deposit c
                        && LedgerLog.succeeded (Ledger.exec verify receive c s)
                     then 1 else 0)
                - ether_0_1 * Z.of_nat
                    (if negb (LedgerLog.is_deposit c)
                        && LedgerLog.succeeded (Ledger.exec verify receive c s)
                     then 1 else 0)).
    { assert (0 < ether_0_1) by done.
      destruct c as [m proof newRoot commitment|m proof nullifier];
        cbn [LedgerLog.is_deposit andb negb].
      - pose proof (step_deposit m proof newRoot commitment s) as Hc.
        cbv zeta in Hc. destruct (LedgerLog.succeeded _).
        + destruct Hc as (_ & _ & _ & -> & _).
          cbn [set_depositIndex set_currentRoot set_balance balance]. lia.
        + destruct Hc as [-> _]. lia.
      - pose proof (step_withdraw m proof nullifier s) as Hc.
        cbv zeta in Hc. destruct (LedgerLog.succeeded _).
        + destruct Hc as (_ & ? & -> & _).
          cbn [set_usedNullifiers set_balance balance]. lia.
        + destruct Hc as [-> _]. lia. }
    destruct Hstep as [Hpos Hbal].
    destruct (IH _ Hpos) as [-> ?]. split; [|done]. rewrite Hbal. lia.
Qed.

Lemma last_cons_default {A} (a : A) (l : list A) (d : A) :
  List.last (a :: l) d = List.last l a.
Proof.
  revert a d. induction l as [|b l IH]; intros a d; [done|].
  change (List.last (a :: b :: l) d) with (List.last (b :: l) d).
  by rewrite (IH b d), (IH b a).
Qed.

(** X5.  The events tell the state.  After a run, [currentRoot] is the root of
    the last [Deposit] event (the root the run started with if there is
    none); a nullifier is used exactly if it was used at the start or a
    [Withdraw] event carries it; and no two [Withdraw] events carry the same
    nullifier. *)
Theorem events_mirror_state calls :
  forall s,
  currentRoot (Ledger.run verify receive calls s)
  = List.last (omap LedgerLog.deposit_root
                 (LedgerLog.emitted verify receive calls s)) (currentRoot s) /\
  (forall k,
     used (Ledger.run verify receive calls s) k
     = used s k
       || bool_decide (k ∈ omap LedgerLog.withdraw_nullifier
                             (LedgerLog.emitted verify receive calls s))) /\
  NoDup (omap LedgerLog.withdraw_nullifier
           (LedgerLog.emitted verify receive calls s)) /\
  (forall k, used s k = true ->
     k ∉ omap LedgerLog.withdraw_nullifier
           (LedgerLog.emitted verify receive calls s)).
Proof.
  induction calls as [|c calls IH]; intros s.
  - cbn. split_and!; try done.
    + intros k. by rewrite orb_false_r.
    + constructor.
    + intros k _. apply not_elem_of_nil.
  - rewrite emitted_cons, !omap_app.
    change (Ledger.run verify receive (c :: calls) s)
      with (Ledger.run verify receive calls (Ledger.step verify receive s c)).
    destruct (IH (Ledger.step verify receive s c))
      as (IHroot & IHused & IHnodup & IHfresh).
    rewrite IHroot. clear IH IHroot.
    destruct c as [m proof newRoot commitment|m proof nullifier].
    + pose proof (step_deposit m proof newRoot commitment s) as Hc.
      cbv zeta in Hc. destruct (LedgerLog.succeeded _).
      * destruct Hc as (_ & _ & _ & Hst & ->). rewrite Hst in *.
        cbn [omap LedgerLog.deposit_root LedgerLog.withdraw_nullifier app].
        split_and!; try done.
        -- cbn [set_depositIndex set_currentRoot currentRoot].
           change (list_omap _ _ LedgerLog.deposit_root
                     [Deposit newRoot commitment (depositIndex s)])
             with [newRoot].
           cbn [app]. by rewrite last_cons_default.
      * destruct Hc as [Hst ->]. rewrite Hst in *. done.
    + pose proof (step_withdraw m proof nullifier s) as Hc.
      cbv zeta in Hc. destruct (LedgerLog.succeeded _).
      * destruct Hc as (Hfree & _ & Hst & ->). rewrite Hst in *.
        change (omap LedgerLog.deposit_root [Withdraw (sender m) nullifier])
          with (@nil bytes32).
        change (omap LedgerLog.withdraw_nullifier
                  [Withdraw (sender m) nullifier]) with [nullifier].
        cbn [app].
        assert (Hstep : forall k,
                  used (set_balance (balance s - ether_0_1)
                          (set_usedNullifiers nullifier true s)) k
                  = if decide (k = nullifier) then true else used s k).
        { intros k. apply used_set_usedNullifiers. }
        split_and!.
        -- done.
        -- intros k. rewrite IHused, Hstep.
           destruct (decide (k = nullifier)) as [->|Hne].
           ++ cbn [orb]. symmetry. rewrite orb_true_iff. right.
              apply bool_decide_eq_true_2, list_elem_of_here.
           ++ f_equal. apply bool_decide_ext. rewrite elem_of_cons.
              split; [by right|by intros [?|?]].
        -- constructor; [|done]. apply IHfresh. rewrite Hstep.
           by rewrite decide_True.
        -- intros k Hk. rewrite not_elem_of_cons. split.
           ++ intros ->. congruence.
           ++ apply IHfresh. rewrite Hstep. by destruct (decide _).
      * destruct Hc as [Hst ->]. rewrite Hst in *. done.
Qed.

(** X6.  No call changes the verifiers, the owner or the capacity. *)
Theorem ledger_constants calls :
  forall s,
  depositVerifier (Ledger.run verify receive calls s) = depositVerifier s /\
  withdrawVerifier (Ledger.run verify receive calls s) = withdrawVerifier s /\
  maxDeposits (Ledger.run verify receive calls s) = maxDeposits s /\
  owner (Ledger.run verify receive calls s) = owner s.
Proof.
  induction calls as [|c calls IH]; intros s; [done|].
  change (Ledger.run verify receive (c :: calls) s)
    with (Ledger.run verify receive calls (Ledger.step verify receive s c)).
  destruct (IH (Ledger.step verify receive s c)) as (-> & -> & -> & ->).
  destruct c as [m proof newRoot commitment|m proof nullifier].
  - pose proof (step_deposit m proof newRoot commitment s) as Hc.
    cbv zeta in Hc. destruct (LedgerLog.succeeded _).
    + by destruct Hc as (_ & _ & _ & -> & _).
    + by destruct Hc as [-> _].
  - pose proof (step_withdraw m proof nullifier s) as Hc.
    cbv zeta in Hc. destruct (LedgerLog.succeeded _).
    + by destruct Hc as (_ & _ & -> & _).
    + by destruct Hc as [-> _].
Qed.

Lemma run_maxDeposits calls :
  forall s,
  maxDeposits (Ledger.run verify receive calls s) = maxDeposits s.
Proof.
  induction calls as [|c calls IH]; intros s; [done|].
  change (Ledger.run verify receive (c :: calls) s)
    with (Ledger.run verify receive calls (Ledger.step verify receive s c)).
  rewrite IH.
  destruct c as [m proof newRoot commitment|m proof nullifier].
  - pose proof (step_deposit m proof newRoot commitment s) as Hc.
    cbv zeta in Hc. destruct (LedgerLog.succeeded _).
    + by destruct Hc as (_ & _ & _ & -> & _).
    + by destruct Hc as [-> _].
  - pose proof (step_withdraw m proof nullifier s) as Hc.
    cbv zeta in Hc. destruct (LedgerLog.succeeded _).
    + by destruct Hc as (_ & _ & -> & _).
    + by destruct Hc as [-> _].
Qed.

Lemma run_depositIndex calls :
  forall s,
  depositIndex (Ledger.run verify receive calls s)
  = depositIndex s
    + Z.of_nat (LedgerLog.deposits_accepted verify receive calls s).
Proof.
  induction calls as [|c calls IH]; intros s.
  - cbn. lia.
  - rewrite deposits_accepted_cons.
    change (Ledger.run verify receive (c :: calls) s)
      with (Ledger.run verify receive calls (Ledger.step verify receive s c)).
    rewrite IH. clear IH.
    destruct c as [m proof newRoot commitment|m proof nullifier];
      cbn [LedgerLog.is_deposit andb negb].
    + pose proof (step_deposit m proof newRoot commitment s) as Hc.
      cbv zeta in Hc. destruct (LedgerLog.succeeded _).
      * destruct Hc as (_ & _ & _ & -> & _).
        cbn [set_depositIndex depositIndex]. lia.
      * destruct Hc as [-> _]. lia.
    + pose proof (step_withdraw m proof nullifier s) as Hc.
      cbv zeta in Hc. destruct (LedgerLog.succeeded _).
      * destruct Hc as (_ & _ & -> & _).
        cbn [set_balance set_usedNullifiers depositIndex]. lia.
      * destruct Hc as [-> _]. lia.
Qed.

Lemma run_bounded calls :
  forall s,
  depositIndex s <= maxDeposits s ->
  depositIndex (Ledger.run verify receive calls s)
  <= maxDeposits (Ledger.run verify receive calls s).
Proof.
  induction calls as [|c calls IH]; intros s Hs; [done|].
  change (Ledger.run verify receive (c :: calls) s)
    with (Ledger.run verify receive calls (Ledger.step verify receive s c)).
  apply IH.
  destruct c as [m proof newRoot commitment|m proof nullifier].
  - pose proof (step_deposit m proof newRoot commitment s) as Hc.
    cbv zeta in Hc. destruct (LedgerLog.succeeded _).
    + destruct Hc as (? & _ & _ & -> & _).
      cbn [set_depositIndex depositIndex maxDeposits set_currentRoot
           set_balance]. lia.
    + by destruct Hc as [-> _].
  - pose proof (step_withdraw m proof nullifier s) as Hc.
    cbv zeta in Hc. destruct (LedgerLog.succeeded _).
    + by destruct Hc as (_ & _ & -> & _).
    + by destruct Hc as [-> _].
Qed.

(** X7.  A ledger deployed for depth [d] accepts at most [2^d] deposits: after
    any run of calls on the state the constructor built, [depositIndex]
    counts the accepted deposits and has not passed [maxDeposits = 2^d]; the
    checked increment never overflows; and once [2^d] deposits are in, every
    further [deposit] reverts with the limit message before anything else is
    looked at. *)
Theorem capacity_from_constructor m dv wv depth root0 s0 calls :
  constructor m dv wv depth root0 = Some s0 ->
  0 <= depth ->
  maxDeposits (Ledger.run verify receive calls s0) = 2 ^ depth /\
  depositIndex (Ledger.run verify receive calls s0)
    = Z.of_nat (LedgerLog.deposits_accepted verify receive calls s0) /\
  depositIndex (Ledger.run verify receive calls s0) <= 2 ^ depth /\
  (forall c code attempted,
     Ledger.exec verify receive c (Ledger.run verify receive calls s0)
     <> Revert (Panic code) attempted) /\
  (depositIndex (Ledger.run verify receive calls s0) = 2 ^ depth ->
   forall verify' m' proof' newRoot' commitment',
     call (Whirlwind.deposit verify' m' proof' newRoot' commitment')
       (Ledger.run verify receive calls s0)
     = Revert (Reason "Deposit limit reached") []).
Proof.
  intros Hctor Hdepth. unfold constructor in Hctor.
  destruct (decide (value m <> 0)); [done|].
  destruct (decide (256 <= depth)) as [|Hlt]; [done|].
  injection Hctor as <-.
  set (s0 := mkState dv wv 0 (2 ^ depth) ∅ root0 (sender m) 0).
  assert (Hpow : 2 ^ depth < 2 ^ 256) by (apply Z.pow_lt_mono_r; lia).
  assert (Hpos : 0 < 2 ^ depth) by (apply Z.pow_pos_nonneg; lia).
  pose proof (run_maxDeposits calls s0) as Hmax.
  pose proof (run_depositIndex calls s0) as Hidx.
  pose proof (run_bounded calls s0 ltac:(cbn; lia)) as Hbound.
  set (s := Ledger.run verify receive calls s0) in *.
  cbn [s0 maxDeposits depositIndex] in Hmax, Hidx.
  split_and!.
  - done.
  - lia.
  - lia.
  - intros c code attempted.
    destruct c as [m' proof newRoot commitment|m' proof nullifier];
      cbn [Ledger.exec].
    + rewrite deposit_cases. case_bool_decide; [|done].
      case_bool_decide; [|done]. cbv zeta.
      destruct (verify _ _ _) as [[]|]; try done.
      destruct (decide _) as [Hov|]; [|done].
      unfold MAX_UINT256 in Hov. lia.
    + rewrite withdraw_cases. destruct (decide (value _ = 0)); [|done]. destruct (used _ _); [done|]. cbv zeta.
      destruct (verify _ _ _) as [[]|]; try done.
      destruct (decide _); [done|]. by destruct (receive _ _ _).
  - intros Hfull verify' m' proof' newRoot' commitment'.
    rewrite deposit_cases. rewrite bool_decide_eq_false_2; [done|]. lia.
Qed.

(** X8.  A proof goes stale with the root.  If the verifier turns a proof down
    against every list of public inputs that does not start with the root
    the proof was built for, then once the ledger's root is another one,
    neither [deposit] nor [withdraw] accepts that proof: the call reverts
    and the state stays as it was. *)
Theorem stale_root_rejected proof builtFor m newRoot commitment nullifier s :
  (forall verifier inputs,
     head inputs <> Some builtFor -> verify verifier proof inputs = Some false) ->
  currentRoot s <> builtFor ->
  LedgerLog.succeeded
    (call (Whirlwind.deposit verify m proof newRoot commitment) s) = false /\
  LedgerLog.succeeded
    (call (Whirlwind.withdraw verify receive m proof nullifier) s) = false /\
  Ledger.step verify receive s (Ledger.CallDeposit m proof newRoot commitment)
    = s /\
  Ledger.step verify receive s (Ledger.CallWithdraw m proof nullifier) = s.
Proof.
  intros Hsound Hstale.
  assert (Hd : LedgerLog.succeeded
                 (call (Whirlwind.deposit verify m proof newRoot commitment) s)
               = false).
  { rewrite deposit_cases. repeat (case_bool_decide; [|done]). cbv zeta.
    rewrite Hsound; [done|]. cbn. congruence. }
  assert (Hw : LedgerLog.succeeded
                 (call (Whirlwind.withdraw verify receive m proof nullifier) s)
               = false).
  { rewrite withdraw_cases. destruct (decide (value _ = 0)); [|done]. destruct (used _ _); [done|]. cbv zeta.
    rewrite Hsound; [done|]. cbn. congruence. }
  split_and!; try done.
  - pose proof (step_deposit m proof newRoot commitment s) as Hc.
    cbv zeta in Hc. cbn [Ledger.exec] in Hc. rewrite Hd in Hc. apply Hc.
  - pose proof (step_withdraw m proof nullifier s) as Hc.
    cbv zeta in Hc. cbn [Ledger.exec] in Hc. rewrite Hw in Hc. apply Hc.
Qed.

(** X9.  A payout that cannot be made undoes the withdrawal.  When the contract
    holds less than the unit amount, or the recipient refuses the payment,
    [withdraw] reverts even with a valid proof, and the nullifier is as
    unused as before. *)
Theorem failed_payout_reverts m proof nullifier s :
  balance s < ether_0_1 \/
  receive (sender m) ether_0_1 (set_usedNullifiers nullifier true s) = false ->
  LedgerLog.succeeded
    (call (Whirlwind.withdraw verify receive m proof nullifier) s) = false /\
  Ledger.step verify receive s (Ledger.CallWithdraw m proof nullifier) = s.
Proof.
  intros Hfail.
  assert (Hw : LedgerLog.succeeded
                 (call (Whirlwind.withdraw verify receive m proof nullifier) s)
               = false).
  { rewrite withdraw_cases. destruct (decide (value _ = 0)); [|done]. destruct (used _ _); [done|]. cbv zeta.
    destruct (verify _ _ _) as [[]|]; try done.
    destruct (decide _) as [|Hb]; [done|].
    destruct Hfail as [Hfail | ->]; [|done].
    cbn [set_usedNullifiers balance] in Hb. lia. }
  split; [done|].
  pose proof (step_withdraw m proof nullifier s) as Hc.
  cbv zeta in Hc. cbn [Ledger.exec] in Hc. rewrite Hw in Hc. apply Hc.
Qed.

End LedgerRuns.

Lemma capacity_from_constructor_witness :
  Sol.maxDeposits
    (Ledger.run Spec.accept_all Spec.receive_all
       [Ledger.CallDeposit Spec.depositor [] 200%Z 7%Z]
       (Sol.mkState 11 12 0 (2 ^ 8) ∅ 100 77 0)%Z) = (2 ^ 8)%Z /\
  Sol.depositIndex
    (Ledger.run Spec.accept_all Spec.receive_all
       [Ledger.CallDeposit Spec.depositor [] 200%Z 7%Z]
       (Sol.mkState 11 12 0 (2 ^ 8) ∅ 100 77 0)%Z)
    = Z.of_nat
        (LedgerLog.deposits_accepted Spec.accept_all Spec.receive_all
           [Ledger.CallDeposit Spec.depositor [] 200%Z 7%Z]
           (Sol.mkState 11 12 0 (2 ^ 8) ∅ 100 77 0)%Z) /\
  (Sol.depositIndex
     (Ledger.run Spec.accept_all Spec.receive_all
        [Ledger.CallDeposit Spec.depositor [] 200%Z 7%Z]
        (Sol.mkState 11 12 0 (2 ^ 8) ∅ 100 77 0)%Z) <= 2 ^ 8)%Z /\
  (forall c code attempted,
     Ledger.exec Spec.accept_all Spec.receive_all c
       (Ledger.run Spec.accept_all Spec.receive_all
          [Ledger.CallDeposit Spec.depositor [] 200%Z 7%Z]
          (Sol.mkState 11 12 0 (2 ^ 8) ∅ 100 77 0)%Z)
     <> Sol.Revert (Sol.Panic code) attempted) /\
  (Sol.depositIndex
     (Ledger.run Spec.accept_all Spec.receive_all
        [Ledger.CallDeposit Spec.depositor [] 200%Z 7%Z]
        (Sol.mkState 11 12 0 (2 ^ 8) ∅ 100 77 0)%Z) = (2 ^ 8)%Z ->
   forall verify' m' proof' newRoot' commitment',
     Sol.call (Whirlwind.deposit verify' m' proof' newRoot' commitment')
       (Ledger.run Spec.accept_all Spec.receive_all
          [Ledger.CallDeposit Spec.depositor [] 200%Z 7%Z]
          (Sol.mkState 11 12 0 (2 ^ 8) ∅ 100 77 0)%Z)
     = Sol.Revert (Sol.Reason "Deposit limit reached") []).
Proof.
  apply (capacity_from_constructor Spec.accept_all Spec.receive_all
           (Sol.mkMsg 77 0)%Z 11%Z 12%Z 8%Z 100%Z); [reflexivity|lia].
Defined.

Lemma balance_accounting_witness :
  Sol.balance
    (Ledger.run Spec.accept_all Spec.receive_all
       [Ledger.CallDeposit Spec.depositor [] 200%Z 7%Z;
        Ledger.CallWithdraw Spec.caller [] 5%Z] Spec.demo_state)
  = (Sol.balance Spec.demo_state
     + Sol.ether_0_1
       * Z.of_nat
           (LedgerLog.deposits_accepted Spec.accept_all Spec.receive_all
              [Ledger.CallDeposit Spec.depositor [] 200%Z 7%Z;
               Ledger.CallWithdraw Spec.caller [] 5%Z] Spec.demo_state)
     - Sol.ether_0_1
       * Z.of_nat
           (LedgerLog.withdrawals_accepted Spec.accept_all Spec.receive_all
              [Ledger.CallDeposit Spec.depositor [] 200%Z 7%Z;
               Ledger.CallWithdraw Spec.caller [] 5%Z] Spec.demo_state))%Z
  /\ (0 <= Sol.balance
             (Ledger.run Spec.accept_all Spec.receive_all
                [Ledger.CallDeposit Spec.depositor [] 200%Z 7%Z;
                 Ledger.CallWithdraw Spec.caller [] 5%Z] Spec.demo_state))%Z.
Proof.
  apply (balance_accounting Spec.accept_all Spec.receive_all). vm_compute.
  discriminate.
Defined.

Lemma stale_root_rejected_witness :
  LedgerLog.succeeded
    (Sol.call
       (Whirlwind.deposit (Spec.accept_only [100; 200; 7; 0]%Z)
          Spec.depositor [] 200%Z 7%Z)
       (Sol.set_currentRoot 555%Z Spec.demo_state)) = false /\
  LedgerLog.succeeded
    (Sol.call
       (Whirlwind.withdraw (Spec.accept_only [100; 200; 7; 0]%Z)
          Spec.receive_all Spec.depositor [] 5%Z)
       (Sol.set_currentRoot 555%Z Spec.demo_state)) = false /\
  Ledger.step (Spec.accept_only [100; 200; 7; 0]%Z) Spec.receive_all
    (Sol.set_currentRoot 555%Z Spec.demo_state)
    (Ledger.CallDeposit Spec.depositor [] 200%Z 7%Z)
  = Sol.set_currentRoot 555%Z Spec.demo_state /\
  Ledger.step (Spec.accept_only [100; 200; 7; 0]%Z) Spec.receive_all
    (Sol.set_currentRoot 555%Z Spec.demo_state)
    (Ledger.CallWithdraw Spec.depositor [] 5%Z)
  = Sol.set_currentRoot 555%Z Spec.demo_state.
Proof.
  apply (stale_root_rejected (Spec.accept_only [100; 200; 7; 0]%Z)
           Spec.receive_all [] 100%Z).
  - intros verifier inputs Hhead. unfold Spec.accept_only.
    rewrite bool_decide_eq_false_2; [reflexivity|].
    intros ->. apply Hhead. reflexivity.
  - discriminate.
Defined.

Lemma failed_payout_reverts_witness :
  LedgerLog.succeeded
    (Sol.call
       (Whirlwind.withdraw Spec.accept_all Spec.receive_all Spec.caller [] 5%Z)
       (Sol.set_balance 0%Z Spec.demo_state)) = false /\
  Ledger.step Spec.accept_all Spec.receive_all
    (Sol.set_balance 0%Z Spec.demo_state)
    (Ledger.CallWithdraw Spec.caller [] 5%Z)
  = Sol.set_balance 0%Z Spec.demo_state.
Proof.
  apply (failed_payout_reverts Spec.accept_all Spec.receive_all).
  left. reflexivity.
Defined.

Lemma withdraw_spec_witness :
  exists mch,
    Sol.call
      (Whirlwind.withdraw Spec.accept_all Spec.receive_all Spec.caller [] 5%Z)
      Spec.demo_state = Sol.Success tt mch /\
    Sol.used (Sol.st mch) 5%Z = true /\
    (forall k, k <> 5%Z -> Sol.used (Sol.st mch) k = Sol.used Spec.demo_state k) /\
    Sol.balance (Sol.st mch)
      = (Sol.balance Spec.demo_state - Sol.ether_0_1)%Z /\
    Sol.currentRoot (Sol.st mch) = Sol.currentRoot Spec.demo_state /\
    Sol.depositIndex (Sol.st mch) = Sol.depositIndex Spec.demo_state /\
    Sol.trace mch
      = [Sol.CallVerify (Sol.withdrawVerifier Spec.demo_state) []
           [Sol.currentRoot Spec.demo_state; 5%Z];
         Sol.SStoreUsedNullifiers 5%Z true;
         Sol.Emit (Sol.Withdraw (Sol.sender Spec.caller) 5%Z);
         Sol.Transfer (Sol.sender Spec.caller) Sol.ether_0_1] /\
    forall sent, sent <> 0%Z ->
      Sol.call
        (Whirlwind.withdraw Spec.accept_all Spec.receive_all
           (Sol.mkMsg (Sol.sender Spec.caller) sent) [] 5%Z)
        Spec.demo_state
      = Sol.Revert Sol.NotPayable [].
Proof.
  apply (withdraw_spec Spec.accept_all Spec.receive_all Spec.caller [] 5%Z
           Spec.demo_state); try reflexivity.
  vm_compute. discriminate.
Defined.

Lemma deposit_spec_witness :
  exists mch,
    Sol.call (Whirlwind.deposit Spec.accept_all Spec.depositor [] 200%Z 7%Z)
      Spec.demo_state = Sol.Success tt mch /\
    Sol.currentRoot (Sol.st mch) = 200%Z /\
    Sol.depositIndex (Sol.st mch) = (Sol.depositIndex Spec.demo_state + 1)%Z /\
    Sol.usedNullifiers (Sol.st mch) = Sol.usedNullifiers Spec.demo_state /\
    Sol.balance (Sol.st mch) = (Sol.balance Spec.demo_state + Sol.ether_0_1)%Z /\
    Sol.trace mch
      = [Sol.CallVerify (Sol.depositVerifier Spec.demo_state) []
           [Sol.currentRoot Spec.demo_state; 200%Z; 7%Z;
            Sol.depositIndex Spec.demo_state];
         Sol.SStoreCurrentRoot 200%Z;
         Sol.Emit (Sol.Deposit 200%Z 7%Z (Sol.depositIndex Spec.demo_state));
         Sol.SStoreDepositIndex (Sol.depositIndex Spec.demo_state + 1)%Z].
Proof.
  apply (deposit_spec Spec.accept_all Spec.depositor [] 200%Z 7%Z
           Spec.demo_state).
  - reflexivity.
  - vm_compute. discriminate.
  - reflexivity.
Defined.

(** ** The contract under hw5/contracts never looks at its root *)

Section Hw5Root.
Import Sol.
Local Open Scope Z_scope.
Variable verify : address -> bytes -> bytes -> option bool.

(** X10.  In hw5/contracts/whirlwind.sol nothing reads [currentRoot]: whether a
    [deposit] or a [withdraw] is accepted, and what the verifier is asked,
    is the same whatever root the ledger holds.  (The recipient is taken to
    decide on the address and the amount.) *)
Theorem hw5_acceptance_ignores_root (accepts : address -> Z -> bool)
    m proof root newRoot commitment nullifier s r :
  LedgerLog.succeeded
    (call (WhirlwindHw5.deposit verify m proof newRoot commitment)
       (set_currentRoot r s))
  = LedgerLog.succeeded
      (call (WhirlwindHw5.deposit verify m proof newRoot commitment) s) /\
  LedgerLog.succeeded
    (call (WhirlwindHw5.withdraw verify (fun a v _ => accepts a v)
             m proof root nullifier) (set_currentRoot r s))
  = LedgerLog.succeeded
      (call (WhirlwindHw5.withdraw verify (fun a v _ => accepts a v)
               m proof root nullifier) s) /\
  (forall mch mch',
     call (WhirlwindHw5.withdraw verify (fun a v _ => accepts a v)
             m proof root nullifier) (set_currentRoot r s) = Success tt mch ->
     call (WhirlwindHw5.withdraw verify (fun a v _ => accepts a v)
             m proof root nullifier) s = Success tt mch' ->
     trace mch = trace mch').
Proof.
  rewrite !deposit_hw5_cases, !withdraw_hw5_cases.
  cbn [set_currentRoot depositIndex maxDeposits depositVerifier
       withdrawVerifier balance].
  change (used (set_currentRoot r s) nullifier) with (used s nullifier).
  split_and!.
  - repeat (case_bool_decide; [|done]). cbv zeta.
    destruct (verify _ _ _) as [[]|]; try done; by destruct (decide _).
  - destruct (decide (value m = 0)); [|done].
    destruct (used s nullifier); [done|]. cbv zeta.
    destruct (verify _ _ _) as [[]|]; try done.
    cbn [set_usedNullifiers balance].
    destruct (decide _); try done; by destruct (accepts _ _).
  - intros mch mch'. destruct (decide (value m = 0)); [|done].
    destruct (used s nullifier); [done|]. cbv zeta.
    destruct (verify _ _ _) as [[]|]; try done.
    cbn [set_usedNullifiers balance].
    destruct (decide _); [done|]. destruct (accepts _ _); [|done].
    by intros [= <-] [= <-].
Qed.

End Hw5Root.

(** ** Bit decomposition and the circuits' witnesses *)

Section CircuitFacts.
Variable pedersen_hash : list Fr -> Fr.

Lemma le_bits_recompose (n : nat) :
  forall x : N,
  (x < 2 ^ N.of_nat n)%N ->
  Reference.from_le_bits
    (map (fun i => N.testbit x (N.of_nat i)) (seq 0 n)) = x.
Proof.
  induction n as [|n IH]; intros x Hx.
  - simpl in *. lia.
  - cbn [seq map Reference.from_le_bits]. rewrite <- seq_shift, map_map.
    rewrite (map_ext _ (fun i => N.testbit (x / 2) (N.of_nat i))).
    2:{ intros i. rewrite Nnat.Nat2N.inj_succ. symmetry. apply N.div2_bits. }
    rewrite IH.
    + rewrite N.bit0_mod. symmetry. rewrite N.add_comm.
      apply N.div_mod. lia.
    + apply N.Div0.div_lt_upper_bound.
      rewrite Nnat.Nat2N.inj_succ, N.pow_succ_r' in Hx. lia.
Qed.

(** [to_le_bits::<n>] fails exactly on the values that do not fit in [n]
    bits; when it succeeds it returns [n] bits, and they recompose, least
    significant first, to the value. *)
Theorem to_le_bits_roundtrip (n : nat) (x : Fr) :
  match Noir.to_le_bits n x with
  | Some bits =>
      (x < 2 ^ N.of_nat n)%N /\ length bits = n /\
      Reference.from_le_bits bits = x
  | None => (2 ^ N.of_nat n <= x)%N
  end.
Proof.
  unfold Noir.to_le_bits. destruct (decide _) as [Hx|Hx]; [|lia].
  split_and!; [done|by rewrite length_map, length_seq|].
  by apply le_bits_recompose.
Qed.

(** X11.  Whatever satisfies deposit.nr also satisfies withdraw.nr: if the deposit
    circuit accepts [(id, r, oldPath)] for
    [(oldRoot, newRoot, commitment, index)], then the commitment is the hash
    of [id] and [r], the index is below [2^8], and the withdraw circuit
    accepts [(r, index, oldPath)] for [(newRoot, id)]. *)
Theorem deposit_witness_withdraws id r oldPath oldRoot newRoot commitment index :
  DepositCircuit.main pedersen_hash id r oldPath oldRoot newRoot commitment index
    = true ->
  commitment = pedersen_hash [id; r] /\
  (index < 2 ^ 8)%N /\
  WithdrawCircuit.main pedersen_hash r index oldPath newRoot id = true.
Proof.
  unfold DepositCircuit.main, WithdrawCircuit.main.
  intros [Hc Hrest]%andb_prop. apply bool_decide_eq_true_1 in Hc.
  unfold Noir.to_le_bits in *.
  destruct (decide (index < 2 ^ N.of_nat 8)%N) as [Hindex|]; [|done].
  apply andb_prop in Hrest as [_ Hnew]. rewrite Hc. done.
Qed.

End CircuitFacts.

Lemma deposit_witness_withdraws_witness :
  Spec.demo_hash [5; 6]%N = Spec.demo_hash [5; 6]%N /\
  (3 < 2 ^ 8)%N /\
  WithdrawCircuit.main Spec.demo_hash 6%N 3%N [11; 12; 13; 14; 15; 16; 17; 18]%N
    (Noir.walk Spec.demo_hash 8
       [true; true; false; false; false; false; false; false]
       [11; 12; 13; 14; 15; 16; 17; 18]%N (Spec.demo_hash [5; 6]%N))
    5%N = true.
Proof.
  apply (deposit_witness_withdraws Spec.demo_hash 5%N 6%N
           [11; 12; 13; 14; 15; 16; 17; 18]%N
           (Noir.walk Spec.demo_hash 8
              [true; true; false; false; false; false; false; false]
              [11; 12; 13; 14; 15; 16; 17; 18]%N DepositCircuit.empty_leaf)).
  vm_compute. reflexivity.
Defined.

(** ** The tree as the list of its leaves *)

Section TreeAsList.
Variable pedersen : list Fr -> Fr.

(** Replacing a leaf keeps the tree well formed. *)
Lemma update_replace_wf (this : MerkleTree.t) (k : nat) (leaf : Fr) :
  Spec.wf pedersen this ->
  k < MerkleTree.totalLeaves this ->
  exists this',
    MerkleTree.update k leaf false this = (Ok tt, this') /\
    Spec.wf pedersen this' /\
    MerkleTree.levels this' = MerkleTree.levels this /\
    MerkleTree.totalLeaves this' = MerkleTree.totalLeaves this /\
    MerkleTree.storage this' !! indexToKey 0 k = Some leaf /\
    forall j, j <> k ->
      MerkleTree.storage this' !! indexToKey 0 j
      = MerkleTree.storage this !! indexToKey 0 j.
Proof.
  intros Hwf Hk.
  set (D := MerkleTree.levels this) in *.
  assert (Hz : forall l, l < MerkleTree.levels this ->
                         is_Some (MerkleTree.zeros this !! l)).
  { intros l Hl. apply (wf_ready pedersen this Hwf). lia. }
  assert (Hcap : k < 2 ^ MerkleTree.levels this).
  { pose proof (Spec.wf_count _ _ Hwf). lia. }
  destruct (update_in_range pedersen this k leaf false (Spec.wf_bb _ _ Hwf) Hz
              Hk Hcap) as (m' & Hupd & Hlook).
  fold D in Hlook.
  set (pv := Spec.path_value pedersen (MerkleTree.node this) k leaf) in *.
  eexists. split; [exact Hupd|].
  unfold MerkleTree.set_storage.
  cbn [MerkleTree.levels MerkleTree.storage MerkleTree.zeros
       MerkleTree.totalLeaves MerkleTree.bb].
  assert (Hnode : forall l j,
    MerkleTree.node (MerkleTree.mk D m' (MerkleTree.zeros this)
                       (MerkleTree.totalLeaves this) (MerkleTree.bb this)) l j
    = if decide (l <= D /\ j = k / 2 ^ l) then Some (pv l)
      else MerkleTree.node this l j).
  { intros l j. unfold MerkleTree.node. cbn [MerkleTree.storage MerkleTree.zeros].
    rewrite Hlook. by case_decide. }
  split; [|split_and!].
  - split; cbn [MerkleTree.levels MerkleTree.storage MerkleTree.zeros
                MerkleTree.totalLeaves MerkleTree.bb].
    + apply Hwf.
    + apply Hwf.
    + apply Hwf.
    + intros j. rewrite Hlook, Nat.pow_0_r, Nat.div_1_r.
      pose proof (Spec.wf_leaves _ _ Hwf j) as Hj.
      destruct (decide (0 <= D /\ j = k)) as [[_ ->]|Hc]; [|done].
      split; [done|eauto].
    + intros l j Hl. rewrite !Hlook.
      destruct (decide (S l <= D /\ j / 2 = k / 2 ^ S l)) as [|Hp]; [eauto|].
      destruct (decide (l <= D /\ j = k / 2 ^ l)) as [[_ ->]|Hc].
      * exfalso. apply Hp. split; [unfold D; lia|by rewrite div_pow2_succ].
      * by apply (Spec.wf_up _ _ Hwf).
    + intros l p v Hl. rewrite Hlook.
      pose proof (children (k / 2 ^ l)) as Hch.
      pose proof (div_pow2_succ k l) as Hdiv.
      destruct (node_is_Some this l (Spec.sibling (k / 2 ^ l)) (Hz l Hl))
        as [s Hs].
      destruct (decide (S l <= D /\ p = k / 2 ^ S l)) as [[_ ->]|Hp].
      * intros [= <-].
        assert (Hpv : pv (S l) =
                      if decide (k / 2 ^ l mod 2 = 0)
                      then pedersen [pv l; s] else pedersen [s; pv l]).
        { unfold pv. simpl. by rewrite Hs. }
        rewrite Hpv, <- Hdiv.
        pose proof (sibling_ne (k / 2 ^ l)) as Hne.
        assert (Hon : MerkleTree.node
                        (MerkleTree.mk D m' (MerkleTree.zeros this)
                           (MerkleTree.totalLeaves this) (MerkleTree.bb this))
                        l (k / 2 ^ l) = Some (pv l)).
        { rewrite Hnode. by rewrite decide_True by (split; [unfold D; lia|done]). }
        assert (Hoff : MerkleTree.node
                        (MerkleTree.mk D m' (MerkleTree.zeros this)
                           (MerkleTree.totalLeaves this) (MerkleTree.bb this))
                        l (Spec.sibling (k / 2 ^ l)) = Some s).
        { rewrite Hnode. by rewrite decide_False by (intros [_ ?]; done). }
        destruct Hch as [(Hpar & H0 & H1)|(Hpar & H0 & H1)];
          rewrite H1, H0.
        -- exists (pv l), s. by rewrite decide_True by done.
        -- exists s, (pv l). by rewrite decide_False by lia.
      * intros Hv.
        destruct (Spec.wf_hash _ _ Hwf l p v Hl Hv) as (a & b & Ha & Hb & ->).
        exists a, b.
        assert (Hpne : p <> k / 2 ^ l / 2).
        { intros ->. apply Hp. split; [unfold D; lia|done]. }
        rewrite !Hnode, !decide_False; [done|..];
          intros [_ He]; apply Hpne; rewrite <- He;
          first [ apply (Nat.div_unique _ 2 _ 1); lia
                | apply (Nat.div_unique _ 2 _ 0); lia ].
  - done.
  - done.
  - rewrite Hlook, Nat.pow_0_r, Nat.div_1_r.
    by rewrite decide_True by (split; [lia|done]).
  - intros j Hj. rewrite Hlook, Nat.pow_0_r, Nat.div_1_r.
    by rewrite decide_False by (intros [_ ?]; done).
Qed.

Lemma holds_length (this : MerkleTree.t) (leaves : list Fr) :
  Reference.holds pedersen this leaves ->
  MerkleTree.totalLeaves this = length leaves.
Proof.
  intros [Hwf Hl].
  assert (H : forall j, j < MerkleTree.totalLeaves this <-> j < length leaves).
  { intros j. rewrite <- (Spec.wf_leaves _ _ Hwf), Hl.
    apply lookup_lt_is_Some. }
  destruct (Nat.lt_trichotomy (MerkleTree.totalLeaves this) (length leaves))
    as [Hlt|[?|Hgt]]; [|done|].
  - apply H in Hlt. lia.
  - apply H in Hgt. lia.
Qed.

(** Every node holds the value the textbook tree has there. *)
Lemma holds_node (this : MerkleTree.t) (leaves : list Fr) :
  Reference.holds pedersen this leaves ->
  forall l j, l <= MerkleTree.levels this ->
  MerkleTree.node this l j = Some (Reference.subtree pedersen leaves l j).
Proof.
  intros Hholds. pose proof Hholds as [Hwf Hl].
  induction l as [|l IH]; intros j Hle.
  - unfold MerkleTree.node. rewrite Hl. cbn [Reference.subtree].
    destruct (leaves !! j); [done|]. cbn.
    by rewrite (Spec.wf_zeros _ _ Hwf) by lia.
  - destruct (wf_consistent pedersen this Hwf l j ltac:(lia))
      as (a & b & Ha & Hb & ->).
    rewrite IH in Ha, Hb by lia. injection Ha as <-. injection Hb as <-. done.
Qed.

Lemma holds_initial (D : nat) : Reference.holds pedersen (Spec.initial pedersen D) [].
Proof.
  split; [apply initial_wf|]. intros j. unfold Spec.initial.
  cbn [MerkleTree.storage]. by rewrite lookup_empty, lookup_nil.
Qed.

Lemma holds_root (this : MerkleTree.t) (leaves : list Fr) :
  Reference.holds pedersen this leaves ->
  MerkleTree.root this
  = Some (Reference.subtree pedersen leaves (MerkleTree.levels this) 0).
Proof.
  intros Hholds.
  by rewrite <- (holds_node this leaves Hholds (MerkleTree.levels this) 0).
Qed.

Lemma holds_insert (this : MerkleTree.t) (leaves : list Fr) (leaf : Fr) :
  Reference.holds pedersen this leaves ->
  length leaves < 2 ^ MerkleTree.levels this ->
  exists this',
    MerkleTree.insert leaf this = (Ok tt, this') /\
    Reference.holds pedersen this' (leaves ++ [leaf]) /\
    MerkleTree.levels this' = MerkleTree.levels this.
Proof.
  intros Hholds Hroom. pose proof (holds_length _ _ Hholds) as Hlen.
  destruct Hholds as [Hwf Hl].
  destruct (insert_wf pedersen this leaf Hwf ltac:(lia))
    as (this' & Hins & Hwf' & Hlev & Htl & Hnew & Hold).
  exists this'. split_and!; try done.
  split; [done|]. intros j.
  destruct (decide (j = MerkleTree.totalLeaves this)) as [->|Hne].
  - rewrite Hnew, Hlen. symmetry. apply list_lookup_middle. done.
  - rewrite Hold, Hl by done.
    destruct (decide (j < length leaves)).
    + by rewrite lookup_app_l.
    + rewrite !lookup_ge_None_2; [done|..].
      * rewrite length_app. simpl. lia.
      * lia.
Qed.

(** X12.  [insert] appends to the list of leaves: on a tree that holds [leaves]
    and has room, [insert(leaf)] succeeds, the tree then holds
    [leaves ++ [leaf]], and its root is the textbook Merkle root of that
    list padded with zero leaves. *)
Theorem insert_appends_leaf (this : MerkleTree.t) (leaves : list Fr) (leaf : Fr) :
  Reference.holds pedersen this leaves ->
  length leaves < 2 ^ MerkleTree.levels this ->
  exists this',
    MerkleTree.insert leaf this = (Ok tt, this') /\
    Reference.holds pedersen this' (leaves ++ [leaf]) /\
    MerkleTree.levels this' = MerkleTree.levels this /\
    MerkleTree.totalLeaves this' = length leaves + 1 /\
    MerkleTree.root this'
    = Some (Reference.subtree pedersen (leaves ++ [leaf])
              (MerkleTree.levels this) 0).
Proof.
  intros Hholds Hroom.
  destruct (holds_insert this leaves leaf Hholds Hroom)
    as (this' & Hins & Hholds' & Hlev).
  exists this'. split_and!; try done.
  - rewrite (holds_length _ _ Hholds'), length_app. done.
  - rewrite <- Hlev. by apply holds_root.
Qed.

(** X13.  [update] without [isInsert] replaces in the list of leaves: for an
    index below [totalLeaves] it succeeds, the tree then holds the list with
    that one leaf replaced, the number of leaves is unchanged, and the root
    is the textbook Merkle root of the new list. *)
Theorem update_replaces_leaf (this : MerkleTree.t) (leaves : list Fr)
    (index : nat) (leaf : Fr) :
  Reference.holds pedersen this leaves ->
  index < length leaves ->
  exists this',
    MerkleTree.update index leaf false this = (Ok tt, this') /\
    Reference.holds pedersen this' (<[index := leaf]> leaves) /\
    MerkleTree.levels this' = MerkleTree.levels this /\
    MerkleTree.totalLeaves this' = length leaves /\
    MerkleTree.root this'
    = Some (Reference.subtree pedersen (<[index := leaf]> leaves)
              (MerkleTree.levels this) 0).
Proof.
  intros Hholds Hidx. pose proof (holds_length _ _ Hholds) as Hlen.
  destruct Hholds as [Hwf Hl].
  destruct (update_replace_wf this index leaf Hwf ltac:(lia))
    as (this' & Hupd & Hwf' & Hlev & Htl & Hnew & Hold).
  assert (Hholds' : Reference.holds pedersen this' (<[index := leaf]> leaves)).
  { split; [done|]. intros j.
    destruct (decide (j = index)) as [->|Hne].
    - by rewrite Hnew, list_lookup_insert_eq.
    - by rewrite Hold, Hl, list_lookup_insert_ne. }
  exists this'. split_and!; try done.
  - lia.
  - rewrite <- Hlev. by apply holds_root.
Qed.

Lemma holds_initialize (D : nat) (leaves : list Fr) :
  length leaves <= 2 ^ D ->
  exists this,
    MerkleTree.initialize pedersen leaves (MerkleTree.new D) = (Ok tt, this) /\
    Reference.holds pedersen this leaves /\
    MerkleTree.levels this = D.
Proof.
  intros Hlen. rewrite initialize_eq.
  destruct (insertAll_wf pedersen leaves (Spec.initial pedersen D)
              (initial_wf pedersen D) ltac:(simpl; lia))
    as (this & Hall & Hwf & Hlev & Htl & Hnew & _).
  change (MerkleTree.levels (Spec.initial pedersen D)) with D in Hlev.
  exists this. split_and!; try done.
  split; [done|]. intros j. cbn in Hnew, Htl.
  destruct (leaves !! j) as [x|] eqn:Hj.
  - by apply Hnew.
  - apply eq_None_not_Some. rewrite (Spec.wf_leaves _ _ Hwf), Htl.
    apply lookup_ge_None in Hj. lia.
Qed.

(** X14.  [initialize(leaves)] builds the textbook tree: with at most [2^D] leaves
    it succeeds on a new tree of depth [D], the tree holds exactly those
    leaves at the indices [0, 1, ...], and its root is the Merkle root of the
    list padded with zero leaves -- a function of the leaves alone. *)
Theorem initialize_builds_merkle_tree (D : nat) (leaves : list Fr) :
  length leaves <= 2 ^ D ->
  exists this,
    MerkleTree.initialize pedersen leaves (MerkleTree.new D) = (Ok tt, this) /\
    Reference.holds pedersen this leaves /\
    MerkleTree.levels this = D /\
    MerkleTree.totalLeaves this = length leaves /\
    MerkleTree.root this = Some (Reference.subtree pedersen leaves D 0).
Proof.
  intros Hlen.
  destruct (holds_initialize D leaves Hlen) as (this & Hinit & Hholds & Hlev).
  exists this. split_and!; try done.
  - by apply holds_length.
  - rewrite <- Hlev. by apply holds_root.
Qed.

Lemma parity_of_bit (x : nat) :
  x mod 2 = if bool_decide (x mod 2 = 1) then 1 else 0.
Proof.
  pose proof (Nat.mod_upper_bound x 2). case_bool_decide; lia.
Qed.

(** X15.  [proof] is defined for every slot, filled or not.  On a tree that holds
    [leaves], for every index below [2^levels]: the proof's leaf is the leaf
    at that index, or the zero leaf if the slot is still empty; its path
    elements are the values the textbook tree has at the siblings; its path
    indices are the little-endian bits of the index; and folding it gives
    the root. *)
Theorem proof_of_any_slot (this : MerkleTree.t) (leaves : list Fr) (i : nat) :
  Reference.holds pedersen this leaves ->
  i < 2 ^ MerkleTree.levels this ->
  exists p bits,
    MerkleTree.proof this i = Ok p /\
    MerkleProof.leaf p = Some (default MerkleTree.zeroValue (leaves !! i)) /\
    MerkleProof.root p = MerkleTree.root this /\
    MerkleProof.pathElements p
    = map (fun l => Some (Reference.subtree pedersen leaves l
                            (Spec.sibling (i / 2 ^ l))))
        (seq 0 (MerkleTree.levels this)) /\
    Noir.to_le_bits (MerkleTree.levels this) (NoirCircuitTomlGenerator.numToFr i)
    = Some bits /\
    MerkleProof.pathIndices p = map (fun b : bool => if b then 1 else 0) bits /\
    Spec.recompute_root pedersen (MerkleProof.leaf p)
      (MerkleProof.pathElements p) (MerkleProof.pathIndices p)
    = MerkleTree.root this.
Proof.
  intros Hholds Hi. pose proof Hholds as [Hwf Hl].
  eexists _, _. rewrite proof_eq.
  split; [reflexivity|].
  cbn [MerkleProof.leaf MerkleProof.root MerkleProof.pathElements
       MerkleProof.pathIndices].
  split_and!.
  - by rewrite (holds_node this leaves Hholds 0 i) by lia.
  - done.
  - apply map_ext_in. intros l Hin%in_seq.
    apply (holds_node this leaves Hholds). lia.
  - by apply to_le_bits_of_nat.
  - rewrite map_map. apply map_ext. intros l. apply parity_of_bit.
  - pose proof (recompute_nodes pedersen this i Hwf (MerkleTree.levels this) 0
                  ltac:(lia)) as Hrec.
    rewrite Nat.pow_0_r, Nat.div_1_r in Hrec. rewrite Hrec.
    rewrite div_pow2_small by done. done.
Qed.

(** X16.  Nothing is written by a call that throws: [update], [insert] and the
    generator's [deposit] either return normally or leave the object they
    were called on exactly as it was. *)
Theorem failure_changes_nothing (this : MerkleTree.t)
    (generator : NoirCircuitTomlGenerator.t) (index : nat) (leaf id r : Fr)
    (isInsert : bool) :
  ((MerkleTree.update index leaf isInsert this).1 = Ok tt \/
   (MerkleTree.update index leaf isInsert this).2 = this) /\
  ((MerkleTree.insert leaf this).1 = Ok tt \/
   (MerkleTree.insert leaf this).2 = this) /\
  ((NoirCircuitTomlGenerator.deposit id r generator).1 = Ok tt \/
   (NoirCircuitTomlGenerator.deposit id r generator).2 = generator).
Proof.
  assert (Hupd : forall index leaf isInsert,
            (MerkleTree.update index leaf isInsert this).1 = Ok tt \/
            (MerkleTree.update index leaf isInsert this).2 = this).
  { intros index' leaf' isInsert'. unfold MerkleTree.update.
    destruct (negb isInsert' && _); [by right|].
    destruct (isInsert' && _); [by right|].
    destruct (MerkleTree.traverse _ _ _ _) as [[kv cur]|e]; [by left|by right]. }
  assert (Hins : forall this leaf,
            (MerkleTree.insert leaf this).1 = Ok tt \/
            (MerkleTree.insert leaf this).2 = this).
  { clear. intros this leaf. rewrite insert_eq.
    unfold MerkleTree.update.
    destruct (negb true && _); [by right|].
    destruct (true && _); [by right|].
    destruct (MerkleTree.traverse _ _ _ _) as [[kv cur]|e]; [by left|by right]. }
  split_and!; [apply Hupd|apply Hins|].
  unfold NoirCircuitTomlGenerator.deposit.
  destruct (MerkleTree.proof _ _) as [p|e]; [|by right].
  destruct (MerkleTree.bb _) as [h|]; [|by right].
  destruct (Hins (NoirCircuitTomlGenerator.tree generator) (h [id; r]))
    as [Hok|Hsame];
    destruct (MerkleTree.insert _ _) as [[[]|e] tree']; cbn in *;
    try done; try (by left).
  right. rewrite Hsame. by destruct generator.
Qed.

(** X17.  Before [initialize], nothing works and nothing breaks: on a new tree of
    depth at least 1, [root()] is [undefined], [insert] throws a [TypeError]
    and stores nothing; on a new generator, [deposit] and
    [gentoml('deposit')] throw a [TypeError] and record nothing. *)
Theorem use_before_initialize (D : nat) (leaf id r : Fr) :
  0 < D ->
  MerkleTree.root (MerkleTree.new D) = None /\
  MerkleTree.insert leaf (MerkleTree.new D)
    = (Throw TypeError, MerkleTree.new D) /\
  NoirCircuitTomlGenerator.deposit id r NoirCircuitTomlGenerator.new
    = (Throw TypeError, NoirCircuitTomlGenerator.new) /\
  NoirCircuitTomlGenerator.gentoml (NoirCircuitTomlGenerator.Deposit id r)
    NoirCircuitTomlGenerator.new
    = (Throw TypeError, NoirCircuitTomlGenerator.new).
Proof.
  intros HD. split_and!.
  - unfold MerkleTree.root. cbn [MerkleTree.new MerkleTree.storage
      MerkleTree.zeros MerkleTree.levels]. by rewrite lookup_empty.
  - rewrite insert_eq. destruct D as [|D]; [lia|]. done.
  - unfold NoirCircuitTomlGenerator.deposit. by rewrite proof_eq.
  - unfold NoirCircuitTomlGenerator.gentoml. by rewrite proof_eq.
Qed.

End TreeAsList.

Lemma insert_appends_leaf_witness :
  Reference.holds Spec.demo_hash (Spec.initial Spec.demo_hash 1) [] /\
  length ([] : list Fr) < 2 ^ MerkleTree.levels (Spec.initial Spec.demo_hash 1) /\
  exists this',
    MerkleTree.insert 5%N (Spec.initial Spec.demo_hash 1) = (Ok tt, this') /\
    Reference.holds Spec.demo_hash this' ([] ++ [5%N]) /\
    MerkleTree.levels this' = MerkleTree.levels (Spec.initial Spec.demo_hash 1) /\
    MerkleTree.totalLeaves this' = length ([] : list Fr) + 1 /\
    MerkleTree.root this'
    = Some (Reference.subtree Spec.demo_hash ([] ++ [5%N])
              (MerkleTree.levels (Spec.initial Spec.demo_hash 1)) 0).
Proof.
  pose proof (holds_initial Spec.demo_hash 1) as Hholds.
  split; [exact Hholds|]. split; [simpl; lia|].
  apply (insert_appends_leaf Spec.demo_hash _ [] 5%N Hholds). simpl; lia.
Defined.

Lemma update_replaces_leaf_witness :
  exists this,
    MerkleTree.initialize Spec.demo_hash [1; 2]%N (MerkleTree.new 1)
    = (Ok tt, this) /\
    Reference.holds Spec.demo_hash this [1; 2]%N /\
    1 < length [1; 2]%N /\
    exists this',
      MerkleTree.update 1 9%N false this = (Ok tt, this') /\
      Reference.holds Spec.demo_hash this' (<[1 := 9%N]> [1; 2]%N) /\
      MerkleTree.levels this' = MerkleTree.levels this /\
      MerkleTree.totalLeaves this' = length [1; 2]%N /\
      MerkleTree.root this'
      = Some (Reference.subtree Spec.demo_hash (<[1 := 9%N]> [1; 2]%N)
                (MerkleTree.levels this) 0).
Proof.
  destruct (holds_initialize Spec.demo_hash 1 [1; 2]%N ltac:(simpl; lia))
    as (this & Hinit & Hholds & _).
  exists this. split; [exact Hinit|]. split; [exact Hholds|].
  split; [simpl; lia|].
  apply (update_replaces_leaf Spec.demo_hash this [1; 2]%N 1 9%N Hholds).
  simpl; lia.
Defined.

Lemma initialize_builds_merkle_tree_witness :
  length [1; 2; 3]%N <= 2 ^ 2 /\
  exists this,
    MerkleTree.initialize Spec.demo_hash [1; 2; 3]%N (MerkleTree.new 2)
    = (Ok tt, this) /\
    Reference.holds Spec.demo_hash this [1; 2; 3]%N /\
    MerkleTree.levels this = 2 /\
    MerkleTree.totalLeaves this = length [1; 2; 3]%N /\
    MerkleTree.root this
    = Some (Reference.subtree Spec.demo_hash [1; 2; 3]%N 2 0).
Proof.
  split; [simpl; lia|].
  apply (initialize_builds_merkle_tree Spec.demo_hash 2 [1; 2; 3]%N).
  simpl; lia.
Defined.

Lemma proof_of_any_slot_witness :
  exists this,
    MerkleTree.initialize Spec.demo_hash [1; 2; 3]%N (MerkleTree.new 2)
    = (Ok tt, this) /\
    Reference.holds Spec.demo_hash this [1; 2; 3]%N /\
    3 < 2 ^ MerkleTree.levels this /\
    exists p bits,
      MerkleTree.proof this 3 = Ok p /\
      MerkleProof.leaf p
      = Some (default MerkleTree.zeroValue ([1; 2; 3]%N !! 3)) /\
      MerkleProof.root p = MerkleTree.root this /\
      MerkleProof.pathElements p
      = map (fun l => Some (Reference.subtree Spec.demo_hash [1; 2; 3]%N l
                              (Spec.sibling (3 / 2 ^ l))))
          (seq 0 (MerkleTree.levels this)) /\
      Noir.to_le_bits (MerkleTree.levels this)
        (NoirCircuitTomlGenerator.numToFr 3) = Some bits /\
      MerkleProof.pathIndices p = map (fun b : bool => if b then 1 else 0) bits /\
      Spec.recompute_root Spec.demo_hash (MerkleProof.leaf p)
        (MerkleProof.pathElements p) (MerkleProof.pathIndices p)
      = MerkleTree.root this.
Proof.
  destruct (holds_initialize Spec.demo_hash 2 [1; 2; 3]%N ltac:(simpl; lia))
    as (this & Hinit & Hholds & Hlev).
  exists this. split; [exact Hinit|]. split; [exact Hholds|].
  assert (Hslot : 3 < 2 ^ MerkleTree.levels this) by (rewrite Hlev; simpl; lia).
  split; [exact Hslot|].
  apply (proof_of_any_slot Spec.demo_hash this [1; 2; 3]%N 3 Hholds Hslot).
Defined.

Lemma use_before_initialize_witness :
  0 < 8 /\
  MerkleTree.root (MerkleTree.new 8) = None /\
  MerkleTree.insert 5%N (MerkleTree.new 8)
    = (Throw TypeError, MerkleTree.new 8) /\
  NoirCircuitTomlGenerator.deposit 1%N 2%N NoirCircuitTomlGenerator.new
    = (Throw TypeError, NoirCircuitTomlGenerator.new) /\
  NoirCircuitTomlGenerator.gentoml (NoirCircuitTomlGenerator.Deposit 1%N 2%N)
    NoirCircuitTomlGenerator.new
    = (Throw TypeError, NoirCircuitTomlGenerator.new).
Proof.
  split; [lia|]. apply (use_before_initialize 8 5%N 1%N 2%N). lia.
Defined.

(** ** The generator's records *)

Section GeneratorRecords.

Lemma hex_digit_inj (a b : N) :
  (a < 16)%N -> (b < 16)%N -> hex_digit a = hex_digit b -> a = b.
Proof.
  intros Ha Hb H.
  assert (Ca : (a = 0 \/ a = 1 \/ a = 2 \/ a = 3 \/ a = 4 \/ a = 5 \/ a = 6 \/
               a = 7 \/ a = 8 \/ a = 9 \/ a = 10 \/ a = 11 \/ a = 12 \/
               a = 13 \/ a = 14 \/ a = 15)%N) by lia.
  assert (Cb : (b = 0 \/ b = 1 \/ b = 2 \/ b = 3 \/ b = 4 \/ b = 5 \/ b = 6 \/
               b = 7 \/ b = 8 \/ b = 9 \/ b = 10 \/ b = 11 \/ b = 12 \/
               b = 13 \/ b = 14 \/ b = 15)%N) by lia.
  destruct_or!; subst; first [reflexivity | discriminate H].
Qed.

Lemma hex_padded_inj (d : nat) :
  forall (x y : N) (acc acc' : string),
  String.length acc = String.length acc' ->
  hex_padded d x acc = hex_padded d y acc' ->
  (x mod 16 ^ N.of_nat d = y mod 16 ^ N.of_nat d)%N /\ acc = acc'.
Proof.
  induction d as [|d IH]; intros x y acc acc' Hlen H.
  - cbn in H. split; [|done]. by rewrite !N.mod_1_r.
  - cbn [hex_padded] in H.
    apply IH in H as [Hhigh Hacc]; [|cbn; by rewrite Hlen].
    injection Hacc as Hdigit Hacc. split; [|done].
    apply hex_digit_inj in Hdigit; [|by apply N.mod_upper_bound..].
    rewrite Nnat.Nat2N.inj_succ, N.pow_succ_r'.
    rewrite !N.Div0.mod_mul_r. by rewrite Hdigit, Hhigh.
Qed.

Lemma prefix_0x_inj (s s' : string) : "0x" +:+ s = "0x" +:+ s' -> s = s'.
Proof. cbn [String.append]. intros H. by injection H. Qed.

Lemma Fr_toString_inj (x y : Fr) :
  (x < 2 ^ 53)%N -> (y < 2 ^ 53)%N -> Fr_toString x = Fr_toString y -> x = y.
Proof.
  intros Hx Hy H. unfold Fr_toString in H.
  apply prefix_0x_inj, hex_padded_inj in H as [H _]; [|done].
  assert (Hbig : (2 ^ 53 < 16 ^ N.of_nat 64)%N) by (vm_compute; reflexivity).
  rewrite !N.mod_small in H by lia. done.
Qed.

Lemma build_zeros_storage (n : nat) :
  forall (z : Fr) (this : MerkleTree.t),
  MerkleTree.storage (MerkleTree.build_zeros n z this).2
  = MerkleTree.storage this.
Proof.
  induction n as [|n IH]; intros z this; [done|].
  cbn [MerkleTree.build_zeros]. unfold mbind, M_bind, bind, get, lift, modify.
  destruct (MerkleTree.pedersenHash this (Some z) (Some z)) as [z'|e]; [|done].
  by rewrite IH.
Qed.

Lemma initialize_storage (pedersen : list Fr -> Fr) (this : MerkleTree.t) :
  MerkleTree.storage (MerkleTree.initialize pedersen [] this).2
  = MerkleTree.storage this.
Proof.
  unfold MerkleTree.initialize, mbind, M_bind, bind, modify, get.
  set (t1 := MerkleTree.set_zeros _ _).
  pose proof (build_zeros_storage (MerkleTree.levels t1) MerkleTree.zeroValue t1)
    as Hst.
  destruct (MerkleTree.build_zeros _ _ t1) as [[[]|e] t2]; simpl in *;
    by rewrite Hst.
Qed.

(** Running [init] again leaves the root where it was. *)
Lemma init_keeps_root (pedersen : list Fr -> Fr)
    (this : NoirCircuitTomlGenerator.t) :
  Spec.ready (NoirCircuitTomlGenerator.tree this) ->
  MerkleTree.root
    (NoirCircuitTomlGenerator.tree (NoirCircuitTomlGenerator.init pedersen this).2)
  = MerkleTree.root (NoirCircuitTomlGenerator.tree this).
Proof.
  intros [_ Hz]. unfold NoirCircuitTomlGenerator.init.
  destruct (initialize_frame pedersen (NoirCircuitTomlGenerator.tree this))
    as (_ & Hlev & _ & zs & Hzs).
  pose proof (initialize_storage pedersen (NoirCircuitTomlGenerator.tree this))
    as Hst.
  destruct (MerkleTree.initialize _ _ _) as [res tree']. simpl in *.
  unfold MerkleTree.root. rewrite Hst, Hlev, Hzs.
  destruct (Hz (MerkleTree.levels (NoirCircuitTomlGenerator.tree this))
              ltac:(lia)) as [z Hzl].
  by rewrite (lookup_app_l_Some _ _ _ _ Hzl), Hzl.
Qed.

Lemma all_Some (l : list (option Fr)) :
  (forall x, In x l -> is_Some x) -> exists path, l = map Some path.
Proof.
  induction l as [|x l IH]; intros Hall; [by exists []|].
  destruct (Hall x ltac:(by left)) as [v ->].
  destruct IH as [path ->]; [intros y Hy; apply Hall; by right|].
  by exists (v :: path).
Qed.

Lemma mapToString_Some (path : list Fr) :
  NoirCircuitTomlGenerator.mapToString (map Some path)
  = Ok (map Fr_toString path).
Proof.
  induction path as [|x path IH]; [done|]. simpl. by rewrite IH.
Qed.

(** What a successful [deposit] appends. *)
Lemma deposit_filed (id r : Fr) (r0 : option Fr)
    (this : NoirCircuitTomlGenerator.t) :
  Spec.ready (NoirCircuitTomlGenerator.tree this) ->
  Records.filed r0 this ->
  Records.filed r0 (NoirCircuitTomlGenerator.deposit id r this).2.
Proof.
  intros Hready (Hlen & Hrec & Hchain). pose proof Hready as [[h Hbb] Hz].
  set (tree := NoirCircuitTomlGenerator.tree this) in *.
  destruct (insert_ready tree (h [id; r]) Hready)
    as (tree' & Hins & Hready' & Hlev & Htl).
  destruct (root_is_Some tree' Hready') as [newRoot HnewRoot].
  unfold NoirCircuitTomlGenerator.deposit. fold tree.
  rewrite proof_eq, Hbb, Hins.
  cbn [MerkleProof.pathElements MerkleProof.pathIndices snd].
  unfold Records.filed.
  cbn [NoirCircuitTomlGenerator.deposits NoirCircuitTomlGenerator.tree].
  split_and!.
  - rewrite length_app, Htl. simpl. lia.
  - intros k record Hk.
    destruct (decide (k < length (NoirCircuitTomlGenerator.deposits this)))
      as [Hlt|Hge].
    + rewrite lookup_app_l in Hk by done. by apply Hrec.
    + rewrite lookup_app_r in Hk by lia.
      destruct (k - length (NoirCircuitTomlGenerator.deposits this))
        as [|k'] eqn:Hk'; [|done].
      injection Hk as <-. cbn [DepositRecord.index].
      split; [f_equal; lia|]. split; cbn [DepositRecord.newRoot
        DepositRecord.hashPath]; [by rewrite HnewRoot|].
      apply all_Some. intros x [l [<- Hl]]%in_map_iff. apply in_seq in Hl.
      apply node_is_Some, Hz. lia.
  - rewrite !map_app. cbn [map DepositRecord.newRoot DepositRecord.oldRoot].
    rewrite app_comm_cons, Hchain. by rewrite <- app_assoc.
Qed.

Lemma step_filed (o : NoirCircuitTomlGenerator.op) (r0 : option Fr)
    (this : NoirCircuitTomlGenerator.t) :
  Spec.ready (NoirCircuitTomlGenerator.tree this) ->
  Records.filed r0 this ->
  Records.filed r0 (NoirCircuitTomlGenerator.step o this).
Proof.
  intros Hready Hfiled. destruct o as [pedersen|id r|[id r|index|other]];
    cbn [NoirCircuitTomlGenerator.step].
  - destruct Hfiled as (Hlen & Hrec & Hchain).
    pose proof (init_keeps_root pedersen this Hready) as Hroot.
    unfold NoirCircuitTomlGenerator.init in *.
    destruct (initialize_frame pedersen (NoirCircuitTomlGenerator.tree this))
      as (Htl & _).
    destruct (MerkleTree.initialize _ _ _) as [res tree']. simpl in *.
    unfold Records.filed. simpl. rewrite Hroot, Htl. done.
  - by apply deposit_filed.
  - rewrite gentoml_deposit_state. by apply deposit_filed.
  - unfold NoirCircuitTomlGenerator.gentoml.
    by destruct (find _ _).
  - done.
Qed.

Lemma run_filed (ops : list NoirCircuitTomlGenerator.op) (r0 : option Fr) :
  forall this : NoirCircuitTomlGenerator.t,
  Spec.ready (NoirCircuitTomlGenerator.tree this) ->
  Records.filed r0 this ->
  Records.filed r0 (NoirCircuitTomlGenerator.run ops this).
Proof.
  induction ops as [|o ops IH]; intros this Hready Hfiled; [done|].
  apply IH; [by apply step_ready|by apply step_filed].
Qed.

Lemma init_filed (pedersen : list Fr -> Fr) :
  Records.filed (Some (Spec.zero_root pedersen 8))
    (NoirCircuitTomlGenerator.step (NoirCircuitTomlGenerator.OpInit pedersen)
       NoirCircuitTomlGenerator.new).
Proof.
  cbn [NoirCircuitTomlGenerator.step]. unfold NoirCircuitTomlGenerator.init.
  cbn [NoirCircuitTomlGenerator.new NoirCircuitTomlGenerator.tree].
  rewrite initialize_eq. cbn [MerkleTree.insertAll].
  split_and!; try done.
Qed.

(** Before [init] nothing changes a new generator; after it the tree is
    ready and the records are filed. *)
Lemma run_new_cases (ops : list NoirCircuitTomlGenerator.op) :
  forall this : NoirCircuitTomlGenerator.t,
  this = NoirCircuitTomlGenerator.new \/
    (Spec.ready (NoirCircuitTomlGenerator.tree this) /\
     exists r0, Records.filed r0 this) ->
  NoirCircuitTomlGenerator.run ops this = NoirCircuitTomlGenerator.new \/
    (Spec.ready (NoirCircuitTomlGenerator.tree
                   (NoirCircuitTomlGenerator.run ops this)) /\
     exists r0, Records.filed r0 (NoirCircuitTomlGenerator.run ops this)).
Proof.
  induction ops as [|o ops IH]; intros this Hthis; [done|].
  apply IH. destruct Hthis as [-> | (Hready & r0 & Hfiled)].
  - destruct o as [pedersen|id r|[id r|index|other]].
    + right. split; [apply init_ready|]. eexists. apply init_filed.
    + by left.
    + by left.
    + by left.
    + by left.
  - right. split; [by apply step_ready|]. exists r0. by apply step_filed.
Qed.

Lemma find_by_index (i : nat) (deposits : list DepositRecord.t) :
  (N.of_nat i < 2 ^ 53)%N ->
  forall off,
  off <= i ->
  (forall k record, deposits !! k = Some record ->
     DepositRecord.index record = NoirCircuitTomlGenerator.numToFr (off + k)) ->
  find (fun rec => bool_decide
                     (Fr_toString (DepositRecord.index rec)
                      = Fr_toString (NoirCircuitTomlGenerator.numToFr i)))
       deposits
  = deposits !! (i - off).
Proof.
  intros Hi. induction deposits as [|rec deposits IH]; intros off Hoff Hidx;
    [done|].
  cbn [find]. rewrite (Hidx 0 rec eq_refl), Nat.add_0_r.
  case_bool_decide as Heq.
  - apply Fr_toString_inj in Heq;
      [|unfold NoirCircuitTomlGenerator.numToFr; lia..].
    unfold NoirCircuitTomlGenerator.numToFr in Heq.
    replace (i - off) with 0 by lia. done.
  - assert (off <> i) by (intros ->; done).
    replace (i - off) with (S (i - S off)) by lia.
    rewrite (IH (S off)); [done|lia|].
    intros k record Hk. rewrite (Hidx (S k) record Hk). f_equal. lia.
Qed.

(** X18.  [gentoml('withdraw', index)] looks a deposit up by its position.
    Whatever was run on a new generator, for an index that a JavaScript
    number holds exactly the call changes nothing; if [index] deposits or
    fewer were made it throws [No deposit record found for index ...];
    otherwise it returns the TOML of the deposit made at that position --
    that deposit's [r], [id], sibling path and the root right after it. *)
Theorem gentoml_withdraw_lookup (ops : list NoirCircuitTomlGenerator.op)
    (index : nat) :
  (N.of_nat index < 2 ^ 53)%N ->
  let this := NoirCircuitTomlGenerator.run ops NoirCircuitTomlGenerator.new in
  match NoirCircuitTomlGenerator.deposits this !! index with
  | Some record =>
      exists path root,
        DepositRecord.hashPath record = map Some path /\
        DepositRecord.newRoot record = Some root /\
        DepositRecord.index record = NoirCircuitTomlGenerator.numToFr index /\
        NoirCircuitTomlGenerator.gentoml
          (NoirCircuitTomlGenerator.Withdraw index) this
        = (Ok (Records.withdraw_toml (DepositRecord.r record)
                 (NoirCircuitTomlGenerator.numToFr index) path root
                 (DepositRecord.id record)), this)
  | None =>
      NoirCircuitTomlGenerator.gentoml
        (NoirCircuitTomlGenerator.Withdraw index) this
      = (Throw (Error ("No deposit record found for index " +:+ pretty index)),
         this)
  end.
Proof.
  intros Hindex this.
  assert (Hrec : forall k record,
            NoirCircuitTomlGenerator.deposits this !! k = Some record ->
            DepositRecord.index record = NoirCircuitTomlGenerator.numToFr k /\
            Records.printable record).
  { destruct (run_new_cases ops NoirCircuitTomlGenerator.new ltac:(by left))
      as [Hnew | (_ & r0 & _ & Hrec & _)].
    - intros k record. unfold this. rewrite Hnew. done.
    - done. }
  pose proof (find_by_index index (NoirCircuitTomlGenerator.deposits this)
                Hindex 0 ltac:(lia)
                ltac:(intros k record Hk; by apply Hrec)) as Hfind.
  rewrite Nat.sub_0_r in Hfind.
  unfold NoirCircuitTomlGenerator.gentoml. rewrite Hfind.
  destruct (NoirCircuitTomlGenerator.deposits this !! index)
    as [record|] eqn:Hlook; [|done].
  destruct (Hrec index record Hlook) as (Hidx & [root Hroot] & path & Hpath).
  exists path, root. split_and!; try done.
  rewrite Hpath, Hroot, Hidx, mapToString_Some. done.
Qed.

(** X19.  The roots of the records form a chain.  After [init] and any further
    calls, each record's [oldRoot] is the [newRoot] of the record before it,
    the first [oldRoot] is the root of the empty tree of depth 8, and the
    last [newRoot] is the tree's current root. *)
Theorem deposit_roots_chain (pedersen : list Fr -> Fr)
    (ops : list NoirCircuitTomlGenerator.op) :
  let this :=
    NoirCircuitTomlGenerator.run
      (NoirCircuitTomlGenerator.OpInit pedersen :: ops)
      NoirCircuitTomlGenerator.new in
  Some (Spec.zero_root pedersen 8)
    :: map DepositRecord.newRoot (NoirCircuitTomlGenerator.deposits this)
  = map DepositRecord.oldRoot (NoirCircuitTomlGenerator.deposits this)
      ++ [MerkleTree.root (NoirCircuitTomlGenerator.tree this)].
Proof.
  cbn zeta.
  apply (run_filed ops _
           (NoirCircuitTomlGenerator.step
              (NoirCircuitTomlGenerator.OpInit pedersen)
              NoirCircuitTomlGenerator.new));
    [apply init_ready|apply init_filed].
Qed.

End GeneratorRecords.

Lemma gentoml_withdraw_lookup_witness :
  (N.of_nat 0 < 2 ^ 53)%N /\
  let this :=
    NoirCircuitTomlGenerator.run
      [NoirCircuitTomlGenerator.OpInit Spec.demo_hash;
       NoirCircuitTomlGenerator.OpDeposit 5%N 6%N]
      NoirCircuitTomlGenerator.new in
  match NoirCircuitTomlGenerator.deposits this !! 0 with
  | Some record =>
      exists path root,
        DepositRecord.hashPath record = map Some path /\
        DepositRecord.newRoot record = Some root /\
        DepositRecord.index record = NoirCircuitTomlGenerator.numToFr 0 /\
        NoirCircuitTomlGenerator.gentoml
          (NoirCircuitTomlGenerator.Withdraw 0) this
        = (Ok (Records.withdraw_toml (DepositRecord.r record)
                 (NoirCircuitTomlGenerator.numToFr 0) path root
                 (DepositRecord.id record)), this)
  | None =>
      NoirCircuitTomlGenerator.gentoml
        (NoirCircuitTomlGenerator.Withdraw 0) this
      = (Throw (Error ("No deposit record found for index " +:+ pretty 0)),
         this)
  end.
Proof.
  split; [reflexivity|].
  apply (gentoml_withdraw_lookup
           [NoirCircuitTomlGenerator.OpInit Spec.demo_hash;
            NoirCircuitTomlGenerator.OpDeposit 5%N 6%N] 0).
  reflexivity.
Defined.

(** ** The example run of demo.ts *)

Section DemoRun.
Variable pedersen : list Fr -> Fr.

(** The record of a successful [deposit], and the TOML that
    [gentoml('deposit')] prints from it. *)
Lemma gentoml_deposit_record (id r : Fr) (h : list Fr -> Fr)
    (this this' : NoirCircuitTomlGenerator.t) :
  MerkleTree.bb (NoirCircuitTomlGenerator.tree this) = Some h ->
  NoirCircuitTomlGenerator.deposit id r this = (Ok tt, this') ->
  exists record,
    NoirCircuitTomlGenerator.deposits this'
      = NoirCircuitTomlGenerator.deposits this ++ [record] /\
    DepositRecord.commitment record = h [id; r] /\
    DepositRecord.index record
      = NoirCircuitTomlGenerator.numToFr
          (MerkleTree.totalLeaves (NoirCircuitTomlGenerator.tree this)) /\
    DepositRecord.oldRoot record
      = MerkleTree.root (NoirCircuitTomlGenerator.tree this) /\
    NoirCircuitTomlGenerator.gentoml (NoirCircuitTomlGenerator.Deposit id r) this
    = (path ← NoirCircuitTomlGenerator.mapToString (DepositRecord.hashPath record);
       oldRootS ← NoirCircuitTomlGenerator.toString (DepositRecord.oldRoot record);
       newRootS ← NoirCircuitTomlGenerator.toString (DepositRecord.newRoot record);
       Ok (String.concat NoirCircuitTomlGenerator.newline
             [ NoirCircuitTomlGenerator.toml_line "id" (Fr_toString id);
               NoirCircuitTomlGenerator.toml_line "r" (Fr_toString r);
               NoirCircuitTomlGenerator.toml_array "oldPath" path;
               NoirCircuitTomlGenerator.toml_line "oldRoot" oldRootS;
               NoirCircuitTomlGenerator.toml_line "newRoot" newRootS;
               NoirCircuitTomlGenerator.toml_line "commitment"
                 (Fr_toString (DepositRecord.commitment record));
               NoirCircuitTomlGenerator.toml_line "index"
                 (Fr_toString (DepositRecord.index record)) ]),
       this').
Proof.
  intros Hbb.
  unfold NoirCircuitTomlGenerator.gentoml, NoirCircuitTomlGenerator.deposit.
  rewrite proof_eq, Hbb.
  destruct (MerkleTree.insert _ _) as [[[]|e] tree']; [|done].
  intros [= <-]. eexists. cbn [NoirCircuitTomlGenerator.deposits].
  split; [reflexivity|]. done.
Qed.

(** X20.  The two TOML files of the example run are witnesses of the two
    circuits.  For every [id] and [r], [runExample] returns; the deposit
    TOML carries the commitment [pedersenHash([id, r])], index 0, the root
    of the empty tree of depth 8 as [oldRoot], and a path and [newRoot] that
    satisfy every assertion of deposit.nr; the withdraw TOML carries the
    same [r], [id] and path with [newRoot] as its root, and satisfies every
    assertion of withdraw.nr. *)
Theorem demo_tomls_satisfy_circuits (id r : Fr) :
  exists path newRoot,
    Demo.runExample pedersen id r
    = Ok (Demo.deposit_toml id r path (Spec.zero_root pedersen 8) newRoot
            (pedersen [id; r]) 0%N,
          Records.withdraw_toml r 0%N path newRoot id) /\
    DepositCircuit.main pedersen id r path (Spec.zero_root pedersen 8) newRoot
      (pedersen [id; r]) 0%N = true /\
    WithdrawCircuit.main pedersen r 0%N path newRoot id = true.
Proof.
  set (g0 := NoirCircuitTomlGenerator.mk (Spec.initial pedersen 8) []).
  assert (Hinit : NoirCircuitTomlGenerator.init pedersen
                    NoirCircuitTomlGenerator.new = (Ok tt, g0)).
  { unfold NoirCircuitTomlGenerator.init.
    cbn [NoirCircuitTomlGenerator.new NoirCircuitTomlGenerator.tree
         NoirCircuitTomlGenerator.deposits].
    by rewrite initialize_eq. }
  destruct (deposit_record_satisfies_circuits pedersen id r g0
              (initial_wf pedersen 8) eq_refl ltac:(simpl; lia))
    as (this' & record & path & oldRoot & newRoot & Hdep & Hdeps & Hid & Hr
        & Hpath & Hold & Hnew & Hdc & Hwc).
  destruct (gentoml_deposit_record id r pedersen g0 this' eq_refl Hdep)
    as (record' & Hdeps' & Hcom & Hidx & Hold' & Hgen).
  rewrite Hdeps in Hdeps'. apply app_inj_tail in Hdeps' as [_ <-].
  change (NoirCircuitTomlGenerator.deposits this' = [record]) in Hdeps.
  change (NoirCircuitTomlGenerator.numToFr _) with 0%N in Hidx.
  rewrite Hold in Hold'.
  assert (oldRoot = Spec.zero_root pedersen 8) as -> by (by injection Hold').
  rewrite Hcom, Hidx in Hdc. rewrite Hidx in Hwc.
  exists path, newRoot. split; [|done].
  unfold Demo.runExample, mbind, M_bind, bind. cbn zeta.
  rewrite Hinit, Hgen, Hpath, Hold, Hnew, mapToString_Some, Hcom, Hidx.
  cbn [mbind result_bind rbind NoirCircuitTomlGenerator.toString].
  unfold NoirCircuitTomlGenerator.gentoml. rewrite Hdeps.
  cbn [find]. rewrite Hidx.
  rewrite bool_decide_eq_true_2 by done.
  rewrite Hpath, Hnew, mapToString_Some, Hr.
  cbn [mbind result_bind rbind NoirCircuitTomlGenerator.toString].
  rewrite Hidx, Hid. done.
Qed.

End DemoRun.

(** ** Every record is a witness of the circuits *)

Section GeneratorWitnesses.
Variable pedersen : list Fr -> Fr.

(** Running [initialize([])] again with the same hasher keeps the tree well
    formed and its leaves in place. *)
Lemma initialize_again (this : MerkleTree.t) (leaves : list Fr) :
  Reference.holds pedersen this leaves ->
  Reference.holds pedersen (MerkleTree.initialize pedersen [] this).2 leaves /\
  MerkleTree.levels (MerkleTree.initialize pedersen [] this).2
  = MerkleTree.levels this.
Proof.
  intros [Hwf Hl].
  destruct (initialize_frame pedersen this) as (Htl & Hlev & Hbb & zs & Hzs).
  pose proof (initialize_storage pedersen this) as Hst.
  set (this' := (MerkleTree.initialize pedersen [] this).2) in *.
  assert (Hz : forall l, l <= MerkleTree.levels this ->
            MerkleTree.zeros this' !! l = MerkleTree.zeros this !! l).
  { intros l Hle. rewrite Hzs, (Spec.wf_zeros _ _ Hwf l Hle).
    apply lookup_app_l_Some, (Spec.wf_zeros _ _ Hwf l Hle). }
  assert (Hnode : forall l j, l <= MerkleTree.levels this ->
            MerkleTree.node this' l j = MerkleTree.node this l j).
  { intros l j Hle. unfold MerkleTree.node. by rewrite Hst, Hz. }
  split; [|done]. split; [|intros j; by rewrite Hst].
  split.
  - done.
  - intros l Hle. rewrite Hlev in Hle. rewrite Hz by done.
    by apply (Spec.wf_zeros _ _ Hwf).
  - rewrite Htl, Hlev. apply (Spec.wf_count _ _ Hwf).
  - intros j. rewrite Hst, Htl. apply (Spec.wf_leaves _ _ Hwf).
  - intros l j. rewrite Hlev, !Hst. apply (Spec.wf_up _ _ Hwf).
  - intros l p v. rewrite Hlev, Hst. intros Hlt Hv.
    rewrite !Hnode by lia. by apply (Spec.wf_hash _ _ Hwf).
Qed.

(** What a successful [insert] makes [deposit] record. *)
Lemma deposit_record_fields (id r : Fr) (this : NoirCircuitTomlGenerator.t)
    (tree' : MerkleTree.t) :
  let tree := NoirCircuitTomlGenerator.tree this in
  MerkleTree.bb tree = Some pedersen ->
  MerkleTree.insert (pedersen [id; r]) tree = (Ok tt, tree') ->
  NoirCircuitTomlGenerator.deposit id r this
  = (Ok tt,
     NoirCircuitTomlGenerator.mk tree'
       (NoirCircuitTomlGenerator.deposits this ++
        [DepositRecord.mk id r (pedersen [id; r])
           (NoirCircuitTomlGenerator.numToFr (MerkleTree.totalLeaves tree))
           (MerkleTree.root tree) (MerkleTree.root tree')
           (map (fun l => MerkleTree.node tree l
                            (Spec.sibling (MerkleTree.totalLeaves tree / 2 ^ l)))
              (seq 0 (MerkleTree.levels tree)))
           (map (fun l => (MerkleTree.totalLeaves tree / 2 ^ l) mod 2)
              (seq 0 (MerkleTree.levels tree)))])).
Proof.
  cbn zeta. intros Hbb Hins. unfold NoirCircuitTomlGenerator.deposit.
  by rewrite proof_eq, Hbb, Hins.
Qed.

Lemma valid_app (commitments : list Fr) (c : Fr) (k : nat)
    (record : DepositRecord.t) :
  k < length commitments ->
  Witness.valid pedersen commitments k record ->
  Witness.valid pedersen (commitments ++ [c]) k record.
Proof.
  intros Hk. unfold Witness.valid.
  by rewrite !take_app_le by lia.
Qed.

Lemma deposit_tracked (id r : Fr) (this : NoirCircuitTomlGenerator.t) :
  Witness.tracked pedersen this ->
  length (NoirCircuitTomlGenerator.deposits
            (NoirCircuitTomlGenerator.deposit id r this).2) <= 2 ^ 8 ->
  Witness.tracked pedersen (NoirCircuitTomlGenerator.deposit id r this).2.
Proof.
  intros (Hholds & Hlev & Hrec) Hcap.
  set (tree := NoirCircuitTomlGenerator.tree this) in *.
  set (deposits := NoirCircuitTomlGenerator.deposits this) in *.
  set (cs := map DepositRecord.commitment deposits) in *.
  pose proof Hholds as [Hwf _].
  pose proof (holds_length pedersen tree cs Hholds) as Htl.
  assert (Hcs : length cs = length deposits) by apply length_map.
  destruct (deposit_ready id r this (wf_ready pedersen tree Hwf))
    as (this1 & record1 & _ & Hdep1 & _ & _ & _ & Hdeps1 & _).
  rewrite Hdep1 in Hcap. cbn [snd] in Hcap.
  rewrite Hdeps1, length_app in Hcap. cbn [length] in Hcap. fold deposits in Hcap.
  assert (Hroom : length cs < 2 ^ MerkleTree.levels tree)
    by (rewrite Hlev; lia).
  destruct (holds_insert pedersen tree cs (pedersen [id; r]) Hholds Hroom)
    as (tree' & Hins & Hholds' & Hlev').
  pose proof (deposit_record_fields id r this tree'
                (Spec.wf_bb _ _ Hwf) Hins) as Hdep.
  cbn zeta in Hdep. fold tree deposits in Hdep.
  destruct (deposit_record_satisfies_circuits pedersen id r this Hwf Hlev
              ltac:(fold tree; lia))
    as (this2 & record & path & oldRoot & newRoot & Hdep2 & Hdeps2 & Hid & Hr
        & Hpath & Hold & Hnew & Hdc & Hwc).
  rewrite Hdep in Hdep2. injection Hdep2 as <-.
  cbn [NoirCircuitTomlGenerator.deposits] in Hdeps2.
  apply app_inj_tail in Hdeps2 as [_ <-].
  cbn [DepositRecord.oldRoot DepositRecord.newRoot DepositRecord.commitment
       DepositRecord.index DepositRecord.hashPath DepositRecord.id
       DepositRecord.r] in Hid, Hr, Hpath, Hold, Hnew, Hdc, Hwc.
  pose proof (holds_root pedersen tree cs Hholds) as Hroot.
  pose proof (holds_root pedersen tree' _ Hholds') as Hroot'.
  rewrite Hlev in Hroot. rewrite Hlev', Hlev in Hroot'.
  remember (Reference.subtree pedersen cs 8 0) as oldR eqn:EoldR.
  remember (Reference.subtree pedersen (cs ++ [pedersen [id; r]]) 8 0)
    as newR eqn:EnewR.
  assert (oldRoot = oldR) as -> by congruence.
  assert (newRoot = newR) as -> by congruence.
  rewrite Hdep. cbn [snd]. unfold Witness.tracked.
  cbn [NoirCircuitTomlGenerator.deposits NoirCircuitTomlGenerator.tree].
  rewrite map_app. cbn [map DepositRecord.commitment]. fold cs.
  split_and!; [done|lia|].
  intros k rec Hk.
  destruct (decide (k < length deposits)) as [Hlt|Hge].
  - rewrite lookup_app_l in Hk by done.
    apply valid_app; [lia|]. by apply Hrec.
  - rewrite lookup_app_r in Hk by lia.
    destruct (k - length deposits) as [|k'] eqn:Hk'; [|done].
    injection Hk as <-.
    assert (k = length cs) as -> by lia.
    unfold Witness.valid.
    cbn [DepositRecord.oldRoot DepositRecord.newRoot DepositRecord.commitment
         DepositRecord.index DepositRecord.hashPath DepositRecord.id
         DepositRecord.r].
    rewrite take_app_length.
    replace (take (S (length cs)) (cs ++ [pedersen [id; r]]))
      with (cs ++ [pedersen [id; r]])
      by (symmetry; apply take_ge; rewrite length_app; simpl; lia).
    rewrite <- EoldR, <- EnewR, <- Htl.
    split; [reflexivity|]. split; [reflexivity|].
    split; [exact Hroot|]. split; [exact Hroot'|].
    exists path. split; [exact Hpath|]. split; [exact Hdc|exact Hwc].
Qed.

Lemma step_tracked (o : NoirCircuitTomlGenerator.op)
    (this : NoirCircuitTomlGenerator.t) :
  Witness.tracked pedersen this ->
  Hasher.same pedersen o ->
  length (NoirCircuitTomlGenerator.deposits
            (NoirCircuitTomlGenerator.step o this)) <= 2 ^ 8 ->
  Witness.tracked pedersen (NoirCircuitTomlGenerator.step o this).
Proof.
  intros Htracked Hsame Hcap.
  destruct o as [h|id r|[id r|index|other]];
    cbn [NoirCircuitTomlGenerator.step] in *.
  - cbn in Hsame. subst h. destruct Htracked as (Hholds & Hlev & Hrec).
    destruct (initialize_again _ _ Hholds) as [Hholds' Hlev'].
    unfold NoirCircuitTomlGenerator.init.
    destruct (MerkleTree.initialize _ _ _) as [res tree']. cbn [snd] in *.
    unfold Witness.tracked.
    cbn [NoirCircuitTomlGenerator.tree NoirCircuitTomlGenerator.deposits].
    split_and!; [done|by rewrite Hlev'|done].
  - by apply deposit_tracked.
  - rewrite gentoml_deposit_state in *. by apply deposit_tracked.
  - unfold NoirCircuitTomlGenerator.gentoml. by destruct (find _ _).
  - done.
Qed.

Lemma step_deposits_mono (o : NoirCircuitTomlGenerator.op)
    (this : NoirCircuitTomlGenerator.t) :
  length (NoirCircuitTomlGenerator.deposits this)
  <= length (NoirCircuitTomlGenerator.deposits
               (NoirCircuitTomlGenerator.step o this)).
Proof.
  assert (Hdep : forall id r,
            length (NoirCircuitTomlGenerator.deposits this)
            <= length (NoirCircuitTomlGenerator.deposits
                         (NoirCircuitTomlGenerator.deposit id r this).2)).
  { intros id r. unfold NoirCircuitTomlGenerator.deposit.
    destruct (MerkleTree.proof _ _) as [p|e]; [|done].
    destruct (MerkleTree.bb _) as [h|]; [|done].
    destruct (MerkleTree.insert _ _) as [[[]|e] tree']; [|done].
    cbn [snd NoirCircuitTomlGenerator.deposits]. rewrite length_app. lia. }
  destruct o as [h|id r|[id r|index|other]];
    cbn [NoirCircuitTomlGenerator.step].
  - unfold NoirCircuitTomlGenerator.init.
    by destruct (MerkleTree.initialize _ _ _).
  - apply Hdep.
  - rewrite gentoml_deposit_state. apply Hdep.
  - unfold NoirCircuitTomlGenerator.gentoml. by destruct (find _ _).
  - done.
Qed.

Lemma run_deposits_mono (ops : list NoirCircuitTomlGenerator.op) :
  forall this : NoirCircuitTomlGenerator.t,
  length (NoirCircuitTomlGenerator.deposits this)
  <= length (NoirCircuitTomlGenerator.deposits
               (NoirCircuitTomlGenerator.run ops this)).
Proof.
  induction ops as [|o ops IH]; intros this; [done|].
  etrans; [apply (step_deposits_mono o)|apply IH].
Qed.

Lemma run_tracked (ops : list NoirCircuitTomlGenerator.op) :
  forall this : NoirCircuitTomlGenerator.t,
  Witness.tracked pedersen this ->
  Forall (Hasher.same pedersen) ops ->
  length (NoirCircuitTomlGenerator.deposits
            (NoirCircuitTomlGenerator.run ops this)) <= 2 ^ 8 ->
  Witness.tracked pedersen (NoirCircuitTomlGenerator.run ops this).
Proof.
  induction ops as [|o ops IH]; intros this Htracked Hsame Hcap; [done|].
  apply Forall_cons in Hsame as [Ho Hops].
  apply IH; [|done..].
  apply step_tracked; [done..|].
  etrans; [apply (run_deposits_mono ops)|exact Hcap].
Qed.

(** X21.  The generator keeps a faithful book.  After [init] and any further
    calls, as long as no more than [2^8] deposits were made: the tree holds
    exactly the commitments of the records, in order; and the [k]-th record
    has the commitment [pedersenHash([id, r])], the index [k], as roots the
    Merkle roots of the first [k] and the first [k + 1] commitments, and a
    path with which it satisfies every assertion of deposit.nr and of
    withdraw.nr. *)
Theorem records_are_circuit_witnesses
    (ops : list NoirCircuitTomlGenerator.op) :
  Forall (Hasher.same pedersen) ops ->
  let this :=
    NoirCircuitTomlGenerator.run
      (NoirCircuitTomlGenerator.OpInit pedersen :: ops)
      NoirCircuitTomlGenerator.new in
  let commitments :=
    map DepositRecord.commitment (NoirCircuitTomlGenerator.deposits this) in
  length (NoirCircuitTomlGenerator.deposits this) <= 2 ^ 8 ->
  Reference.holds pedersen (NoirCircuitTomlGenerator.tree this) commitments /\
  forall k record,
    NoirCircuitTomlGenerator.deposits this !! k = Some record ->
    Witness.valid pedersen commitments k record.
Proof.
  intros Hsame this commitments Hcap.
  assert (Htracked : Witness.tracked pedersen this).
  { apply (run_tracked ops
             (NoirCircuitTomlGenerator.step
                (NoirCircuitTomlGenerator.OpInit pedersen)
                NoirCircuitTomlGenerator.new)); [|done..].
    cbn [NoirCircuitTomlGenerator.step]. unfold NoirCircuitTomlGenerator.init.
    cbn [NoirCircuitTomlGenerator.new NoirCircuitTomlGenerator.tree
         NoirCircuitTomlGenerator.deposits].
    rewrite initialize_eq. cbn [MerkleTree.insertAll].
    split_and!; [apply holds_initial|done|done]. }
  destruct Htracked as (Hholds & _ & Hrec). done.
Qed.

End GeneratorWitnesses.

Lemma records_are_circuit_witnesses_witness :
  let ops :=
    [NoirCircuitTomlGenerator.OpDeposit 5%N 6%N;
     NoirCircuitTomlGenerator.OpGentoml
       (NoirCircuitTomlGenerator.Deposit 7%N 8%N);
     NoirCircuitTomlGenerator.OpInit Spec.demo_hash;
     NoirCircuitTomlGenerator.OpGentoml (NoirCircuitTomlGenerator.Withdraw 0)] in
  let this :=
    NoirCircuitTomlGenerator.run
      (NoirCircuitTomlGenerator.OpInit Spec.demo_hash :: ops)
      NoirCircuitTomlGenerator.new in
  let commitments :=
    map DepositRecord.commitment (NoirCircuitTomlGenerator.deposits this) in
  Forall (Hasher.same Spec.demo_hash) ops /\
  length (NoirCircuitTomlGenerator.deposits this) <= 2 ^ 8 /\
  Reference.holds Spec.demo_hash (NoirCircuitTomlGenerator.tree this)
    commitments /\
  forall k record,
    NoirCircuitTomlGenerator.deposits this !! k = Some record ->
    Witness.valid Spec.demo_hash commitments k record.
Proof.
  intros ops this commitments.
  assert (Hsame : Forall (Hasher.same Spec.demo_hash) ops)
    by (repeat constructor).
  assert (Hcap : length (NoirCircuitTomlGenerator.deposits this) <= 2 ^ 8)
    by (vm_compute; lia).
  split; [exact Hsame|]. split; [exact Hcap|].
  exact (records_are_circuit_witnesses Spec.demo_hash ops Hsame Hcap).
Defined.

(** ** The deposit-then-withdraw script *)

Section ScriptRun.
Import Sol.
Local Open Scope Z_scope.
Variable verify : address -> bytes -> list bytes32 -> option bool.
Variable receive : address -> Z -> state -> bool.
Variable signer : address.

Lemma script_deposit_accepted proof newRoot commitment s :
  depositIndex s < maxDeposits s ->
  maxDeposits s <= MAX_UINT256 ->
  verify (depositVerifier s) proof
    [currentRoot s; newRoot; commitment; depositIndex s] = Some true ->
  exists tr,
    call (Whirlwind.deposit verify (mkMsg signer ether_0_1) proof newRoot
            commitment) s
    = Success tt
        (mkMachine
           (set_depositIndex (depositIndex s + 1)
              (set_currentRoot newRoot
                 (set_balance (balance s + ether_0_1) s))) tr).
Proof.
  intros Hidx Hmax Hver. eexists. rewrite deposit_cases.
  rewrite bool_decide_eq_true_2 by done.
  rewrite bool_decide_eq_true_2 by done. cbv zeta.
  destruct (verify _ _ _) as [[]|] eqn:Hv;
    [|exfalso; clear -Hv Hver; congruence..].
  rewrite decide_False by lia. reflexivity.
Qed.

(** X22.  The script's round trip.  When both proofs are good for the ledger as
    the script finds it -- the deposit proof for
    [currentRoot, newRoot, commitment, depositIndex], the withdraw proof for
    the root just deposited and the nullifier -- and the nullifier is fresh,
    the script ends without failure: the balance is what it was, the root
    is [newRoot], one more deposit is counted and the nullifier is used.
    The [oldRoot] and [index] lines of the deposit file and the [root] line
    of the withdraw file play no part. *)
Theorem script_round_trip addr f s oldRoot newRoot commitment index root
    nullifier :
  SeparateAndTest.depositPublics f = [oldRoot; newRoot; commitment; index] ->
  SeparateAndTest.withdrawPublics f = [root; nullifier] ->
  depositIndex s < maxDeposits s ->
  maxDeposits s <= MAX_UINT256 ->
  0 <= balance s ->
  verify (depositVerifier s) (SeparateAndTest.depositProof f)
    [currentRoot s; newRoot; commitment; depositIndex s] = Some true ->
  verify (withdrawVerifier s) (SeparateAndTest.withdrawProof f)
    [newRoot; nullifier] = Some true ->
  used s nullifier = false ->
  (forall s1, receive signer ether_0_1 s1 = true) ->
  exists s',
    SeparateAndTest.main verify receive signer (Some addr) f s = (None, s') /\
    balance s' = balance s /\
    currentRoot s' = newRoot /\
    depositIndex s' = depositIndex s + 1 /\
    used s' nullifier = true /\
    forall k, k <> nullifier -> used s' k = used s k.
Proof.
  intros Hdp Hwp Hidx Hmax Hbal Hdv Hwv Hfresh Hrecv.
  destruct (script_deposit_accepted _ newRoot commitment s Hidx Hmax Hdv)
    as [tr Hdep].
  unfold SeparateAndTest.main. rewrite Hdp, Hdep, Hwp. cbn [st].
  rewrite withdraw_cases. cbn [value]. rewrite decide_True by done.
  set (s1 := set_depositIndex _ _).
  change (used s1 nullifier) with (used s nullifier). rewrite Hfresh.
  cbv zeta. change (withdrawVerifier s1) with (withdrawVerifier s).
  change (currentRoot s1) with newRoot. rewrite Hwv.
  rewrite decide_False by (cbn; lia). rewrite Hrecv.
  eexists. split; [reflexivity|]. subst s1.
  cbn [st balance currentRoot depositIndex set_balance set_usedNullifiers
       set_depositIndex set_currentRoot].
  split_and!; try done.
  - lia.
  - unfold used, set_balance, set_usedNullifiers. cbn [usedNullifiers].
    by rewrite lookup_insert_eq.
  - intros k Hk. unfold used, set_balance, set_usedNullifiers.
    cbn [usedNullifiers]. by rewrite lookup_insert_ne.
Qed.

(** X23.  The script is not a transaction.  If the deposit goes through and the
    script then fails -- the withdraw file does not have two lines, the
    nullifier is already used, or the verifier does not accept the withdraw
    proof for the new root -- the script ends with a failure and the ledger
    keeps the deposit: the unit amount stays in the contract, the root and
    the deposit index have moved on, and no nullifier was marked. *)
Theorem script_failure_keeps_deposit addr f s oldRoot newRoot commitment
    index :
  SeparateAndTest.depositPublics f = [oldRoot; newRoot; commitment; index] ->
  depositIndex s < maxDeposits s ->
  maxDeposits s <= MAX_UINT256 ->
  verify (depositVerifier s) (SeparateAndTest.depositProof f)
    [currentRoot s; newRoot; commitment; depositIndex s] = Some true ->
  length (SeparateAndTest.withdrawPublics f) <> 2%nat \/
  (exists root nullifier,
     SeparateAndTest.withdrawPublics f = [root; nullifier] /\
     (used s nullifier = true \/
      verify (withdrawVerifier s) (SeparateAndTest.withdrawProof f)
        [newRoot; nullifier] <> Some true)) ->
  exists failure s',
    SeparateAndTest.main verify receive signer (Some addr) f s
      = (Some failure, s') /\
    balance s' = balance s + ether_0_1 /\
    currentRoot s' = newRoot /\
    depositIndex s' = depositIndex s + 1 /\
    usedNullifiers s' = usedNullifiers s.
Proof.
  intros Hdp Hidx Hmax Hdv Hlate.
  destruct (script_deposit_accepted _ newRoot commitment s Hidx Hmax Hdv)
    as [tr Hdep].
  unfold SeparateAndTest.main. rewrite Hdp, Hdep. cbn [st].
  set (s1 := set_depositIndex _ _).
  assert (Hs1 : balance s1 = balance s + ether_0_1 /\
                currentRoot s1 = newRoot /\
                depositIndex s1 = depositIndex s + 1 /\
                usedNullifiers s1 = usedNullifiers s) by done.
  destruct Hlate as [Hlen | (root & nullifier & Hwp & Hbad)].
  - exists (SeparateAndTest.Thrown
              "Withdraw public_inputs file must have exactly 2 lines"), s1.
    split; [|done].
    by destruct (SeparateAndTest.withdrawPublics f) as [|a [|b [|c l]]].
  - rewrite Hwp, withdraw_cases. cbn [value]. rewrite decide_True by done.
    change (used s1 nullifier) with (used s nullifier).
    destruct (used s nullifier).
    { by exists (SeparateAndTest.Reverted (Reason "Nullifier already used")), s1. }
    destruct Hbad as [|Hbad]; [done|].
    cbv zeta. change (withdrawVerifier s1) with (withdrawVerifier s).
    change (currentRoot s1) with newRoot.
    destruct (verify (withdrawVerifier s) _ _) as [[]|]; [done|..].
    + by exists (SeparateAndTest.Reverted (Reason "Invalid withdraw proof")), s1.
    + by exists (SeparateAndTest.Reverted Bubbled), s1.
Qed.

End ScriptRun.

Lemma script_round_trip_witness :
  exists s',
    SeparateAndTest.main Spec.accept_all Spec.receive_all 77%Z (Some 1%Z)
      (SeparateAndTest.mkFiles [] [100; 200; 7; 0]%Z [] [999; 5]%Z)
      Spec.demo_state = (None, s') /\
    Sol.balance s' = Sol.balance Spec.demo_state /\
    Sol.currentRoot s' = 200%Z /\
    Sol.depositIndex s' = (Sol.depositIndex Spec.demo_state + 1)%Z /\
    Sol.used s' 5%Z = true /\
    forall k, k <> 5%Z -> Sol.used s' k = Sol.used Spec.demo_state k.
Proof.
  apply (script_round_trip Spec.accept_all Spec.receive_all 77%Z 1%Z
           (SeparateAndTest.mkFiles [] [100; 200; 7; 0]%Z [] [999; 5]%Z)
           Spec.demo_state 100%Z 200%Z 7%Z 0%Z 999%Z 5%Z).
  - reflexivity.
  - reflexivity.
  - reflexivity.
  - vm_compute. discriminate.
  - vm_compute. discriminate.
  - reflexivity.
  - reflexivity.
  - reflexivity.
  - reflexivity.
Defined.

Lemma script_failure_keeps_deposit_witness :
  exists failure s',
    SeparateAndTest.main (Spec.accept_only [100; 200; 7; 0]%Z)
      Spec.receive_all 77%Z (Some 1%Z)
      (SeparateAndTest.mkFiles [] [100; 200; 7; 0]%Z [] [200; 5]%Z)
      Spec.demo_state = (Some failure, s') /\
    Sol.balance s' = (Sol.balance Spec.demo_state + Sol.ether_0_1)%Z /\
    Sol.currentRoot s' = 200%Z /\
    Sol.depositIndex s' = (Sol.depositIndex Spec.demo_state + 1)%Z /\
    Sol.usedNullifiers s' = Sol.usedNullifiers Spec.demo_state.
Proof.
  apply (script_failure_keeps_deposit (Spec.accept_only [100; 200; 7; 0]%Z)
           Spec.receive_all 77%Z 1%Z
           (SeparateAndTest.mkFiles [] [100; 200; 7; 0]%Z [] [200; 5]%Z)
           Spec.demo_state 100%Z 200%Z 7%Z 0%Z).
  - reflexivity.
  - reflexivity.
  - vm_compute. discriminate.
  - reflexivity.
  - right. exists 200%Z, 5%Z. split; [reflexivity|]. right.
    vm_compute. discriminate.
Defined.

(** ** Every deposit changes the generator *)

Section GeneratorMutation.

Lemma insert_levels (leaf : Fr) (this : MerkleTree.t) :
  MerkleTree.levels (MerkleTree.insert leaf this).2 = MerkleTree.levels this.
Proof.
  rewrite insert_eq.
  pose proof (update_frame (MerkleTree.totalLeaves this) leaf true this)
    as (_ & Hlev & _).
  by destruct (MerkleTree.update _ leaf true this) as [[[]|e] this'].
Qed.

Lemma step_levels (o : NoirCircuitTomlGenerator.op)
    (this : NoirCircuitTomlGenerator.t) :
  MerkleTree.levels
    (NoirCircuitTomlGenerator.tree (NoirCircuitTomlGenerator.step o this))
  = MerkleTree.levels (NoirCircuitTomlGenerator.tree this).
Proof.
  assert (Hdep : forall id r,
            MerkleTree.levels
              (NoirCircuitTomlGenerator.tree
                 (NoirCircuitTomlGenerator.deposit id r this).2)
            = MerkleTree.levels (NoirCircuitTomlGenerator.tree this)).
  { intros id r. unfold NoirCircuitTomlGenerator.deposit.
    destruct (MerkleTree.proof _ _) as [p|e]; [|done].
    destruct (MerkleTree.bb _) as [h|]; [|done].
    pose proof (insert_levels (h [id; r]) (NoirCircuitTomlGenerator.tree this))
      as Hlev.
    by destruct (MerkleTree.insert _ _) as [[[]|e] tree']. }
  destruct o as [h|id r|[id r|index|other]];
    cbn [NoirCircuitTomlGenerator.step].
  - unfold NoirCircuitTomlGenerator.init.
    destruct (initialize_frame h (NoirCircuitTomlGenerator.tree this))
      as (_ & Hlev & _).
    by destruct (MerkleTree.initialize _ _ _).
  - apply Hdep.
  - rewrite gentoml_deposit_state. apply Hdep.
  - unfold NoirCircuitTomlGenerator.gentoml. by destruct (find _ _).
  - done.
Qed.

Lemma run_levels (ops : list NoirCircuitTomlGenerator.op) :
  forall this : NoirCircuitTomlGenerator.t,
  MerkleTree.levels
    (NoirCircuitTomlGenerator.tree (NoirCircuitTomlGenerator.run ops this))
  = MerkleTree.levels (NoirCircuitTomlGenerator.tree this).
Proof.
  induction ops as [|o ops IH]; intros this; [done|].
  change (NoirCircuitTomlGenerator.run (o :: ops) this)
    with (NoirCircuitTomlGenerator.run ops (NoirCircuitTomlGenerator.step o this)).
  by rewrite IH, step_levels.
Qed.

(** Where [insert] writes: the leaf at the next free index, the nodes above
    it, and the root. *)
Lemma insert_writes (h : list Fr -> Fr) (this : MerkleTree.t) (leaf : Fr) :
  Spec.ready this ->
  MerkleTree.bb this = Some h ->
  0 < MerkleTree.levels this ->
  exists this',
    MerkleTree.insert leaf this = (Ok tt, this') /\
    MerkleTree.totalLeaves this' = MerkleTree.totalLeaves this + 1 /\
    MerkleTree.storage this' !! indexToKey 0 (MerkleTree.totalLeaves this)
      = Some leaf /\
    (forall j, j <> MerkleTree.totalLeaves this ->
       MerkleTree.storage this' !! indexToKey 0 j
       = MerkleTree.storage this !! indexToKey 0 j) /\
    MerkleTree.root this'
    = Some (Spec.path_value h (MerkleTree.node this)
              (MerkleTree.totalLeaves this) leaf (MerkleTree.levels this)) /\
    (forall l j,
       MerkleTree.storage this' !! indexToKey l j
       = if decide (l = MerkleTree.levels this /\ j = 0) then
           Some (Spec.path_value h (MerkleTree.node this)
                   (MerkleTree.totalLeaves this) leaf l)
         else if decide (l < MerkleTree.levels this /\
                         j = MerkleTree.totalLeaves this / 2 ^ l) then
           Some (Spec.path_value h (MerkleTree.node this)
                   (MerkleTree.totalLeaves this) leaf l)
         else MerkleTree.storage this !! indexToKey l j).
Proof.
  intros [_ Hz] Hbb Hpos.
  assert (Hz' : forall l, l < MerkleTree.levels this ->
                          is_Some (MerkleTree.zeros this !! l)).
  { intros l Hl. apply Hz. lia. }
  destruct (update_ok h this (MerkleTree.totalLeaves this) leaf true Hbb Hz'
              (Nat.le_refl _)) as (m' & Hupd & Hlook).
  eexists. split; [by rewrite insert_eq, Hupd|].
  unfold MerkleTree.root.
  cbn [MerkleTree.set_totalLeaves MerkleTree.set_storage MerkleTree.storage
       MerkleTree.totalLeaves MerkleTree.levels MerkleTree.zeros].
  split_and!.
  - reflexivity.
  - rewrite Hlook. cbv zeta.
    rewrite decide_False by lia.
    rewrite decide_True by (rewrite Nat.pow_0_r, Nat.div_1_r; split; [lia|done]).
    reflexivity.
  - intros j Hj. rewrite Hlook. cbv zeta.
    rewrite decide_False by lia.
    rewrite decide_False; [reflexivity|].
    rewrite Nat.pow_0_r, Nat.div_1_r. intros [_ ->]. done.
  - rewrite Hlook. cbv zeta. rewrite decide_True by done. reflexivity.
  - intros l j. rewrite Hlook. reflexivity.
Qed.

(** On a generator whose tree has its hasher, [deposit] and
    [gentoml('deposit')] write the commitment into the next free leaf,
    leave every other leaf alone, move the root, advance [totalLeaves] and
    append the record of all that. *)
Lemma deposit_writes (h : list Fr -> Fr) (id r : Fr)
    (this : NoirCircuitTomlGenerator.t) :
  let tree := NoirCircuitTomlGenerator.tree this in
  let index := MerkleTree.totalLeaves tree in
  Spec.ready tree ->
  MerkleTree.bb tree = Some h ->
  MerkleTree.levels tree = 8 ->
  length (NoirCircuitTomlGenerator.deposits this) = index ->
  exists this' record toml,
    NoirCircuitTomlGenerator.deposit id r this = (Ok tt, this') /\
    NoirCircuitTomlGenerator.gentoml
      (NoirCircuitTomlGenerator.Deposit id r) this = (Ok toml, this') /\
    MerkleTree.totalLeaves (NoirCircuitTomlGenerator.tree this') = index + 1 /\
    NoirCircuitTomlGenerator.deposits this'
      = NoirCircuitTomlGenerator.deposits this ++ [record] /\
    length (NoirCircuitTomlGenerator.deposits this')
      = MerkleTree.totalLeaves (NoirCircuitTomlGenerator.tree this') /\
    this' <> this /\
    MerkleTree.storage (NoirCircuitTomlGenerator.tree this')
      !! indexToKey 0 index = Some (h [id; r]) /\
    (forall j, j <> index ->
       MerkleTree.storage (NoirCircuitTomlGenerator.tree this')
         !! indexToKey 0 j
       = MerkleTree.storage tree !! indexToKey 0 j) /\
    MerkleTree.root (NoirCircuitTomlGenerator.tree this')
      = Some (Spec.path_value h (MerkleTree.node tree) index (h [id; r]) 8) /\
    (forall l j,
       MerkleTree.storage (NoirCircuitTomlGenerator.tree this')
         !! indexToKey l j
       = if decide (l = 8 /\ j = 0) then
           Some (Spec.path_value h (MerkleTree.node tree) index (h [id; r]) l)
         else if decide (l < 8 /\ j = index / 2 ^ l) then
           Some (Spec.path_value h (MerkleTree.node tree) index (h [id; r]) l)
         else MerkleTree.storage tree !! indexToKey l j) /\
    DepositRecord.id record = id /\
    DepositRecord.r record = r /\
    DepositRecord.commitment record = h [id; r] /\
    DepositRecord.index record = NoirCircuitTomlGenerator.numToFr index /\
    DepositRecord.oldRoot record = MerkleTree.root tree /\
    DepositRecord.newRoot record
      = MerkleTree.root (NoirCircuitTomlGenerator.tree this').
Proof.
  cbn zeta. intros Hready Hbb Hlev Hinv.
  set (tree := NoirCircuitTomlGenerator.tree this) in *.
  destruct (insert_writes h tree (h [id; r]) Hready Hbb ltac:(lia))
    as (tree' & Hins & Htl & Hleaf & Hothers & Hroot & Hnodes).
  rewrite Hlev in Hroot. rewrite Hlev in Hnodes.
  pose proof (deposit_record_fields h id r this tree' Hbb Hins) as Hdep.
  cbn zeta in Hdep. fold tree in Hdep.
  destruct (deposit_ready id r this Hready)
    as (this1 & record1 & toml & Hdep1 & Hgen & _).
  rewrite Hdep in Hdep1. injection Hdep1 as <-.
  eexists _, _, toml. split; [exact Hdep|]. split; [exact Hgen|].
  cbn [NoirCircuitTomlGenerator.tree NoirCircuitTomlGenerator.deposits
       DepositRecord.id DepositRecord.r DepositRecord.commitment
       DepositRecord.index DepositRecord.oldRoot DepositRecord.newRoot].
  split; [exact Htl|]. split; [reflexivity|].
  split; [rewrite length_app, Htl, Hinv; reflexivity|].
  split.
  { intros Heq. apply (f_equal (fun g => MerkleTree.totalLeaves
                                  (NoirCircuitTomlGenerator.tree g))) in Heq.
    cbn [NoirCircuitTomlGenerator.tree] in Heq. fold tree in Heq. lia. }
  split; [exact Hleaf|]. split; [exact Hothers|]. split; [exact Hroot|].
  split; [exact Hnodes|].
  split_and!; reflexivity.
Qed.

(** C9 (generating a deposit TOML is not read-only).  Whatever operations
    are run on a new generator, [deposits.length == tree.totalLeaves] holds
    afterwards.  Once [init] has run the hasher stays set, and from then on
    every [deposit(id, r)] and every [gentoml('deposit', id, r)] returns and
    changes the generator: the commitment [pedersenHash([id, r])] is stored
    in the leaf at the old [totalLeaves], no other leaf is touched, the
    nodes above it and the root become the hashes of that leaf up its path
    and no other node is touched, [totalLeaves] grows by one and exactly one
    record -- of this [id], [r], commitment, index and of
    the roots before and after -- is appended.  Before [init] the same
    calls throw a [TypeError] and change nothing. *)
Theorem deposit_mutates_generator :
  (forall ops,
     length (NoirCircuitTomlGenerator.deposits
               (NoirCircuitTomlGenerator.run ops NoirCircuitTomlGenerator.new))
     = MerkleTree.totalLeaves
         (NoirCircuitTomlGenerator.tree
            (NoirCircuitTomlGenerator.run ops NoirCircuitTomlGenerator.new))) /\
  (forall pedersen ops,
     is_Some
       (MerkleTree.bb
          (NoirCircuitTomlGenerator.tree
             (NoirCircuitTomlGenerator.run
                (NoirCircuitTomlGenerator.OpInit pedersen :: ops)
                NoirCircuitTomlGenerator.new)))) /\
  (forall ops id r,
     let this :=
       NoirCircuitTomlGenerator.run ops NoirCircuitTomlGenerator.new in
     let tree := NoirCircuitTomlGenerator.tree this in
     let index := MerkleTree.totalLeaves tree in
     match MerkleTree.bb tree with
     | Some pedersen =>
         exists this' record toml,
           NoirCircuitTomlGenerator.deposit id r this = (Ok tt, this') /\
           NoirCircuitTomlGenerator.gentoml
             (NoirCircuitTomlGenerator.Deposit id r) this = (Ok toml, this') /\
           MerkleTree.totalLeaves (NoirCircuitTomlGenerator.tree this')
             = index + 1 /\
           NoirCircuitTomlGenerator.deposits this'
             = NoirCircuitTomlGenerator.deposits this ++ [record] /\
           length (NoirCircuitTomlGenerator.deposits this')
             = MerkleTree.totalLeaves (NoirCircuitTomlGenerator.tree this') /\
           this' <> this /\
           MerkleTree.storage (NoirCircuitTomlGenerator.tree this')
             !! indexToKey 0 index = Some (pedersen [id; r]) /\
           (forall j, j <> index ->
              MerkleTree.storage (NoirCircuitTomlGenerator.tree this')
                !! indexToKey 0 j
              = MerkleTree.storage tree !! indexToKey 0 j) /\
           MerkleTree.root (NoirCircuitTomlGenerator.tree this')
             = Some (Spec.path_value pedersen (MerkleTree.node tree) index
                       (pedersen [id; r]) 8) /\
           (forall l j,
              MerkleTree.storage (NoirCircuitTomlGenerator.tree this')
                !! indexToKey l j
              = if decide (l = 8 /\ j = 0) then
                  Some (Spec.path_value pedersen (MerkleTree.node tree) index
                          (pedersen [id; r]) l)
                else if decide (l < 8 /\ j = index / 2 ^ l) then
                  Some (Spec.path_value pedersen (MerkleTree.node tree) index
                          (pedersen [id; r]) l)
                else MerkleTree.storage tree !! indexToKey l j) /\
           DepositRecord.id record = id /\
           DepositRecord.r record = r /\
           DepositRecord.commitment record = pedersen [id; r] /\
           DepositRecord.index record
             = NoirCircuitTomlGenerator.numToFr index /\
           DepositRecord.oldRoot record = MerkleTree.root tree /\
           DepositRecord.newRoot record
             = MerkleTree.root (NoirCircuitTomlGenerator.tree this')
     | None =>
         NoirCircuitTomlGenerator.deposit id r this = (Throw TypeError, this) /\
         NoirCircuitTomlGenerator.gentoml
           (NoirCircuitTomlGenerator.Deposit id r) this
         = (Throw TypeError, this)
     end).
Proof.
  split_and!.
  - intros ops. by apply run_count.
  - intros pedersen ops.
    apply (run_ready ops
             (NoirCircuitTomlGenerator.step
                (NoirCircuitTomlGenerator.OpInit pedersen)
                NoirCircuitTomlGenerator.new)), init_ready.
  - intros ops id r this tree index.
    pose proof (run_count ops NoirCircuitTomlGenerator.new eq_refl) as Hinv.
    pose proof (run_levels ops NoirCircuitTomlGenerator.new) as Hlev.
    change (MerkleTree.levels
              (NoirCircuitTomlGenerator.tree NoirCircuitTomlGenerator.new))
      with 8 in Hlev.
    fold this in Hinv, Hlev. fold tree in Hinv, Hlev.
    destruct (run_new_cases ops NoirCircuitTomlGenerator.new ltac:(by left))
      as [Hnew | (Hready & _)]; fold this in Hnew || fold this in Hready.
    + unfold tree, index. rewrite Hnew.
      cbn [NoirCircuitTomlGenerator.new NoirCircuitTomlGenerator.tree
           MerkleTree.new MerkleTree.bb].
      unfold NoirCircuitTomlGenerator.gentoml, NoirCircuitTomlGenerator.deposit.
      by rewrite proof_eq.
    + fold tree in Hready.
      destruct (MerkleTree.bb tree) as [pedersen|] eqn:Hbb.
      * exact (deposit_writes pedersen id r this Hready Hbb Hlev Hinv).
      * destruct Hready as [[h Hh] _]. congruence.
Qed.

End GeneratorMutation.
